(** * factorize: integer-coded factors from categorical variables

    A shallow embedding of the three function templates of the library,

    - [create_factor]            (include/factorize/create_factor.hpp),
    - [combine_to_factor]        (include/factorize/combine_to_factor.hpp),
    - [combine_to_factor_unused] (include/factorize/combine_to_factor.hpp),

    the properties their documentation states about them, and further
    properties that the code itself shows.

    Conventions of the embedding.

    - [Code_] is an unsigned integer type of [Code_bits] bits: a value of
      type [N] below [2 ^ Code_bits], every conversion to [Code_] written
      out as [to_Code].  [std::size_t] (the size type of [std::vector])
      is unsigned of [size_bits] bits.
    - In [combine_to_factor_unused] the types [Input_] and [Number_] are
      integer types taken wide enough for the values the caller passes:
      their values are plain [N], and only the conversions *to* [Code_]
      can lose information.
    - An array [const Input_*] or [Code_*] of [n] cells is a list; [n] is
      passed next to it as in the source.
    - A call ends in one of three ways, see [outcome]: it returns, it
      leaves through an exception of the sanisizer library, or it executes
      an operation whose behaviour is undefined.  Allocation failure
      ([std::bad_alloc]) is not modelled. *)

From stdpp Require Import gmap list sorting numbers.

Local Open Scope N_scope.

(** ** Integer types of an instantiation *)

Class Platform := {
  Code_bits : N;  (* width of the template parameter [Code_] *)
  size_bits : N   (* width of [std::size_t] *)
}.

Definition Code_max `{Platform} : N := 2 ^ Code_bits - 1.
Definition size_max `{Platform} : N := 2 ^ size_bits - 1.

(** Conversion of an integer value to [Code_]: reduction modulo
    [2 ^ Code_bits], as for an unsigned type.  An instantiation with a
    signed [Code_] is outside the embedding: there the conversion of a
    value above the maximum is implementation-defined and may give a
    negative label. *)
Definition to_Code `{Platform} (x : N) : N := x mod 2 ^ Code_bits.

(** [uint8_t] codes on a 64-bit platform, and [uint32_t] codes on a
    platform whose [size_t] has 16 bits. *)
Definition uint8_codes : Platform := {| Code_bits := 8; size_bits := 64 |}.

(** ** How a call ends *)

Inductive outcome (T : Type) : Type :=
| Returned (value : T) (codes : list N)
    (* normal return; [codes] is the content of the caller's array *)
| Thrown (codes : list N)
    (* an exception left the call; [codes] is what the array holds then *)
| Undefined.
    (* an operation with undefined behaviour was executed *)
Arguments Returned {T} value codes.
Arguments Thrown {T} codes.
Arguments Undefined {T}.

(** ** The numeric-safety capability (sanisizer) *)

Section sanisizer.
Context `{Platform}.

(** Modelled from the spec: [sanisizer::cast<size_type>(x)], the checked
    cast ("cast a to type T, fail cleanly on overflow") to the size type
    of a vector.  [None] is the failure. *)
Definition sanisizer_cast_size (x : N) : option N :=
  if decide (x ≤ size_max) then Some x else None.

(** Modelled from the spec: [sanisizer::create<std::vector<T> >(x)], the
    checked allocation ("produce a container of exactly size S, fail
    cleanly if S cannot be represented"): [x] value-initialised elements
    when [x] is representable in the vector's size type. *)
Definition sanisizer_create {T} (x : N) (init : T) : option (list T) :=
  _ ← sanisizer_cast_size x; Some (replicate (N.to_nat x) init).

(** Modelled from the spec: [sanisizer::resize(v, x)] on an empty vector,
    the same check followed by [v.resize(x)]. *)
Definition sanisizer_resize {T} (x : N) (init : T) : option (list T) :=
  sanisizer_create x init.

(** Modelled from the spec: [sanisizer::product<Code_>(a, b)], the checked
    multiplication ("compute a*b failing cleanly on overflow") in
    [Code_]. *)
Definition sanisizer_product (a b : N) : option N :=
  if decide (a * b ≤ Code_max) then Some (a * b) else None.

(** Modelled from the spec: [sanisizer::product_unsafe<Code_>(a, b)], the
    multiplication in [Code_] without any check: it wraps around. *)
Definition sanisizer_product_unsafe (a b : N) : N :=
  to_Code (to_Code a * to_Code b).
End sanisizer.

(** ** [combine_to_factor_unused] *)

Section combine_to_factor_unused.
Context `{Platform}.

(** [std::fill_n(codes, n, v)] and [std::copy_n(src, n, codes)] on the
    [n] cells of the codes array; [copy_n] converts [Input_] to
    [Code_]. *)
Definition fill_n (n : nat) (v : N) : list N := replicate n v.
Definition copy_n (src : list N) (n : nat) : list N := to_Code <$> take n src.

(** [std::iota(out.begin(), out.end(), static_cast<Code_>(0))]: the
    counter is a [Code_]. *)
Definition iota (out : list N) : list N :=
  imap (λ j _, to_Code (N.of_nat j)) out.

(** Lines 169-177: the body of the loop [for (f = ninputs - 1; f > 0;
    --f)] for [finfo = inputs[f - 1]], on the running base [ncombos] and
    the codes accumulated so far.  [None]: the checked product threw. *)
Definition code_step (finfo : list N * N) (ncombos : N) (codes : list N)
    : option (N * list N) :=
  next_ncombos ← sanisizer_product ncombos finfo.2;
  let ff := finfo.1 in
  Some (next_ncombos,
        imap (λ i c, to_Code (c + sanisizer_product_unsafe ncombos (ff !!! i))) codes).

(** Lines 168-178: the loop, entered with [f]. *)
Fixpoint code_loop (inputs : list (list N * N)) (f : nat)
    (ncombos : N) (codes : list N) : outcome N :=
  match f with
  | O => Returned ncombos codes
  | S f' =>
      match code_step (inputs !!! f') ncombos codes with
      | None => Thrown codes
      | Some (next_ncombos, codes) => code_loop inputs f' next_ncombos codes
      end
  end.

(** [std::fill_n(oIt, inner_repeats, l)] through the iterator at
    position [pos]; writing past [out.end()] is undefined. *)
Definition fill_run (out : list N) (pos len : nat) (l : N) : option (list N) :=
  if decide (pos + len ≤ length out)%nat
  then Some (take pos out ++ replicate len l ++ drop (pos + len) out)
  else None.

(** Lines 194-198: [for (Number_ l = 0; l < finfo.second; ++l)], with
    [todo] iterations left and [oIt] at position [pos]. *)
Fixpoint fill_levels (out : list N) (inner_repeats : nat) (l : N)
    (todo : nat) (pos : nat) : option (list N) :=
  match todo with
  | O => Some out
  | S todo' =>
      out ← fill_run out pos inner_repeats l;
      fill_levels out inner_repeats (l + 1) todo' (pos + inner_repeats)%nat
  end.

(** Lines 203-207: [out.insert(out.end(), out.begin(), out.begin() +
    initial_size)], once for every [r] with [1 <= r < outer_repeats]. *)
Definition replicate_blocks (out : list N) (initial_size outer_repeats : N) : list N :=
  Nat.iter (N.to_nat (outer_repeats - 1))
           (λ out, out ++ take (N.to_nat initial_size) out) out.

(** Lines 184-207: the body of the loop [for (f = ninputs; f > 0; --f)]
    for [finfo = inputs[f - 1]]: the finished column [out] and the new
    [outer_repeats] and [inner_repeats].  [None] is undefined behaviour:
    a write past the end of [out], or the division by a zero cardinality
    in [outer_repeats /= finfo.second]. *)
Definition table_step (finfo : list N * N) (outer_repeats inner_repeats : N)
    : option (list N * N * N) :=
  let initial_size := to_Code (inner_repeats * finfo.2) in
  let out := replicate (N.to_nat initial_size) 0 in
  out ← (if decide (inner_repeats = 1) then Some (iota out)
         else fill_levels out (N.to_nat inner_repeats) 0 (N.to_nat finfo.2) 0);
  if decide (finfo.2 = 0) then None
  else
    let outer_repeats := outer_repeats / finfo.2 in
    Some (replicate_blocks out initial_size outer_repeats, outer_repeats, initial_size).

(** Lines 183-208: the loop, entered with [f]. *)
Fixpoint table_loop (inputs : list (list N * N)) (f : nat)
    (output : list (list N)) (outer_repeats inner_repeats : N)
    : option (list (list N)) :=
  match f with
  | O => Some output
  | S f' =>
      '(out, outer_repeats, inner_repeats) ←
        table_step (inputs !!! f') outer_repeats inner_repeats;
      table_loop inputs f' (<[f' := out]> output) outer_repeats inner_repeats
  end.

Definition combine_to_factor_unused (n : nat) (inputs : list (list N * N))
    (codes : list N) : outcome (list (list N)) :=
  let ninputs := length inputs in
  match sanisizer_create (N.of_nat ninputs) [] with
  | None => Thrown codes
  | Some output =>
      match ninputs with
      | 0%nat => Returned output (fill_n n 0)
      | 1%nat =>
          let finfo := inputs !!! 0%nat in
          match sanisizer_resize finfo.2 0 with
          | None => Thrown codes
          | Some out0 => Returned (<[0%nat := iota out0]> output) (copy_n finfo.1 n)
          end
      | _ =>
          let last := inputs !!! (ninputs - 1)%nat in
          let codes := copy_n last.1 n in
          let ncombos := to_Code last.2 in
          match code_loop inputs (ninputs - 1) ncombos codes with
          | Thrown codes => Thrown codes
          | Undefined => Undefined
          | Returned ncombos codes =>
              match sanisizer_cast_size ncombos with
              | None => Thrown codes
              | Some _ =>
                  match table_loop inputs ninputs output ncombos 1 with
                  | None => Undefined
                  | Some output => Returned output codes
                  end
              end
          end
      end
  end.
End combine_to_factor_unused.

(** ** [create_factor] and [combine_to_factor]

    [Input_] is any type with equality and a hash (a countable type with
    decidable equality), a default constructor ([Inhabited]) and the
    comparison [operator<], the relation [lt]. *)

Section observed.
Context `{Platform}.
Context {A : Type} `{Countable A} `{Inhabited A}.
Context (lt : relation A) `{!RelDecision lt}.

(** *** [create_factor] *)

(** Lines 42-52: one iteration of the first pass, on the
    [std::unordered_map<Input_, Code_>] and the codes written so far.
    [Code_ alt = mapping.size()] converts a [size_t] to [Code_]. *)
Definition label_step (st : gmap A N * list N) (current : A) : gmap A N * list N :=
  let '(mapping, codes) := st in
  match mapping !! current with
  | Some c => (mapping, codes ++ [c])
  | None =>
      let alt := to_Code (N.of_nat (size mapping)) in
      (<[current := alt]> mapping, codes ++ [alt])
  end.

(** [operator<] of [std::pair<Input_, Code_>]. *)
Definition pair_lt (p q : A * N) : Prop :=
  lt p.1 q.1 ∨ (¬ lt q.1 p.1 ∧ p.2 < q.2).

Global Instance pair_lt_dec : RelDecision pair_lt.
Proof. intros p q. unfold pair_lt. apply _. Defined.

(** [std::sort(unique.begin(), unique.end())].  The standard requires
    the comparison to induce a strict weak ordering, which [pair_lt]
    does when [lt] is a strict total order ([StrictOrder] and
    [Trichotomy]).  For other relations the behaviour of line 57 is
    undefined, whereas [merge_sort] returns some permutation: the
    properties of the sorted levels are stated for a strict total
    order. *)
Definition std_sort (unique : list (A * N)) : list (A * N) :=
  merge_sort (λ p q, ¬ pair_lt q p) unique.

(** Lines 61-64: the loop over [u], entered with [u] and the rest of
    [unique]. *)
Fixpoint remap_loop (u : nat) (unique : list (A * N))
    (remapping : list N) (output : list A) : list N * list A :=
  match unique with
  | [] => (remapping, output)
  | (x, c) :: unique' =>
      remap_loop (S u) unique'
        (<[N.to_nat c := to_Code (N.of_nat u)]> remapping) (<[u := x]> output)
  end.

(** Lines 67-69 (and 119-121 of combine_to_factor.hpp):
    [codes[i] = remapping[codes[i]]].  The source does not check the
    index; [!!!] returns 0 past the end of [remapping], where the source
    reads out of bounds.  For an unsigned [Code_] and a strict total
    order [lt] every index is in range: each label is the size of the
    map, reduced modulo [2 ^ Code_bits], at an insertion that made the
    map larger. *)
Definition apply_remapping (remapping codes : list N) : list N :=
  (λ c, remapping !!! N.to_nat c) <$> codes.

(** The whole function.  [map_to_list] stands for the unspecified order
    in which the pairs of the unordered map are copied into [unique];
    the sorted vector does not depend on it
    ([std_sort_order_irrelevant]).  The first pass overwrites every cell
    of [codes], so the content the caller passes is not read. *)
Definition create_factor (n : nat) (input : list A) (codes : list N)
    : outcome (list A) :=
  let '(mapping, codes) := foldl label_step (∅, []) (take n input) in
  let unique := std_sort (map_to_list mapping) in
  let nuniq := N.of_nat (length unique) in
  match sanisizer_create nuniq 0 with
  | None => Thrown codes
  | Some remapping =>
      match sanisizer_create nuniq inhabitant with
      | None => Thrown codes
      | Some output =>
          let '(remapping, output) := remap_loop 0 unique remapping output in
          Returned output (apply_remapping remapping codes)
      end
  end.

(** *** [combine_to_factor] *)

Section general_case.
Variable inputs : list (list A).

(** The comparator [cmp] and the predicate [eq] of lines 68-87, on the
    indices held by two [Combination]s; [x > y] is [y < x]. *)
Fixpoint cmp_from (cols : list (list A)) (left right : nat) : bool :=
  match cols with
  | [] => false
  | curf :: cols' =>
      if decide (lt (curf !!! left) (curf !!! right)) then true
      else if decide (lt (curf !!! right) (curf !!! left)) then false
      else cmp_from cols' left right
  end.
Definition cmp : nat → nat → bool := cmp_from inputs.

Fixpoint eq_from (cols : list (list A)) (left right : nat) : bool :=
  match cols with
  | [] => true
  | curf :: cols' =>
      if decide (curf !!! left ≠ curf !!! right) then false
      else eq_from cols' left right
  end.
Definition eq_ : nat → nat → bool := eq_from inputs.

(** The [std::map<Combination, Code_, cmp>] is the list of its entries
    in iteration order, that is, ascending under [cmp].
    [mapping.find(current)]: the entry that is neither below nor above
    [current], if there is one. *)
Fixpoint map_find (mapping : list (nat * N)) (current : nat) : option (nat * N) :=
  match mapping with
  | [] => None
  | e :: mapping' =>
      if cmp e.1 current then map_find mapping' current
      else if cmp current e.1 then None
      else Some e
  end.

(** [mapping.insert(mIt, std::make_pair(current, alt))]: nothing is
    inserted when an equivalent key is present. *)
Fixpoint map_insert (mapping : list (nat * N)) (current : nat) (alt : N)
    : list (nat * N) :=
  match mapping with
  | [] => [(current, alt)]
  | e :: mapping' =>
      if cmp e.1 current then e :: map_insert mapping' current alt
      else if cmp current e.1 then (current, alt) :: e :: mapping'
      else e :: mapping'
  end.

(** Lines 89-99: the iteration for observation [i]. *)
Definition combine_step (st : list (nat * N) * list N) (i : nat)
    : list (nat * N) * list N :=
  let '(mapping, codes) := st in
  let fresh :=
    let alt := to_Code (N.of_nat (length mapping)) in
    (map_insert mapping i alt, codes ++ [alt]) in
  match map_find mapping i with
  | None => fresh
  | Some mIt => if eq_ mIt.1 i then (mapping, codes ++ [mIt.2]) else fresh
  end.

(** Lines 110-116: the loop over [u]. *)
Fixpoint combine_remap_loop (u : nat) (unique : list (nat * N))
    (remapping : list N) (output : list (list A)) : list N * list (list A) :=
  match unique with
  | [] => (remapping, output)
  | (ix, c) :: unique' =>
      combine_remap_loop (S u) unique'
        (<[N.to_nat c := to_Code (N.of_nat u)]> remapping)
        (zip_with (λ ofac curf, ofac ++ [curf !!! ix]) output inputs)
  end.
End general_case.

Definition combine_to_factor (n : nat) (inputs : list (list A)) (codes : list N)
    : outcome (list (list A)) :=
  let ninputs := length inputs in
  match sanisizer_create (N.of_nat ninputs) [] with
  | None => Thrown codes
  | Some output =>
      match ninputs with
      | 0%nat => Returned output (fill_n n 0)
      | 1%nat =>
          match create_factor n (inputs !!! 0%nat) codes with
          | Returned levels codes => Returned (<[0%nat := levels]> output) codes
          | Thrown codes => Thrown codes
          | Undefined => Undefined
          end
      | _ =>
          let '(unique, codes) := foldl (combine_step inputs) ([], []) (seq 0 n) in
          let nuniq := N.of_nat (length unique) in
          match sanisizer_create nuniq 0 with
          | None => Thrown codes
          | Some remapping =>
              let '(remapping, output) :=
                combine_remap_loop inputs 0 unique remapping output in
              Returned output (apply_remapping remapping codes)
          end
      end
  end.
End observed.

(** ** Notions in which the properties are stated *)

(** The product of the declared cardinalities. *)
Definition product (cards : list N) : N := foldr N.mul 1 cards.

(** Observation [i]: the values at index [i], one per variable. *)
Definition observation {A} `{Inhabited A} (columns : list (list A)) (i : nat) : list A :=
  (λ col, col !!! i) <$> columns.

(** Row [j] of a table given by its columns; defined when every column
    has an entry [j]. *)
Definition table_row {A} (table : list (list A)) (j : nat) : option (list A) :=
  mapM (λ col, col !! j) table.

(** The number of rows of a table: the length of its first column. *)
Definition table_length {A} (table : list (list A)) : nat :=
  from_option length 0%nat (head table).

(** Lexicographic order on tuples: the first variable that differs
    decides. *)
Fixpoint lex_lt {A} (lt : relation A) (r r' : list A) : Prop :=
  match r, r' with
  | x :: r, y :: r' => lt x y ∨ (x = y ∧ lex_lt lt r r')
  | _, _ => False
  end.

(** The mixed-radix code of a tuple, as the spec words it: the value of
    each variable times the product of the cardinalities of all variables
    after it, summed. *)
Fixpoint mixed_radix (cards vals : list N) : N :=
  match cards, vals with
  | _ :: cards', v :: vals' => v * product cards' + mixed_radix cards' vals'
  | _, _ => 0
  end.

(** The tuple with a given mixed-radix code. *)
Fixpoint digits (cards : list N) (j : N) : list N :=
  match cards with
  | [] => []
  | c :: cards' => (j / product cards') mod c :: digits cards' j
  end.

(** The caller's side of [combine_to_factor_unused]: arrays of [n] cells,
    and raw values below the declared cardinality. *)
Definition arrays_of_length {A} (n : nat) (columns : list (list A)) : Prop :=
  Forall (λ col, length col = n) columns.
Definition values_in_range (inputs : list (list N * N)) : Prop :=
  Forall (λ finfo, Forall (λ v, v < finfo.2) finfo.1) inputs.

(** ** The three properties of a returned factor *)

(** Round trip: the row of the table at [codes[i]] is observation [i]. *)
Definition round_trip {A} `{Inhabited A} (n : nat) (columns table : list (list A))
    (codes : list N) : Prop :=
  ∀ i, (i < n)%nat →
       ∃ c, codes !! i = Some c
            ∧ table_row table (N.to_nat c) = Some (observation columns i).

(** Density: every code below the number of rows is the code of some
    observation. *)
Definition dense {A} (n : nat) (table : list (list A)) (codes : list N) : Prop :=
  ∀ j, (j < table_length table)%nat →
       ∃ i, (i < n)%nat ∧ codes !! i = Some (N.of_nat j).

(** Uniqueness and sortedness: rows at different indices differ, and
    ascend lexicographically. *)
Definition unique_and_sorted {A} (lt : relation A) (table : list (list A)) : Prop :=
  ∀ j j', (j < j' < table_length table)%nat →
          ∃ row row', table_row table j = Some row ∧ table_row table j' = Some row'
                      ∧ row ≠ row' ∧ lex_lt lt row row'.

(** ** The full table and the mixed-radix codes *)

(** The codes after the variables from [f] on have been processed. *)
Definition suffix_codes (n : nat) (inputs : list (list N * N)) (f : nat) : list N :=
  (λ i, mixed_radix (drop f inputs.*2) (drop f (observation inputs.*1 i))) <$> seq 0 n.

(** [todo] runs of [inner] equal levels, starting with level [l]. *)
Fixpoint blocks (inner : nat) (l : N) (todo : nat) : list N :=
  match todo with
  | O => []
  | S todo' => replicate inner l ++ blocks inner (l + 1) todo'
  end.

(** Column [g] of the full table: the runs of the levels of variable [g],
    once for every combination of the variables before it. *)
Definition column (cards : list N) (g : nat) : list N :=
  concat (replicate (N.to_nat (product (take g cards)))
            (blocks (N.to_nat (product (drop (S g) cards))) 0 (N.to_nat (cards !!! g)))).

Definition cartesian_table (cards : list N) : list (list N) :=
  column cards <$> seq 0 (length cards).

(** ** The loops of [combine_to_factor_unused], state by state *)

(** The states in which the code loop of lines 168-178 stands at its
    test [f > 0]: on entry, and after every iteration that did not
    throw. *)
Inductive code_loop_reaches `{Platform} (n : nat) (inputs : list (list N * N))
    : nat → N → list N → Prop :=
| code_loop_entry :
    let last := inputs !!! (length inputs - 1)%nat in
    code_loop_reaches n inputs (length inputs - 1) (to_Code last.2) (copy_n last.1 n)
| code_loop_iteration f ncombos codes next_ncombos codes' :
    code_loop_reaches n inputs (S f) ncombos codes →
    code_step (inputs !!! f) ncombos codes = Some (next_ncombos, codes') →
    code_loop_reaches n inputs f next_ncombos codes'.

(** The states in which the table loop of lines 183-208 stands at its
    test [f > 0], entered with [outer_repeats = ncombos]. *)
Inductive table_loop_reaches `{Platform} (inputs : list (list N * N)) (ncombos : N)
    : nat → N → N → Prop :=
| table_loop_entry :
    table_loop_reaches inputs ncombos (length inputs) ncombos 1
| table_loop_iteration f outer_repeats inner_repeats out outer_repeats' inner_repeats' :
    table_loop_reaches inputs ncombos (S f) outer_repeats inner_repeats →
    table_step (inputs !!! f) outer_repeats inner_repeats
    = Some (out, outer_repeats', inner_repeats') →
    table_loop_reaches inputs ncombos f outer_repeats' inner_repeats'.

(** The properties of the unchecked arithmetic of
    [combine_to_factor_unused], over the states its loops reach.

    In the code loop every code is below the running base, and in the
    iteration that follows the exact value of [codes[i] + ncombos * ff[i]]
    stays below the next base, which is a [Code_] value: neither
    [product_unsafe] nor the addition wraps. *)
Definition codes_below_base `{Platform} (n : nat) (inputs : list (list N * N)) : Prop :=
  ∀ f ncombos codes,
    code_loop_reaches n inputs f ncombos codes →
    (∀ c, c ∈ codes → c < ncombos)
    ∧ ∀ f' next_ncombos codes',
        f = S f' →
        code_step (inputs !!! f') ncombos codes = Some (next_ncombos, codes') →
        next_ncombos ≤ Code_max
        ∧ ∀ i c, codes !! i = Some c →
                 c + ncombos * ((inputs !!! f').1 !!! i) < next_ncombos.

(** In the table loop, [inner_repeats * finfo.second] (line 188) does not
    exceed the number of combinations that the code loop ended with. *)
Definition blocks_within_total `{Platform} (n : nat) (inputs : list (list N * N)) : Prop :=
  ∀ ncombos codes,
    code_loop_reaches n inputs 0 ncombos codes →
    ∀ f outer_repeats inner_repeats,
      table_loop_reaches inputs ncombos (S f) outer_repeats inner_repeats →
      inner_repeats * (inputs !!! f).2 ≤ ncombos.


(** ** The remapping table and the invariants of the observed variants *)

(** The remapping table as both [remap_loop] and [combine_remap_loop]
    write it: [remapping[label] = u] for the [u]-th label. *)
Fixpoint fill_remapping `{Platform} (u : nat) (labels : list N) (remapping : list N)
    : list N :=
  match labels with
  | [] => remapping
  | c :: labels' =>
      fill_remapping (S u) labels' (<[N.to_nat c := to_Code (N.of_nat u)]> remapping)
  end.

(** The remapping table of a call, from the labels in sorted order. *)
Definition remapping_table `{Platform} (labels : list N) : list N :=
  fill_remapping 0 labels (replicate (length labels) 0).

Section create_factor_notions.
Context `{Platform}.
Context {A : Type} `{Countable A}.
Context (lt : relation A) `{!RelDecision lt}.

(** The pairs of the map in the order [std::sort] leaves them. *)
Definition sorted_unique (mapping : gmap A N) : list (A * N) :=
  std_sort lt (map_to_list mapping).

(** The first pass: what holds of the map and the provisional codes
    after the values [xs] have been seen. *)
Record first_pass_invariant (xs : list A) (mapping : gmap A N) (cs : list N) : Prop := {
  fp_length : length cs = length xs;
  fp_seen : ∀ i x, xs !! i = Some x →
              ∃ c, mapping !! x = Some c ∧ cs !! i = Some c;
  fp_entry : ∀ x c, mapping !! x = Some c →
              ∃ i, xs !! i = Some x ∧ cs !! i = Some c;
  fp_label : ∀ x c, mapping !! x = Some c → (N.to_nat c < size mapping)%nat;
  fp_size : (size mapping ≤ length xs)%nat;
  fp_distinct : N.of_nat (size mapping) ≤ Code_max + 1 →
                ∀ x y c, mapping !! x = Some c → mapping !! y = Some c → x = y
}.

End create_factor_notions.

Section combine_to_factor_notions.
Context `{Platform}.
Context {A : Type} `{Inhabited A}.
Context (lt : relation A) (inputs : list (list A)).

(** The map is well formed when its keys ascend strictly. *)
Definition map_sorted (m : list (nat * N)) : Prop :=
  StronglySorted
    (λ e e', lex_lt lt (observation inputs e.1) (observation inputs e'.1)) m.

(** The first loop of the general case: what holds of the map and the
    provisional codes after the observations below [t]. *)
Record combine_invariant (t : nat) (m : list (nat * N)) (cs : list N) : Prop := {
  ci_sorted : map_sorted m;
  ci_length : length cs = t;
  ci_seen : ∀ i, (i < t)%nat →
              ∃ ix c, (ix, c) ∈ m
                      ∧ observation inputs ix = observation inputs i
                      ∧ cs !! i = Some c;
  ci_entry : ∀ ix c, (ix, c) ∈ m → cs !! ix = Some c;
  ci_label : ∀ ix c, (ix, c) ∈ m → (N.to_nat c < length m)%nat;
  ci_size : (length m ≤ t)%nat;
  ci_distinct : N.of_nat (length m) ≤ Code_max + 1 → NoDup m.*2
}.

(** Column [f] of the table: the values of variable [f] at the indices
    held by the map entries, in iteration order. *)
Definition combination_column (unique : list (nat * N)) (curf : list A) : list A :=
  (λ e, curf !!! e.1) <$> unique.

(** The table of the general case: one such column per variable. *)
Definition combination_table (unique : list (nat * N)) : list (list A) :=
  combination_column unique <$> inputs.

End combine_to_factor_notions.

(** ** Concrete inputs *)

(** Scenario A of the spec with a, b, c as 1, 2, 3; scenario B. *)
Definition scenario_A_inputs : list (list N) := [[2; 1; 2; 3]; [1; 1; 2; 1]].
Definition scenario_B_input : list N := [10; 30; 20; 10].

(** 257 distinct values, one more than [uint8_t] has codes. *)
Definition distinct_257 : list N := N.of_nat <$> seq 0 257.

(** One variable of 300 levels, observed once at its last level. *)
Definition wide_variable : list (list N * N) := [([299], 300)].

(** Scenario C of the spec. *)
Definition scenario_C_inputs : list (list N * N) := [([0; 1; 0], 2); ([2; 0; 1], 3)].

(** No observation, a first variable without levels, a second variable of
    200 levels. *)
Definition empty_first_variable : list (list N * N) := [([], 0); ([], 200)].

(** Two variables of 16 levels each: 256 combinations. *)
Definition sixteen_by_sixteen : list (list N * N) := [([1; 1], 16); ([2; 3], 16)].

(** No observation, one level for the first variable, 300 for the last. *)
Definition wide_last_variable : list (list N * N) := [([], 1); ([], 300)].


(** No observation, a first variable without levels, a second variable of
    3 levels. *)
Definition no_levels_then_three : list (list N * N) := [([], 0); ([], 3)].

(** [operator<] of the integers, as the order of [Input_]. *)
Global Instance N_lt_trichotomy : Trichotomy N.lt.
Proof. intros x y. apply N.lt_trichotomy. Qed.

(** * Properties *)

Example scenario_C :
  @combine_to_factor_unused uint8_codes 3 [([0; 1; 0], 2); ([2; 0; 1], 3)] [0; 0; 0]
  = Returned [[0; 0; 0; 1; 1; 1]; [0; 1; 2; 0; 1; 2]] [2; 3; 1].
Proof. vm_compute. reflexivity. Qed.

Example scenario_B :
  @create_factor uint8_codes N _ _ _ N.lt _ 4 [10; 30; 20; 10] [0; 0; 0; 0]
  = Returned [10; 20; 30] [0; 2; 1; 0].
Proof. vm_compute. reflexivity. Qed.

Example scenario_A :
  @combine_to_factor uint8_codes N _ _ _ N.lt _ 4 [[2; 1; 2; 3]; [1; 1; 2; 1]] [0; 0; 0; 0]
  = Returned [[1; 2; 2; 3]; [1; 1; 2; 1]] [1; 0; 2; 3].
Proof. vm_compute. reflexivity. Qed.

(** ** Arithmetic of the code type and of mixed-radix numbers *)

Section arithmetic.
Context `{Platform}.

Lemma to_Code_small x : x ≤ Code_max → to_Code x = x.
Proof.
  unfold Code_max, to_Code. intros Hx.
  assert (0 < 2 ^ Code_bits) by (apply N.neq_0_lt_0, N.pow_nonzero; lia).
  apply N.mod_small. lia.
Qed.

Lemma to_Code_le x : to_Code x ≤ x.
Proof. unfold to_Code. apply N.Div0.mod_le. Qed.

Lemma to_Code_bound x : to_Code x ≤ Code_max.
Proof.
  unfold Code_max, to_Code.
  assert (0 < 2 ^ Code_bits) by (apply N.neq_0_lt_0, N.pow_nonzero; lia).
  pose proof (N.mod_upper_bound x (2 ^ Code_bits)). lia.
Qed.

Lemma sanisizer_product_Some a b :
  a * b ≤ Code_max → sanisizer_product a b = Some (a * b).
Proof. intros. unfold sanisizer_product. by rewrite decide_True. Qed.

Lemma sanisizer_product_inv a b p :
  sanisizer_product a b = Some p → p = a * b ∧ a * b ≤ Code_max.
Proof. unfold sanisizer_product. case_decide; naive_solver. Qed.

Lemma sanisizer_create_Some {T} x (init : T) :
  x ≤ size_max → sanisizer_create x init = Some (replicate (N.to_nat x) init).
Proof.
  intros. unfold sanisizer_create, sanisizer_cast_size. by rewrite decide_True.
Qed.

Lemma sanisizer_create_inv {T} x (init : T) v :
  sanisizer_create x init = Some v → v = replicate (N.to_nat x) init.
Proof.
  unfold sanisizer_create, sanisizer_cast_size. case_decide; naive_solver.
Qed.
End arithmetic.

Lemma product_app cards1 cards2 :
  product (cards1 ++ cards2) = product cards1 * product cards2.
Proof.
  induction cards1 as [|c cards1 IH]; simpl; [lia|]. rewrite IH. lia.
Qed.

Lemma product_pos cards : Forall (λ c, 0 < c) cards → 0 < product cards.
Proof. induction 1; simpl; lia. Qed.

Lemma product_zero cards : 0 ∈ cards → product cards = 0.
Proof.
  induction cards as [|c cards IH]; [by intros ?%elem_of_nil|].
  intros [<-|Hin]%elem_of_cons; simpl; [lia|]. rewrite IH; [lia|done].
Qed.

Lemma product_drop_le cards g :
  Forall (λ c, 0 < c) cards → product (drop g cards) ≤ product cards.
Proof.
  intros Hpos. rewrite <-(take_drop g cards) at 2. rewrite product_app.
  assert (0 < product (take g cards)) by by apply product_pos, Forall_take.
  nia.
Qed.

Lemma product_drop_S cards g c :
  cards !! g = Some c → product (drop g cards) = c * product (drop (S g) cards).
Proof. intros Hg. by rewrite (drop_S _ _ _ Hg). Qed.

Lemma product_take_S cards g c :
  cards !! g = Some c → product (take (S g) cards) = product (take g cards) * c.
Proof.
  intros Hg. rewrite (take_S_r _ _ _ Hg), product_app. simpl. lia.
Qed.

Lemma mixed_radix_lt cards vals :
  Forall2 (λ v c, v < c) vals cards → mixed_radix cards vals < product cards.
Proof.
  induction 1 as [|v c vals cards Hv _ IH]; simpl; [lia|]. nia.
Qed.

(** The digits of a number do not see multiples of the whole base. *)
Lemma digits_add_multiple cards a m :
  Forall (λ c, 0 < c) cards →
  digits cards (a * product cards + m) = digits cards m.
Proof.
  intros Hpos. revert a. induction Hpos as [|c cards Hc Hpos IH]; intros a; [done|].
  simpl. f_equal.
  - assert (product cards ≠ 0) by (apply product_pos in Hpos; lia).
    replace (a * (c * product cards) + m) with (m + (a * c) * product cards) by lia.
    rewrite N.div_add by done. by rewrite N.Div0.mod_add.
  - replace (a * (c * product cards)) with ((a * c) * product cards) by lia.
    apply IH.
Qed.

Lemma digits_mixed_radix cards vals :
  Forall2 (λ v c, v < c) vals cards → digits cards (mixed_radix cards vals) = vals.
Proof.
  induction 1 as [|v c vals cards Hv Hrest IH]; [done|]. simpl.
  assert (Forall (λ c, 0 < c) cards) as Hpos.
  { clear -Hrest. induction Hrest; constructor; [lia|done]. }
  pose proof (mixed_radix_lt _ _ Hrest).
  f_equal.
  - rewrite N.add_comm, N.div_add by lia.
    rewrite N.div_small, N.add_0_l by done. by apply N.mod_small.
  - by rewrite digits_add_multiple.
Qed.

Lemma mixed_radix_digits cards j :
  Forall (λ c, 0 < c) cards → mixed_radix cards (digits cards j) = j mod product cards.
Proof.
  induction 1 as [|c cards Hc Hpos IH]; simpl.
  - by rewrite N.mod_1_r.
  - rewrite IH. rewrite (N.mul_comm c), N.Div0.mod_mul_r. lia.
Qed.

Lemma digits_in_range cards j :
  Forall (λ c, 0 < c) cards → Forall2 (λ v c, v < c) (digits cards j) cards.
Proof.
  induction 1 as [|c cards Hc Hpos IH]; simpl; constructor; [|done].
  apply N.mod_upper_bound. lia.
Qed.

Lemma digits_length cards j : length (digits cards j) = length cards.
Proof. induction cards; simpl; auto. Qed.

Lemma digits_lookup cards j g c :
  cards !! g = Some c →
  digits cards j !! g = Some ((j / product (drop (S g) cards)) mod c).
Proof.
  revert g. induction cards as [|c' cards IH]; intros [|g] Hg; simplify_eq/=; auto.
Qed.

(** Smaller numbers have lexicographically smaller digits. *)
Lemma digits_lex_lt cards j j' :
  Forall (λ c, 0 < c) cards →
  j < j' → j' < product cards → lex_lt N.lt (digits cards j) (digits cards j').
Proof.
  intros Hpos. revert j j'.
  induction Hpos as [|c cards Hc Hpos IH]; intros j j' Hlt Hj'; simpl in *; [lia|].
  assert (0 < product cards) as HP by by apply product_pos.
  assert (j / product cards < c) by (apply N.Div0.div_lt_upper_bound; lia).
  assert (j' / product cards < c) by (apply N.Div0.div_lt_upper_bound; lia).
  rewrite !N.mod_small by done.
  destruct (decide (j / product cards = j' / product cards)) as [Heq|Hne].
  - right. split; [done|].
    rewrite (N.div_mod j (product cards)), (N.div_mod j' (product cards)) by lia.
    rewrite !(N.mul_comm (product cards)), !digits_add_multiple by done.
    apply IH; [|apply N.mod_upper_bound; lia].
    pose proof (N.div_mod j (product cards)). pose proof (N.div_mod j' (product cards)).
    nia.
  - left. assert (j / product cards ≤ j' / product cards)
      by (apply N.Div0.div_le_mono; lia). lia.
Qed.

Section unused_codes.
Context `{Platform}.
Implicit Types (inputs : list (list N * N)) (n f g i : nat).

Lemma observation_in_range n inputs i :
  arrays_of_length n inputs.*1 → values_in_range inputs → (i < n)%nat →
  Forall2 (λ v c, v < c) (observation inputs.*1 i) inputs.*2.
Proof.
  unfold arrays_of_length, values_in_range, observation. intros Hlen Hrange Hi.
  induction inputs as [|[ff c] inputs IH]; [constructor|].
  csimpl in *. apply Forall_cons_1 in Hlen as [Hlen1 Hlen].
  apply Forall_cons_1 in Hrange as [Hr1 Hrange].
  constructor; [|by apply IH].
  simpl in *. apply (Forall_lookup_total_1 _ _ _ Hr1). lia.
Qed.

Lemma observation_lookup inputs i g finfo :
  inputs !! g = Some finfo → observation inputs.*1 i !! g = Some (finfo.1 !!! i).
Proof.
  intros Hg. unfold observation. by rewrite !list_lookup_fmap, Hg.
Qed.

Lemma suffix_codes_lookup n inputs f i :
  (i < n)%nat →
  suffix_codes n inputs f !! i
  = Some (mixed_radix (drop f inputs.*2) (drop f (observation inputs.*1 i))).
Proof.
  intros Hi. unfold suffix_codes. by rewrite list_lookup_fmap, lookup_seq_lt.
Qed.

Lemma suffix_codes_length n inputs f : length (suffix_codes n inputs f) = n.
Proof. unfold suffix_codes. by rewrite length_fmap, length_seq. Qed.

(** One iteration of the code loop on exact values: nothing wraps. *)
Lemma code_step_spec n inputs f finfo :
  arrays_of_length n inputs.*1 → values_in_range inputs →
  inputs !! f = Some finfo →
  product (drop f inputs.*2) ≤ Code_max →
  product (drop (S f) inputs.*2) ≤ Code_max →
  code_step finfo (product (drop (S f) inputs.*2)) (suffix_codes n inputs (S f))
  = Some (product (drop f inputs.*2), suffix_codes n inputs f).
Proof.
  intros Hlen Hrange Hf Hfit HfitS.
  assert (inputs.*2 !! f = Some finfo.2) as Hc by by rewrite list_lookup_fmap, Hf.
  pose proof (product_drop_S _ _ _ Hc) as HP.
  unfold code_step. rewrite sanisizer_product_Some by lia. simpl.
  f_equal. f_equal; [lia|].
  apply list_eq. intros i. rewrite list_lookup_imap.
  destruct (decide (i < n)%nat) as [Hi|Hi].
  2:{ rewrite !(lookup_ge_None_2 (suffix_codes _ _ _)); [done|..];
      rewrite suffix_codes_length; lia. }
  rewrite !suffix_codes_lookup by done. simpl. f_equal.
  pose proof (observation_in_range _ _ _ Hlen Hrange Hi) as Hobs.
  pose proof (observation_lookup _ i _ _ Hf) as Hv.
  rewrite (drop_S _ _ _ Hc), (drop_S _ _ _ Hv). simpl.
  pose proof (mixed_radix_lt _ _ (Forall2_drop _ _ _ (S f) Hobs)) as Hm.
  assert (finfo.1 !!! i < finfo.2) as Hlt.
  { eapply Forall2_lookup_lr in Hobs; [|done..]. done. }
  set (P := product (drop (S f) inputs.*2)) in *.
  set (m := mixed_radix _ _) in *. set (v := finfo.1 !!! i) in *.
  assert (v * P + m < finfo.2 * P) by nia.
  unfold sanisizer_product_unsafe.
  rewrite (to_Code_small P), (to_Code_small v) by nia.
  rewrite (to_Code_small (P * v)) by nia. rewrite to_Code_small by nia. lia.
Qed.

Lemma code_loop_spec n inputs f :
  arrays_of_length n inputs.*1 → values_in_range inputs →
  (f < length inputs)%nat →
  (∀ g, (g ≤ f)%nat → product (drop g inputs.*2) ≤ Code_max) →
  code_loop inputs f (product (drop f inputs.*2)) (suffix_codes n inputs f)
  = Returned (product inputs.*2) (suffix_codes n inputs 0).
Proof.
  intros Hlen Hrange. induction f as [|f IH]; intros Hf Hfit; [done|].
  destruct (lookup_lt_is_Some_2 inputs f) as [finfo Hfinfo]; [lia|].
  simpl. rewrite (list_lookup_total_correct _ _ _ Hfinfo).
  erewrite code_step_spec by eauto. apply IH; [lia|]. intros g ?. apply Hfit. lia.
Qed.
End unused_codes.

(** ** The table of [combine_to_factor_unused] *)

Lemma blocks_length inner l todo : length (blocks inner l todo) = (todo * inner)%nat.
Proof.
  revert l. induction todo as [|todo IH]; intros l; simpl; [done|].
  rewrite length_app, length_replicate, IH. lia.
Qed.

Lemma blocks_lookup inner l todo j :
  (j < todo * inner)%nat →
  blocks inner l todo !! j = Some (l + N.of_nat (j / inner)).
Proof.
  revert l j. induction todo as [|todo IH]; intros l j Hj; simpl in *; [lia|].
  assert (0 < inner)%nat by lia.
  destruct (decide (j < inner)%nat) as [Hlt|Hge].
  - rewrite lookup_app_l by (rewrite length_replicate; lia).
    rewrite lookup_replicate_2 by done. rewrite Nat.div_small by done. f_equal. lia.
  - rewrite lookup_app_r by (rewrite length_replicate; lia).
    rewrite length_replicate, IH by lia. f_equal.
    replace j with ((j - inner) + 1 * inner)%nat at 2 by lia.
    rewrite Nat.div_add by lia. lia.
Qed.

Lemma cycle_lookup {A} (base : list A) outer j :
  (j < outer * length base)%nat →
  concat (replicate outer base) !! j = base !! (j mod length base)%nat.
Proof.
  revert j. induction outer as [|outer IH]; intros j Hj; simpl in *; [lia|].
  destruct (decide (j < length base)%nat) as [Hlt|Hge].
  - rewrite lookup_app_l by done. by rewrite Nat.mod_small.
  - rewrite lookup_app_r by lia. rewrite IH by lia. f_equal.
    replace j with ((j - length base) + 1 * length base)%nat at 2 by lia.
    rewrite Nat.Div0.mod_add. done.
Qed.

Lemma cycle_length {A} (base : list A) outer :
  length (concat (replicate outer base)) = (outer * length base)%nat.
Proof.
  induction outer as [|outer IH]; simpl; [done|]. rewrite length_app, IH. lia.
Qed.


Section unused_table.
Context `{Platform}.
Implicit Types (inputs : list (list N * N)) (cards : list N) (n f g i j : nat).

Lemma fill_levels_spec prefix rest inner l todo :
  length rest = (todo * inner)%nat →
  fill_levels (prefix ++ rest) inner l todo (length prefix)
  = Some (prefix ++ blocks inner l todo).
Proof.
  revert prefix rest l. induction todo as [|todo IH]; intros prefix rest l Hrest.
  - destruct rest; simplify_eq/=. done.
  - simpl in *. unfold fill_run.
    rewrite decide_True by (rewrite length_app; lia). simpl.
    rewrite take_app_length.
    replace (drop (length prefix + inner) (prefix ++ rest)) with (drop inner rest)
      by (rewrite drop_app_ge by lia; f_equal; lia).
    replace (length prefix + inner)%nat
      with (length (prefix ++ replicate inner l))
      by (rewrite length_app, length_replicate; lia).
    rewrite (assoc (++)). rewrite IH by (rewrite length_drop; lia).
    by rewrite <-(assoc (++)).
Qed.

Lemma iota_spec c :
  N.of_nat c ≤ Code_max + 1 → iota (replicate c 0) = blocks 1 0 c.
Proof.
  intros Hc. apply list_eq. intros j. unfold iota. rewrite list_lookup_imap.
  destruct (decide (j < c)%nat) as [Hj|Hj].
  - rewrite lookup_replicate_2, blocks_lookup by lia. cbn [fmap option_fmap option_map].
    rewrite Nat.div_1_r, to_Code_small by lia. done.
  - rewrite (lookup_ge_None_2 (replicate _ _)) by (rewrite length_replicate; lia).
    rewrite lookup_ge_None_2; [done|]. rewrite blocks_length. lia.
Qed.

Lemma replicate_blocks_spec out initial_size outer_repeats :
  length out = N.to_nat initial_size → 1 ≤ outer_repeats →
  replicate_blocks out initial_size outer_repeats
  = concat (replicate (N.to_nat outer_repeats) out).
Proof.
  intros Hlen Houter. unfold replicate_blocks.
  replace (N.to_nat outer_repeats) with (S (N.to_nat (outer_repeats - 1))) by lia.
  induction (N.to_nat (outer_repeats - 1)) as [|r IH]; simpl.
  - by rewrite app_nil_r.
  - rewrite IH. simpl. rewrite take_app_le, firstn_all2 by lia.
    rewrite <-(assoc (++)). f_equal.
    clear. induction r as [|r IH]; simpl; [by rewrite app_nil_r|].
    rewrite <-(assoc (++)). by rewrite IH.
Qed.

(** One iteration of the table loop when no cardinality is zero and the
    products fit: it builds [column cards f]. *)
Lemma table_step_spec inputs f finfo :
  Forall (λ c, 0 < c) inputs.*2 →
  inputs !! f = Some finfo →
  product (drop f inputs.*2) ≤ Code_max →
  table_step finfo (product (take (S f) inputs.*2)) (product (drop (S f) inputs.*2))
  = Some (column inputs.*2 f, product (take f inputs.*2), product (drop f inputs.*2)).
Proof.
  intros Hpos Hf Hfit.
  assert (inputs.*2 !! f = Some finfo.2) as Hc by by rewrite list_lookup_fmap, Hf.
  pose proof (product_drop_S _ _ _ Hc) as HP.
  pose proof (product_take_S _ _ _ Hc) as HT.
  assert (0 < finfo.2) as Hcpos by by eapply (Forall_lookup_1 _ _ _ _ Hpos).
  assert (0 < product (drop (S f) inputs.*2)) as Hinner
    by by apply product_pos, Forall_drop.
  assert (0 < product (take f inputs.*2)) as Houter
    by by apply product_pos, Forall_take.
  set (inner := product (drop (S f) inputs.*2)) in *.
  unfold table_step. rewrite to_Code_small by lia.
  assert ((if decide (inner = 1) then Some (iota (replicate (N.to_nat (inner * finfo.2)) 0))
           else fill_levels (replicate (N.to_nat (inner * finfo.2)) 0)
                  (N.to_nat inner) 0 (N.to_nat finfo.2) 0)
          = Some (blocks (N.to_nat inner) 0 (N.to_nat finfo.2))) as ->.
  { case_decide as Hone.
    - rewrite Hone, N.mul_1_l. rewrite iota_spec by lia. done.
    - apply (fill_levels_spec [] _ (N.to_nat inner) 0 (N.to_nat finfo.2)).
      rewrite length_replicate. lia. }
  simpl. rewrite decide_False by lia. rewrite HT, N.div_mul by lia.
  rewrite replicate_blocks_spec by (rewrite ?blocks_length; lia).
  f_equal. f_equal; [|lia]. f_equal.
  unfold column. by rewrite (list_lookup_total_correct _ _ _ Hc).
Qed.

Lemma table_loop_spec inputs f output :
  Forall (λ c, 0 < c) inputs.*2 →
  (f ≤ length inputs)%nat → length output = length inputs →
  (∀ g, (g < f)%nat → product (drop g inputs.*2) ≤ Code_max) →
  table_loop inputs f output (product (take f inputs.*2)) (product (drop f inputs.*2))
  = Some ((column inputs.*2 <$> seq 0 f) ++ drop f output).
Proof.
  intros Hpos. revert output. induction f as [|f IH]; intros output Hf Hout Hfit.
  - by rewrite drop_0.
  - destruct (lookup_lt_is_Some_2 inputs f) as [finfo Hfinfo]; [lia|].
    rewrite seq_S, fmap_app, <-(assoc (++)).
    cbn [table_loop]. rewrite (list_lookup_total_correct _ _ _ Hfinfo).
    rewrite (table_step_spec _ _ _ Hpos Hfinfo) by (apply Hfit; lia).
    cbn [mbind option_bind].
    rewrite IH; [|lia|by rewrite length_insert|intros; apply Hfit; lia].
    f_equal. f_equal. simpl.
    rewrite drop_insert_ge by lia. rewrite Nat.sub_diag.
    destruct (lookup_lt_is_Some_2 output f) as [o Ho]; [lia|].
    rewrite (drop_S _ _ _ Ho). done.
Qed.

Lemma column_length cards g c :
  cards !! g = Some c → length (column cards g) = N.to_nat (product cards).
Proof.
  intros Hc. unfold column. rewrite cycle_length, blocks_length.
  rewrite (list_lookup_total_correct _ _ _ Hc).
  assert (product cards = product (take g cards) * (c * product (drop (S g) cards))) as ->.
  { rewrite <-(take_drop g cards) at 1. by rewrite product_app, (product_drop_S _ _ _ Hc). }
  lia.
Qed.

Lemma column_lookup cards g c j :
  cards !! g = Some c → (j < N.to_nat (product cards))%nat →
  column cards g !! j = Some ((N.of_nat j / product (drop (S g) cards)) mod c).
Proof.
  intros Hc Hj. unfold column. rewrite (list_lookup_total_correct _ _ _ Hc).
  assert (product cards = product (take g cards) * (c * product (drop (S g) cards))) as HP.
  { rewrite <-(take_drop g cards) at 1. by rewrite product_app, (product_drop_S _ _ _ Hc). }
  set (inner := product (drop (S g) cards)) in *.
  assert (0 < inner) by nia. assert (0 < c) by nia.
  rewrite cycle_lookup by (rewrite blocks_length; lia).
  rewrite blocks_length, blocks_lookup; last first.
  { apply Nat.mod_upper_bound. lia. }
  f_equal. rewrite N.add_0_l.
  rewrite Nat2N.inj_div, Nat2N.inj_mod, Nat2N.inj_mul, !N2Nat.id.
  rewrite (N.mul_comm c), N.Div0.mod_mul_r.
  rewrite N.mul_comm, N.div_add by lia.
  rewrite (N.div_small (_ mod inner)) by (apply N.mod_upper_bound; lia). lia.
Qed.
End unused_table.

Lemma cartesian_table_row cards j :
  (j < N.to_nat (product cards))%nat →
  table_row (cartesian_table cards) j = Some (digits cards (N.of_nat j)).
Proof.
  intros Hj. unfold table_row, cartesian_table. apply mapM_Some.
  apply Forall2_same_length_lookup. split.
  { by rewrite length_fmap, length_seq, digits_length. }
  intros g col d Hcol Hd.
  rewrite list_lookup_fmap in Hcol.
  destruct (seq 0 (length cards) !! g) as [g'|] eqn:Hg; simplify_eq/=.
  apply lookup_seq in Hg as [-> Hg]. simpl.
  destruct (lookup_lt_is_Some_2 cards g) as [c Hc]; [done|].
  rewrite (column_lookup _ _ _ _ Hc) by done.
  rewrite (digits_lookup _ _ _ _ Hc) in Hd. done.
Qed.

Lemma cartesian_table_row_inv cards j row :
  (0 < length cards)%nat →
  table_row (cartesian_table cards) j = Some row → (j < N.to_nat (product cards))%nat.
Proof.
  intros Hk Hrow. unfold table_row, cartesian_table in Hrow.
  apply mapM_Some in Hrow.
  destruct cards as [|c cards]; simpl in *; [lia|].
  apply Forall2_cons_inv_l in Hrow as (d & row' & Hd & _ & _).
  apply lookup_lt_Some in Hd. by rewrite (column_length _ _ c) in Hd.
Qed.

Section unused_whole.
Context `{Platform}.
Implicit Types (inputs : list (list N * N)) (cards : list N) (n f g i j : nat).

Lemma values_in_range_pos n inputs :
  arrays_of_length n inputs.*1 → values_in_range inputs → (0 < n)%nat →
  Forall (λ c, 0 < c) inputs.*2.
Proof.
  intros Hlen Hrange Hn.
  pose proof (observation_in_range _ _ 0%nat Hlen Hrange Hn) as Hobs.
  induction Hobs; constructor; [lia|done].
Qed.

Lemma copy_n_last n inputs f finfo :
  arrays_of_length n inputs.*1 → values_in_range inputs →
  inputs !! f = Some finfo → length inputs = S f →
  finfo.2 ≤ Code_max →
  copy_n finfo.1 n = suffix_codes n inputs f.
Proof.
  intros Hlen Hrange Hf Hk Hfit. apply list_eq. intros i.
  assert (inputs.*2 !! f = Some finfo.2) as Hc by by rewrite list_lookup_fmap, Hf.
  assert (length finfo.1 = n) as Hff.
  { eapply (Forall_lookup_1 _ _ f _ Hlen). by rewrite list_lookup_fmap, Hf. }
  unfold copy_n. rewrite list_lookup_fmap.
  destruct (decide (i < n)%nat) as [Hi|Hi].
  2:{ rewrite (lookup_ge_None_2 (suffix_codes _ _ _)) by (rewrite suffix_codes_length; lia).
      rewrite lookup_ge_None_2; [done|]. rewrite length_take. lia. }
  rewrite suffix_codes_lookup by done.
  rewrite (drop_S _ _ _ Hc), (drop_S _ _ _ (observation_lookup _ i _ _ Hf)).
  rewrite (drop_ge _ (S f)) by (rewrite length_fmap; lia). simpl.
  rewrite lookup_take_lt by done.
  rewrite (list_lookup_lookup_total_lt finfo.1 i) by lia. simpl. f_equal.
  pose proof (observation_in_range _ _ _ Hlen Hrange Hi) as Hobs.
  eapply Forall2_lookup_lr in Hobs; [|by apply observation_lookup|done].
  rewrite to_Code_small by lia. lia.
Qed.

Lemma table_loop_Some_pos inputs f output outer inner table g finfo :
  table_loop inputs f output outer inner = Some table →
  (g < f)%nat → inputs !! g = Some finfo → 0 < finfo.2.
Proof.
  revert output outer inner. induction f as [|f IH]; intros output outer inner Ht Hg Hfinfo; [lia|].
  cbn [table_loop] in Ht.
  destruct (table_step (inputs !!! f) outer inner) as [[[out outer'] inner']|] eqn:Hstep;
    simplify_eq/=.
  destruct (decide (g = f)) as [->|Hne].
  - rewrite (list_lookup_total_correct _ _ _ Hfinfo) in Hstep.
    unfold table_step in Hstep.
    destruct (if decide (inner = 1) then _ else _); simplify_eq/=.
    case_decide; simplify_eq/=. lia.
  - eapply IH; [done|lia|done].
Qed.

(** The base [ncombos] does not depend on the raw values. *)
Lemma code_loop_returns inputs f codes :
  (f < length inputs)%nat →
  (∀ g, (g ≤ f)%nat → product (drop g inputs.*2) ≤ Code_max) →
  ∃ codes', code_loop inputs f (product (drop f inputs.*2)) codes
            = Returned (product inputs.*2) codes'.
Proof.
  revert codes. induction f as [|f IH]; intros codes Hf Hfit; [by eexists|].
  destruct (lookup_lt_is_Some_2 inputs f) as [finfo Hfinfo]; [lia|].
  assert (inputs.*2 !! f = Some finfo.2) as Hc by by rewrite list_lookup_fmap, Hfinfo.
  pose proof (product_drop_S _ _ _ Hc) as HP. pose proof (Hfit f) as Hfitf.
  cbn [code_loop]. rewrite (list_lookup_total_correct _ _ _ Hfinfo).
  unfold code_step. rewrite sanisizer_product_Some by lia. cbn [mbind option_bind].
  replace (product (drop (S f) inputs.*2) * finfo.2) with (product (drop f inputs.*2)) by lia.
  apply IH; [lia|]. intros g ?. apply Hfit. lia.
Qed.

(** The general case when no cardinality is zero and the number of
    combinations fits [Code_]: the code loop ends with the number of
    combinations, and the call returns the full table unless that
    number does not fit the size type. *)
Lemma combine_to_factor_unused_general n inputs codes :
  (2 ≤ length inputs)%nat →
  Forall (λ c, 0 < c) inputs.*2 →
  product inputs.*2 ≤ Code_max →
  N.of_nat (length inputs) ≤ size_max →
  ∃ codes',
    combine_to_factor_unused n inputs codes
    = (if decide (product inputs.*2 ≤ size_max)
       then Returned (cartesian_table inputs.*2) codes' else Thrown codes')
    ∧ (arrays_of_length n inputs.*1 → values_in_range inputs →
       codes' = suffix_codes n inputs 0).
Proof.
  intros Hk Hpos Hfit Hksize.
  assert (∀ g, product (drop g inputs.*2) ≤ Code_max) as Hfits.
  { intros g. pose proof (product_drop_le _ g Hpos). lia. }
  unfold combine_to_factor_unused.
  rewrite sanisizer_create_Some by done.
  destruct (length inputs) as [|[|k]] eqn:Hlength; [lia..|].
  replace (S (S k) - 1)%nat with (S k) by lia.
  destruct (lookup_lt_is_Some_2 inputs (S k)) as [last Hlast]; [lia|].
  rewrite (list_lookup_total_correct _ _ _ Hlast).
  assert (inputs.*2 !! S k = Some last.2) as Hc by by rewrite list_lookup_fmap, Hlast.
  assert (product (drop (S k) inputs.*2) = last.2) as HP.
  { rewrite (product_drop_S _ _ _ Hc), drop_ge by (rewrite length_fmap; lia).
    simpl. lia. }
  pose proof (Hfits (S k)) as Hlastfit. rewrite HP in Hlastfit.
  rewrite to_Code_small by done. rewrite <-HP.
  destruct (code_loop_returns inputs (S k) (copy_n last.1 n)) as [codes' Hloop];
    [lia|done|].
  exists codes'. rewrite Hloop. split.
  - unfold sanisizer_cast_size. case_decide; [|done].
    pose proof (table_loop_spec inputs (S (S k))
      (replicate (N.to_nat (N.of_nat (S (S k)))) [])) as Htable.
    rewrite take_ge, drop_ge in Htable by (rewrite length_fmap; lia).
    change (product []) with 1 in Htable.
    rewrite Htable; [|done|lia|rewrite length_replicate; lia|done].
    rewrite drop_ge, app_nil_r by (rewrite length_replicate; lia).
    unfold cartesian_table. by rewrite length_fmap, Hlength.
  - intros Hlen Hrange.
    rewrite (copy_n_last n inputs (S k)) in Hloop by done.
    rewrite code_loop_spec in Hloop by (try done; lia). by injection Hloop.
Qed.

(** Conversely, a call that returns met no zero cardinality. *)
Lemma combine_to_factor_unused_Returned_pos n inputs codes table codes' :
  (2 ≤ length inputs)%nat →
  combine_to_factor_unused n inputs codes = Returned table codes' →
  Forall (λ c, 0 < c) inputs.*2 ∧ N.of_nat (length inputs) ≤ size_max.
Proof.
  intros Hk. unfold combine_to_factor_unused.
  unfold sanisizer_create at 1, sanisizer_cast_size at 1.
  case_decide as Hksize; [|done]. cbn [mbind option_bind].
  destruct (length inputs) as [|[|k]] eqn:Hlength; [lia..|].
  destruct (code_loop _ _ _ _) as [nc cs| |]; [|done..].
  destruct (sanisizer_cast_size nc); [|done].
  destruct (table_loop _ _ _ _ _) as [t|] eqn:Htable; [|done].
  intros _. split; [|done].
  apply Forall_lookup_2. intros g c Hc.
  rewrite list_lookup_fmap in Hc.
  destruct (inputs !! g) as [finfo|] eqn:Hfinfo; [|done].
  injection Hc as <-.
  apply (table_loop_Some_pos _ _ _ _ _ _ g _ Htable); [|done].
  apply lookup_lt_Some in Hfinfo. lia.
Qed.

(** The one-variable case. *)
Lemma combine_to_factor_unused_single n ff c codes :
  c ≤ size_max → 1 ≤ size_max →
  combine_to_factor_unused n [(ff, c)] codes
  = Returned [iota (replicate (N.to_nat c) 0)] (copy_n ff n).
Proof.
  intros Hc H1. unfold combine_to_factor_unused. simpl.
  unfold sanisizer_resize. rewrite !sanisizer_create_Some by (simpl; lia). done.
Qed.
End unused_whole.

Lemma product_pos_inv cards : 0 < product cards → Forall (λ c, 0 < c) cards.
Proof.
  induction cards as [|c cards IH]; simpl; intros HP; constructor; [nia|].
  apply IH. nia.
Qed.

Lemma in_range_pos vals cards :
  Forall2 (λ v c, v < c) vals cards → Forall (λ c, 0 < c) cards.
Proof. induction 1; constructor; [lia|done]. Qed.

Lemma cartesian_table_length cards : length (cartesian_table cards) = length cards.
Proof. unfold cartesian_table. by rewrite length_fmap, length_seq. Qed.

Lemma cartesian_table_columns cards :
  Forall (λ col, length col = N.to_nat (product cards)) (cartesian_table cards).
Proof.
  unfold cartesian_table. apply Forall_fmap, list.Forall_forall. intros g Hg.
  apply elem_of_seq in Hg. simpl.
  destruct (lookup_lt_is_Some_2 cards g) as [c Hc]; [lia|].
  by apply (column_length _ _ c).
Qed.

(** Every combination of levels is a row of the full table, at its
    mixed-radix code and nowhere else. *)
Lemma cartesian_table_complete cards combo :
  (0 < length cards)%nat → Forall2 (λ v c, v < c) combo cards →
  table_row (cartesian_table cards) (N.to_nat (mixed_radix cards combo)) = Some combo
  ∧ ∀ j, table_row (cartesian_table cards) j = Some combo →
         j = N.to_nat (mixed_radix cards combo).
Proof.
  intros Hk Hcombo. pose proof (in_range_pos _ _ Hcombo) as Hpos.
  pose proof (mixed_radix_lt _ _ Hcombo) as Hlt. split.
  - rewrite cartesian_table_row by lia.
    by rewrite N2Nat.id, digits_mixed_radix.
  - intros j Hj. pose proof (cartesian_table_row_inv _ _ _ Hk Hj) as Hjlt.
    rewrite cartesian_table_row in Hj by done. injection Hj as <-.
    rewrite mixed_radix_digits by done. rewrite N.mod_small by lia. lia.
Qed.

(** The rows of the full table ascend lexicographically. *)
Lemma cartesian_table_sorted cards j j' row row' :
  (0 < length cards)%nat → (j < j')%nat →
  table_row (cartesian_table cards) j = Some row →
  table_row (cartesian_table cards) j' = Some row' →
  lex_lt N.lt row row'.
Proof.
  intros Hk Hlt Hj Hj'.
  pose proof (cartesian_table_row_inv _ _ _ Hk Hj') as Hj'lt.
  rewrite cartesian_table_row in Hj, Hj' by lia. injection Hj as <-. injection Hj' as <-.
  apply digits_lex_lt; [|lia..]. apply product_pos_inv. lia.
Qed.

Section unused_returned.
Context `{Platform}.
Implicit Types (inputs : list (list N * N)) (cards : list N) (n f g i j : nat).

Lemma cartesian_table_single c :
  c ≤ Code_max + 1 → [iota (replicate (N.to_nat c) 0)] = cartesian_table [c].
Proof.
  intros Hc. unfold cartesian_table, column. simpl.
  rewrite app_nil_r, iota_spec by lia. done.
Qed.

(** What a returning call has computed, when the number of combinations
    fits [Code_]. *)
Lemma combine_to_factor_unused_Returned n inputs codes table codes' :
  (1 ≤ length inputs)%nat → product inputs.*2 ≤ Code_max →
  combine_to_factor_unused n inputs codes = Returned table codes' →
  table = cartesian_table inputs.*2
  ∧ (arrays_of_length n inputs.*1 → values_in_range inputs →
     codes' = suffix_codes n inputs 0).
Proof.
  intros Hk Hfit Hret.
  destruct (decide (length inputs = 1%nat)) as [Hone|Hmore].
  - destruct inputs as [|[ff c] [|? ?]]; simplify_eq/=.
    unfold combine_to_factor_unused, sanisizer_resize in Hret. simpl in Hret.
    destruct (sanisizer_create (N.of_nat 1) (@nil N)) as [output|] eqn:Hout; [|done].
    apply sanisizer_create_inv in Hout as ->.
    destruct (sanisizer_create c 0) as [out0|] eqn:Hout0; [|done].
    apply sanisizer_create_inv in Hout0 as ->. simpl in Hret.
    injection Hret as <- <-. split.
    + apply cartesian_table_single. lia.
    + intros Hlen Hrange.
      apply (copy_n_last n [(ff, c)] 0 (ff, c)); try done. cbn [snd]. lia.
  - assert (2 ≤ length inputs)%nat as Hk2 by lia.
    destruct (combine_to_factor_unused_Returned_pos _ _ _ _ _ Hk2 Hret)
      as [Hpos Hksize].
    destruct (combine_to_factor_unused_general n inputs codes)
      as (codes'' & Hrun & Hcodes); [lia|done..|].
    rewrite Hrun in Hret. case_decide; [|done]. injection Hret as <- <-. done.
Qed.

Lemma suffix_codes_0_lookup n inputs i :
  (i < n)%nat →
  suffix_codes n inputs 0 !! i
  = Some (mixed_radix inputs.*2 (observation inputs.*1 i)).
Proof. intros. by rewrite suffix_codes_lookup. Qed.
End unused_returned.

(** ** The remapping table of the observed variants *)

Lemma StronglySorted_lookup_lt {A} (R : relation A) l i j x y :
  StronglySorted R l → (i < j)%nat → l !! i = Some x → l !! j = Some y → R x y.
Proof.
  intros Hl. revert i j. induction Hl as [|z l Hl IH Hz]; intros i j Hij Hi Hj; [done|].
  destruct j as [|j]; [lia|]. destruct i as [|i]; simplify_eq/=.
  - eapply Forall_lookup_1 in Hz; done.
  - eapply IH; [|done..]. lia.
Qed.

Section remapping.
Context `{Platform}.

Lemma fill_remapping_length u labels remapping :
  length (fill_remapping u labels remapping) = length remapping.
Proof.
  revert u remapping. induction labels as [|c labels IH]; intros u remapping; [done|].
  simpl. by rewrite IH, length_insert.
Qed.

Lemma fill_remapping_other u labels remapping c :
  c ∉ labels →
  fill_remapping u labels remapping !! N.to_nat c = remapping !! N.to_nat c.
Proof.
  revert u remapping. induction labels as [|c' labels IH]; intros u remapping Hc; [done|].
  apply not_elem_of_cons in Hc as [Hne Hc]. simpl.
  rewrite IH by done. apply list_lookup_insert_ne. lia.
Qed.

(** With pairwise distinct labels, the cell of the [j]-th label holds [j]. *)
Lemma fill_remapping_lookup u labels remapping j c :
  NoDup labels → labels !! j = Some c → (N.to_nat c < length remapping)%nat →
  fill_remapping u labels remapping !! N.to_nat c
  = Some (to_Code (N.of_nat (u + j))).
Proof.
  revert u remapping j.
  induction labels as [|c' labels IH]; intros u remapping j Hnd Hj Hc; [done|].
  apply list.NoDup_cons in Hnd as [Hc' Hnd]. destruct j as [|j]; simplify_eq/=.
  - rewrite fill_remapping_other by done.
    rewrite list_lookup_insert_eq by done. by rewrite Nat.add_0_r.
  - rewrite (IH (S u) _ j) by (rewrite ?length_insert; done).
    do 3 f_equal. lia.
Qed.

Lemma apply_remapping_lookup remapping codes i c :
  codes !! i = Some c →
  apply_remapping remapping codes !! i = Some (remapping !!! N.to_nat c).
Proof. intros Hc. unfold apply_remapping. by rewrite list_lookup_fmap, Hc. Qed.

Lemma apply_remapping_length remapping codes :
  length (apply_remapping remapping codes) = length codes.
Proof. unfold apply_remapping. by rewrite length_fmap. Qed.
End remapping.

(** ** [create_factor] *)

Section create_factor.
Context `{Platform}.
Context {A : Type} `{Countable A} `{Inhabited A}.
Context (lt : relation A) `{!RelDecision lt}.
Implicit Types (input xs : list A) (mapping : gmap A N) (codes cs : list N).

Lemma remap_loop_fst u (unique : list (A * N)) remapping output :
  (remap_loop u unique remapping output).1 = fill_remapping u unique.*2 remapping.
Proof.
  revert u remapping output.
  induction unique as [|[x c] unique IH]; intros u remapping output; [done|].
  simpl. by rewrite IH.
Qed.

Lemma remap_loop_snd u (unique : list (A * N)) remapping output :
  (u + length unique ≤ length output)%nat →
  (remap_loop u unique remapping output).2
  = take u output ++ unique.*1 ++ drop (u + length unique) output.
Proof.
  revert u remapping output.
  induction unique as [|[x c] unique IH]; intros u remapping output Hlen; simpl in *.
  - by rewrite Nat.add_0_r, take_drop.
  - rewrite IH by (rewrite length_insert; lia).
    rewrite (take_S_r _ _ x) by (apply list_lookup_insert_eq; lia).
    rewrite take_insert_ge by lia. rewrite drop_insert_lt by lia.
    replace (u + S (length unique))%nat with (S u + length unique)%nat by lia.
    by rewrite <-(assoc (++)).
Qed.

Lemma first_pass_spec xs :
  first_pass_invariant xs (foldl label_step (∅, []) xs).1
                          (foldl label_step (∅, []) xs).2.
Proof.
  induction xs as [|x xs IH] using rev_ind.
  { split; simpl; try done; intros *; by rewrite ?lookup_empty. }
  rewrite foldl_snoc. destruct (foldl label_step (∅, []) xs) as [mapping cs].
  destruct IH as [Hlen Hseen Hentry Hlabel Hsize Hdistinct]. simpl in *.
  unfold label_step. destruct (mapping !! x) as [c|] eqn:Hx; simpl.
  - split; rewrite ?length_app; simpl; try done; try lia.
    + intros i y [[_ Hi]|[-> ->]]%lookup_snoc_Some.
      * destruct (Hseen i y Hi) as (c' & ? & ?). exists c'.
        by rewrite lookup_app_l by (apply lookup_lt_Some in Hi; lia).
      * exists c. split; [done|]. rewrite <-Hlen. by rewrite list_lookup_middle.
    + intros y c' Hy. destruct (Hentry y c' Hy) as (i & Hi & Hc). exists i.
      rewrite !lookup_app_l; [done|by eapply lookup_lt_Some..].
  - set (alt := to_Code (N.of_nat (size mapping))).
    assert (N.to_nat alt ≤ size mapping)%nat as Halt.
    { pose proof (to_Code_le (N.of_nat (size mapping))). unfold alt. lia. }
    split; rewrite ?length_app, ?map_size_insert_None by done; simpl; try lia.
    + intros i y [[_ Hi]|[-> ->]]%lookup_snoc_Some.
      * destruct (Hseen i y Hi) as (c' & Hy & ?). exists c'. split.
        -- rewrite lookup_insert_ne; [done|]. intros ->. by rewrite Hx in Hy.
        -- by rewrite lookup_app_l by (apply lookup_lt_Some in Hi; lia).
      * exists alt. rewrite lookup_insert_eq. split; [done|].
        rewrite <-Hlen. by rewrite list_lookup_middle.
    + intros y c' Hy. destruct (decide (x = y)) as [->|Hne].
      * rewrite lookup_insert_eq in Hy. injection Hy as <-. exists (length xs).
        split; [by rewrite list_lookup_middle|].
        rewrite <-Hlen. by rewrite list_lookup_middle.
      * rewrite lookup_insert_ne in Hy by done.
        destruct (Hentry y c' Hy) as (i & Hi & Hc). exists i.
        rewrite !lookup_app_l; [done|by eapply lookup_lt_Some..].
    + intros y c' Hy. destruct (decide (x = y)) as [->|Hne].
      * rewrite lookup_insert_eq in Hy. injection Hy as <-. lia.
      * rewrite lookup_insert_ne in Hy by done. apply Hlabel in Hy. lia.
    + intros Hcap y z c' Hy Hz.
      assert (alt = N.of_nat (size mapping)) as Halt'
        by (apply to_Code_small; lia).
      assert (∀ w, mapping !! w = Some alt → False) as Hfresh.
      { intros w Hw%Hlabel. lia. }
      destruct (decide (x = y)) as [Hxy|Hxy], (decide (x = z)) as [Hxz|Hxz].
      * congruence.
      * subst y. rewrite lookup_insert_eq in Hy. injection Hy as <-.
        rewrite lookup_insert_ne in Hz by done. by destruct (Hfresh _ Hz).
      * subst z. rewrite lookup_insert_eq in Hz. injection Hz as <-.
        rewrite lookup_insert_ne in Hy by done. by destruct (Hfresh _ Hy).
      * rewrite lookup_insert_ne in Hy, Hz by done.
        apply (Hdistinct ltac:(lia) y z c'); done.
Qed.

Lemma std_sort_Permutation (unique : list (A * N)) : std_sort lt unique ≡ₚ unique.
Proof. apply merge_sort_Permutation. Qed.

Lemma sorted_unique_length mapping : length (sorted_unique lt mapping) = size mapping.
Proof.
  unfold sorted_unique. by rewrite std_sort_Permutation, length_map_to_list.
Qed.

Lemma elem_of_sorted_unique mapping x c :
  (x, c) ∈ sorted_unique lt mapping ↔ mapping !! x = Some c.
Proof.
  unfold sorted_unique. by rewrite std_sort_Permutation, elem_of_map_to_list.
Qed.

Lemma sorted_unique_NoDup_fst mapping : NoDup (sorted_unique lt mapping).*1.
Proof.
  unfold sorted_unique. rewrite std_sort_Permutation. apply NoDup_fst_map_to_list.
Qed.

(** The call in terms of its first pass. *)
Lemma create_factor_run n input codes :
  let mapping := (foldl label_step (∅, []) (take n input)).1 in
  let cs := (foldl label_step (∅, []) (take n input)).2 in
  create_factor lt n input codes
  = if decide (N.of_nat (size mapping) ≤ size_max)
    then Returned (sorted_unique lt mapping).*1
           (apply_remapping (remapping_table (sorted_unique lt mapping).*2) cs)
    else Thrown cs.
Proof.
  intros mapping cs. unfold create_factor.
  destruct (foldl label_step (∅, []) (take n input)) as [mapping' cs'] eqn:Hfold.
  subst mapping cs. simpl.
  fold (sorted_unique lt mapping'). rewrite sorted_unique_length.
  unfold sanisizer_create, sanisizer_cast_size. case_decide; [|done]. simpl.
  rewrite Nat2N.id.
  rewrite (surjective_pairing (remap_loop _ _ _ _)).
  rewrite remap_loop_fst, remap_loop_snd
    by (rewrite length_replicate, sorted_unique_length; lia).
  rewrite drop_ge by (rewrite length_replicate, sorted_unique_length; lia).
  rewrite app_nil_r. simpl.
  unfold remapping_table. by rewrite length_fmap, sorted_unique_length.
Qed.

Lemma create_factor_returns n input codes :
  N.of_nat n ≤ size_max →
  ∃ levels codes', create_factor lt n input codes = Returned levels codes'.
Proof.
  intros Hn. rewrite create_factor_run.
  pose proof (fp_size _ _ _ (first_pass_spec (take n input))) as Hsize.
  rewrite length_take in Hsize. rewrite decide_True by lia. eauto.
Qed.

(** The final code of an observation whose provisional code is the
    label of the [j]-th sorted pair is [j]. *)
Lemma create_factor_final_code n input j x c i :
  let mapping := (foldl label_step (∅, []) (take n input)).1 in
  let cs := (foldl label_step (∅, []) (take n input)).2 in
  N.of_nat (size mapping) ≤ Code_max + 1 →
  sorted_unique lt mapping !! j = Some (x, c) →
  cs !! i = Some c →
  apply_remapping (remapping_table (sorted_unique lt mapping).*2) cs !! i
  = Some (N.of_nat j).
Proof.
  intros mapping cs Hcap Hj Hi.
  pose proof (first_pass_spec (take n input)) as Hinv. fold mapping cs in Hinv.
  assert (mapping !! x = Some c) as Hx.
  { apply elem_of_sorted_unique, list_elem_of_lookup. eauto. }
  assert (NoDup (sorted_unique lt mapping).*2) as Hnd.
  { apply NoDup_fmap_2_strong; [|eapply NoDup_fmap_1, sorted_unique_NoDup_fst].
    intros [y1 c1] [y2 c2] Hy1%elem_of_sorted_unique Hy2%elem_of_sorted_unique Heq.
    simpl in Heq. subst c2. f_equal. by eapply (fp_distinct _ _ _ Hinv). }
  rewrite (apply_remapping_lookup _ _ _ _ Hi). f_equal.
  apply list_lookup_total_correct. unfold remapping_table.
  rewrite (fill_remapping_lookup 0 _ _ j c).
  - simpl. f_equal. apply to_Code_small.
    apply lookup_lt_Some in Hj. rewrite sorted_unique_length in Hj. lia.
  - done.
  - by rewrite list_lookup_fmap, Hj.
  - rewrite length_replicate, length_fmap, sorted_unique_length.
    by eapply (fp_label _ _ _ Hinv).
Qed.

Lemma create_factor_round_trip n input codes levels codes' :
  create_factor lt n input codes = Returned levels codes' →
  N.of_nat (length levels) ≤ Code_max + 1 →
  ∀ i x, (i < n)%nat → input !! i = Some x →
         ∃ c, codes' !! i = Some c ∧ levels !! N.to_nat c = Some x.
Proof.
  rewrite create_factor_run. case_decide; [|done]. intros [= <- <-] Hcap i x Hi Hx.
  rewrite length_fmap, sorted_unique_length in Hcap.
  pose proof (first_pass_spec (take n input)) as Hinv.
  destruct (fp_seen _ _ _ Hinv i x) as (c & Hc & Hcs).
  { by rewrite lookup_take_lt. }
  apply elem_of_sorted_unique, list_elem_of_lookup in Hc as [j Hj].
  exists (N.of_nat j). split.
  - by eapply create_factor_final_code.
  - by rewrite Nat2N.id, list_lookup_fmap, Hj.
Qed.

Lemma create_factor_dense n input codes levels codes' :
  create_factor lt n input codes = Returned levels codes' →
  N.of_nat (length levels) ≤ Code_max + 1 →
  ∀ j, (j < length levels)%nat →
       ∃ i, (i < n)%nat ∧ codes' !! i = Some (N.of_nat j).
Proof.
  rewrite create_factor_run. case_decide; [|done]. intros [= <- <-] Hcap j Hj.
  rewrite length_fmap in Hj. rewrite length_fmap, sorted_unique_length in Hcap.
  destruct (lookup_lt_is_Some_2 _ _ Hj) as [[x c] Hjx].
  pose proof (first_pass_spec (take n input)) as Hinv.
  destruct (fp_entry _ _ _ Hinv x c) as (i & Hi & Hcs).
  { apply elem_of_sorted_unique, list_elem_of_lookup. eauto. }
  exists i. split.
  - apply lookup_lt_Some in Hi. rewrite length_take in Hi. lia.
  - by eapply create_factor_final_code.
Qed.

Lemma create_factor_codes_length n input codes levels codes' :
  create_factor lt n input codes = Returned levels codes' →
  length codes' = (n `min` length input)%nat.
Proof.
  rewrite create_factor_run. case_decide; [|done]. intros [= <- <-].
  rewrite apply_remapping_length.
  rewrite (fp_length _ _ _ (first_pass_spec (take n input))).
  apply length_take.
Qed.

(** The levels are the values of the input, each once, ascending. *)
Section order.
Context `{!StrictOrder lt} `{!Trichotomy lt}.

Lemma pair_lt_asymm p q : pair_lt lt p q → pair_lt lt q p → False.
Proof.
  unfold pair_lt. intros [Hpq|[Hpq Hc]] [Hqp|[Hqp Hc']]; try done.
  - by apply (irreflexivity lt p.1); etrans.
  - lia.
Qed.

Lemma sorted_unique_ascending mapping :
  StronglySorted lt (sorted_unique lt mapping).*1.
Proof.
  apply Sorted_StronglySorted; [apply _|].
  pose proof (sorted_unique_NoDup_fst mapping) as Hnd.
  assert (Sorted (λ p q, ¬ pair_lt lt q p) (sorted_unique lt mapping)) as Hsorted.
  { apply Sorted_merge_sort. intros p q.
    destruct (decide (pair_lt lt q p)) as [Hqp|]; [|by left].
    right. intros Hpq. by eapply pair_lt_asymm. }
  induction Hsorted as [|p unique Hsorted IH Hhd]; [constructor|].
  simpl in *. apply list.NoDup_cons in Hnd as [Hp Hnd].
  constructor; [by apply IH|].
  destruct Hhd as [|q unique Hpq]; constructor. simpl in *.
  destruct (trichotomy lt p.1 q.1) as [?|[Heq|Hqp]]; [done|..].
  - destruct Hp. rewrite Heq. apply elem_of_cons. by left.
  - destruct Hpq. by left.
Qed.

Lemma create_factor_sorted n input codes levels codes' :
  create_factor lt n input codes = Returned levels codes' →
  StronglySorted lt levels.
Proof.
  rewrite create_factor_run. case_decide; [|done]. intros [= <- <-].
  apply sorted_unique_ascending.
Qed.
End order.
End create_factor.

(** ** The iteration order of the unordered map does not matter *)

Section std_sort_order.
Context {A : Type} (lt : relation A) `{!RelDecision lt}.
Context `{!StrictOrder lt} `{!Trichotomy lt}.
Implicit Types p q r : A * N.

Lemma pair_lt_trichotomy p q : pair_lt lt p q ∨ p = q ∨ pair_lt lt q p.
Proof.
  destruct p as [x c], q as [y d]. unfold pair_lt. simpl.
  destruct (trichotomy lt x y) as [?|[->|?]]; [by auto| |by auto].
  pose proof (irreflexivity lt y).
  destruct (N.lt_trichotomy c d) as [?|[->|?]]; by auto.
Qed.

Lemma pair_lt_trans p q r : pair_lt lt p q → pair_lt lt q r → pair_lt lt p r.
Proof.
  destruct p as [x c], q as [y d], r as [z e]. unfold pair_lt. simpl.
  intros [Hxy|[Hyx Hcd]] [Hyz|[Hzy Hde]].
  - left. by etrans.
  - destruct (trichotomy lt y z) as [?|[->|?]]; [left; by etrans|by left|done].
  - destruct (trichotomy lt x y) as [?|[->|?]]; [left; by etrans|by left|done].
  - destruct (trichotomy lt x y) as [?|[->|?]]; [|..|done];
      (destruct (trichotomy lt y z) as [?|[->|?]]; [|..|done]).
    + left. by etrans.
    + by left.
    + by left.
    + right. split; [done|lia].
Qed.

Lemma pair_le_total : Total (λ p q, ¬ pair_lt lt q p).
Proof.
  intros p q. destruct (decide (pair_lt lt q p)) as [Hqp|]; [|by left].
  right. intros Hpq. by eapply (pair_lt_asymm lt).
Qed.

Lemma pair_le_trans : Transitive (λ p q, ¬ pair_lt lt q p).
Proof.
  intros p q r Hpq Hqr Hrp.
  destruct (pair_lt_trichotomy q r) as [?|[->|?]]; [|done..].
  apply Hpq. by eapply pair_lt_trans.
Qed.

Lemma pair_le_antisymm : AntiSymm (=) (λ p q, ¬ pair_lt lt q p).
Proof.
  intros p q Hpq Hqp. by destruct (pair_lt_trichotomy p q) as [?|[?|?]].
Qed.

(** Whatever order the pairs of the unordered map are copied out in,
    [std::sort] leaves the same vector. *)
Lemma std_sort_order_irrelevant (unique unique' : list (A * N)) :
  unique ≡ₚ unique' → std_sort lt unique = std_sort lt unique'.
Proof.
  intros Hperm. unfold std_sort.
  apply (@Sorted_unique _ (λ p q, ¬ pair_lt lt q p) pair_le_trans pair_le_antisymm);
    [apply Sorted_merge_sort, pair_le_total..|].
  by rewrite !merge_sort_Permutation.
Qed.
End std_sort_order.

(** ** The lexicographic order on tuples *)

Section lex_lt.
Context {A : Type} (lt : relation A) `{!StrictOrder lt} `{!Trichotomy lt}.
Implicit Types r : list A.

Lemma lex_lt_irrefl r : ¬ lex_lt lt r r.
Proof.
  induction r as [|x r IH]; simpl; [by intros []|].
  intros [Hx|[_ Hr]]; [by apply (irreflexivity lt x)|done].
Qed.

Lemma lex_lt_trans r1 r2 r3 : lex_lt lt r1 r2 → lex_lt lt r2 r3 → lex_lt lt r1 r3.
Proof.
  revert r2 r3. induction r1 as [|x r1 IH]; intros [|y r2] [|z r3]; simpl; try done.
  intros [Hxy|[-> H12]] [Hyz|[-> H23]]; eauto.
  left. by etrans.
Qed.

Lemma lex_lt_trichotomy r r' :
  length r = length r' → lex_lt lt r r' ∨ r = r' ∨ lex_lt lt r' r.
Proof.
  revert r'. induction r as [|x r IH]; intros [|y r'] Hlen; simplify_eq/=; [by auto|].
  destruct (trichotomy lt x y) as [?|[->|?]]; [by auto| |by auto].
  destruct (IH r' Hlen) as [?|[->|?]]; by auto.
Qed.

Lemma lex_lt_ne r r' : lex_lt lt r r' → r ≠ r'.
Proof. intros Hlt ->. by eapply lex_lt_irrefl. Qed.
End lex_lt.

Lemma observation_length {A} `{Inhabited A} (columns : list (list A)) i :
  length (observation columns i) = length columns.
Proof. unfold observation. by rewrite length_fmap. Qed.

(** ** [combine_to_factor], the general case *)

Section combine_to_factor.
Context `{Platform}.
Context {A : Type} `{Inhabited A}.
Context (lt : relation A) `{!RelDecision lt} `{!EqDecision A}.
Context `{!StrictOrder lt} `{!Trichotomy lt}.
Variable inputs : list (list A).
Implicit Types (mapping m : list (nat * N)) (cs : list N) (e : nat * N).

Implicit Types cols : list (list A).

Local Abbreviation key i := (observation inputs i).
Local Abbreviation key_lt := (lex_lt lt).

Lemma cmp_from_spec cols left right :
  cmp_from lt cols left right = true
  ↔ key_lt (observation cols left) (observation cols right).
Proof.
  induction cols as [|curf cols IH]; simpl; [done|].
  repeat case_decide.
  - split; [by left|done].
  - split; [done|]. intros [?|[Heq _]]; [done|].
    rewrite Heq in *. by destruct (irreflexivity lt (curf !!! right)).
  - rewrite IH. destruct (trichotomy lt (curf !!! left) (curf !!! right))
      as [?|[?|?]]; [done| |done].
    split; [by right|]. by intros [?|[_ ?]].
Qed.

Lemma cmp_spec left right : cmp lt inputs left right = true ↔ key_lt (key left) (key right).
Proof. apply cmp_from_spec. Qed.

Lemma eq_from_spec cols left right :
  eq_from cols left right = true ↔ observation cols left = observation cols right.
Proof.
  induction cols as [|curf cols IH]; simpl; [done|].
  case_decide as Hne.
  - split; [done|]. intros [= ? _]. done.
  - rewrite IH, Hne. split; [by intros ->|by intros [= ?]].
Qed.

Lemma eq_spec left right : eq_ inputs left right = true ↔ key left = key right.
Proof. apply eq_from_spec. Qed.

Lemma cmp_false_false left right :
  cmp lt inputs left right = false → cmp lt inputs right left = false →
  key left = key right.
Proof.
  intros H1%not_true_iff_false H2%not_true_iff_false. rewrite cmp_spec in H1, H2.
  destruct (lex_lt_trichotomy lt (key left) (key right)) as [?|[?|?]]; try done.
  by rewrite !observation_length.
Qed.

Lemma map_find_Some m current e :
  map_find lt inputs m current = Some e → e ∈ m ∧ key e.1 = key current.
Proof.
  induction m as [|e' m IH]; simpl; [done|].
  destruct (cmp lt inputs e'.1 current) eqn:H1.
  { intros [??]%IH. split; [by apply elem_of_cons; right|done]. }
  destruct (cmp lt inputs current e'.1) eqn:H2; [done|].
  intros [= <-]. split; [by apply elem_of_cons; left|by apply cmp_false_false].
Qed.

Lemma map_find_None m current :
  map_sorted lt inputs m → map_find lt inputs m current = None →
  ∀ e, e ∈ m → key e.1 ≠ key current.
Proof.
  induction 1 as [|e' m Hm IH He']; simpl; [by intros _ e ?%elem_of_nil|].
  destruct (cmp lt inputs e'.1 current) eqn:H1.
  { intros Hfind e [->|He]%elem_of_cons; [|by apply IH].
    apply cmp_spec in H1. by apply (lex_lt_ne lt). }
  destruct (cmp lt inputs current e'.1) eqn:H2; [|done].
  apply cmp_spec in H2.
  intros _ e [->|He]%elem_of_cons; apply not_eq_sym, (lex_lt_ne lt); [done|].
  eapply lex_lt_trans; [done..|]. by eapply (proj1 (list.Forall_forall _ _) He').
Qed.

Lemma map_insert_Permutation m current alt :
  (∀ e, e ∈ m → key e.1 ≠ key current) →
  map_insert lt inputs m current alt ≡ₚ (current, alt) :: m.
Proof.
  induction m as [|e m IH]; intros Hfresh; simpl; [done|].
  destruct (cmp lt inputs e.1 current) eqn:H1.
  { rewrite IH; [apply Permutation_swap|].
    intros e' He'. apply Hfresh, elem_of_cons. by right. }
  destruct (cmp lt inputs current e.1) eqn:H2; [done|].
  destruct (Hfresh e); [by apply elem_of_cons; left|by apply cmp_false_false].
Qed.

Lemma map_insert_sorted m current alt :
  (∀ e, e ∈ m → key e.1 ≠ key current) →
  map_sorted lt inputs m → map_sorted lt inputs (map_insert lt inputs m current alt).
Proof.
  intros Hfresh Hm. induction Hm as [|e m Hm IH He]; simpl.
  { repeat constructor. }
  destruct (cmp lt inputs e.1 current) eqn:H1.
  { assert (∀ e', e' ∈ m → key e'.1 ≠ key current) as Hfresh'.
    { intros e' He'. apply Hfresh, elem_of_cons. by right. }
    constructor; [by apply IH|].
    rewrite map_insert_Permutation by done. constructor; [|done].
    by apply cmp_spec. }
  destruct (cmp lt inputs current e.1) eqn:H2.
  - apply cmp_spec in H2. apply SSorted_cons; [by apply SSorted_cons|].
    apply List.Forall_cons; [done|]. eapply List.Forall_impl; [|exact He]. simpl.
    intros e' ?. by eapply (lex_lt_trans lt).
  - destruct (Hfresh e); [by apply elem_of_cons; left|by apply cmp_false_false].
Qed.

(** The iteration for observation [i]: the weird third case of line 92
    (an equivalent key that is not equal) does not occur. *)
Lemma combine_step_spec m cs i :
  combine_step lt inputs (m, cs) i
  = match map_find lt inputs m i with
    | Some mIt => (m, cs ++ [mIt.2])
    | None =>
        let alt := to_Code (N.of_nat (length m)) in
        (map_insert lt inputs m i alt, cs ++ [alt])
    end.
Proof.
  unfold combine_step. destruct (map_find lt inputs m i) as [mIt|] eqn:Hfind; [|done].
  apply map_find_Some in Hfind as [_ Heq]. apply eq_spec in Heq. by rewrite Heq.
Qed.

Lemma combine_loop_spec t :
  combine_invariant lt inputs t (foldl (combine_step lt inputs) ([], []) (seq 0 t)).1
                      (foldl (combine_step lt inputs) ([], []) (seq 0 t)).2.
Proof.
  induction t as [|t IH].
  { split; simpl; try done; try lia.
    - constructor.
    - intros ?? ?%elem_of_nil. done.
    - intros ?? ?%elem_of_nil. done.
    - constructor. }
  rewrite seq_S, foldl_snoc. cbn [plus].
  destruct (foldl (combine_step lt inputs) ([], []) (seq 0 t)) as [m cs].
  destruct IH as [Hsorted Hlen Hseen Hentry Hlabel Hsize Hdistinct].
  cbn [fst snd] in *. rewrite combine_step_spec.
  destruct (map_find lt inputs m t) as [[ix c]|] eqn:Hfind; simpl.
  - apply map_find_Some in Hfind as [Hin Hkey]. simpl in *.
    split; simpl; rewrite ?length_app; simpl; try done; try lia.
    + intros i Hi. destruct (decide (i = t)) as [->|Hne].
      * exists ix, c. split_and!; [done..|].
        rewrite <-Hlen. by rewrite list_lookup_middle.
      * destruct (Hseen i) as (ix' & c' & ? & ? & ?); [lia|].
        exists ix', c'. split_and!; [done..|].
        rewrite lookup_app_l by lia. done.
    + intros ix' c' Hin'. pose proof (Hentry _ _ Hin') as Hcs.
      rewrite lookup_app_l; [done|by eapply lookup_lt_Some].
  - pose proof (map_find_None _ _ Hsorted Hfind) as Hfresh.
    set (alt := to_Code (N.of_nat (length m))).
    pose proof (map_insert_Permutation m t alt Hfresh) as Hperm.
    assert (N.to_nat alt ≤ length m)%nat as Halt.
    { pose proof (to_Code_le (N.of_nat (length m))). unfold alt. lia. }
    split; simpl; rewrite ?length_app, ?Hperm; simpl; try lia.
    + by apply map_insert_sorted.
    + intros i Hi. destruct (decide (i = t)) as [->|Hne].
      * exists t, alt. split_and!; [rewrite Hperm; by apply elem_of_cons; left|done|].
        rewrite <-Hlen. by rewrite list_lookup_middle.
      * destruct (Hseen i) as (ix' & c' & ? & ? & ?); [lia|].
        exists ix', c'. split_and!; [rewrite Hperm; by apply elem_of_cons; right|done|].
        rewrite lookup_app_l by lia. done.
    + intros ix' c'. rewrite Hperm. intros [[= -> ->]|Hin']%elem_of_cons.
      * rewrite <-Hlen. by rewrite list_lookup_middle.
      * pose proof (Hentry _ _ Hin') as Hcs.
        rewrite lookup_app_l; [done|by eapply lookup_lt_Some].
    + intros ix' c'. rewrite Hperm. simpl.
      intros [[= -> ->]|Hin']%elem_of_cons; [lia|].
      apply Hlabel in Hin'. lia.
    + intros Hcap. rewrite ?Hperm. simpl in *. apply NoDup_cons_2; [|apply Hdistinct; lia].
      assert (alt = N.of_nat (length m)) as Halt' by (apply to_Code_small; lia).
      intros ([ix' c'] & Hc & Hin')%list_elem_of_fmap. simpl in *. subst c'.
      apply Hlabel in Hin'. lia.
Qed.

Lemma combine_remap_loop_fst u (unique : list (nat * N)) remapping output :
  (combine_remap_loop inputs u unique remapping output).1
  = fill_remapping u unique.*2 remapping.
Proof.
  revert u remapping output.
  induction unique as [|[ix c] unique IH]; intros u remapping output; [done|].
  simpl. by rewrite IH.
Qed.

Lemma combine_remap_loop_snd u (unique : list (nat * N)) remapping output :
  length output = length inputs →
  (combine_remap_loop inputs u unique remapping output).2
  = zip_with (λ ofac curf, ofac ++ combination_column unique curf) output inputs.
Proof.
  revert u remapping output.
  induction unique as [|[ix c] unique IH]; intros u remapping output Hlen; simpl.
  - apply list_eq. intros f. rewrite lookup_zip_with.
    destruct (output !! f) as [ofac|] eqn:Hf; simpl; [|done].
    destruct (lookup_lt_is_Some_2 inputs f) as [curf ->].
    { apply lookup_lt_Some in Hf. lia. }
    simpl. by rewrite app_nil_r.
  - rewrite IH by (rewrite length_zip_with; lia).
    apply list_eq. intros f. rewrite !lookup_zip_with.
    destruct (output !! f) as [ofac|]; simpl; [|done].
    destruct (inputs !! f) as [curf|]; simpl; [|done].
    by rewrite <-(assoc (++)).
Qed.

Lemma combination_table_row unique u ix c :
  unique !! u = Some (ix, c) →
  table_row (combination_table inputs unique) u = Some (key ix).
Proof.
  intros Hu. unfold table_row, combination_table, observation.
  apply mapM_Some. apply Forall2_fmap.
  apply Forall_Forall2_diag, list.Forall_forall. intros curf _.
  unfold combination_column. by rewrite list_lookup_fmap, Hu.
Qed.

Lemma combination_table_length unique :
  (0 < length inputs)%nat → table_length (combination_table inputs unique) = length unique.
Proof.
  unfold table_length, combination_table. destruct inputs as [|curf ?]; simpl; [lia|].
  intros _. unfold combination_column. by rewrite length_fmap.
Qed.

(** The call in terms of its first loop. *)
Lemma combine_to_factor_run `{!Countable A} n codes :
  (2 ≤ length inputs)%nat →
  let m := (foldl (combine_step lt inputs) ([], []) (seq 0 n)).1 in
  let cs := (foldl (combine_step lt inputs) ([], []) (seq 0 n)).2 in
  combine_to_factor lt n inputs codes
  = if decide (N.of_nat (length inputs) ≤ size_max)
    then if decide (N.of_nat (length m) ≤ size_max)
         then Returned (combination_table inputs m)
                (apply_remapping (remapping_table m.*2) cs)
         else Thrown cs
    else Thrown codes.
Proof.
  intros Hk m cs. unfold combine_to_factor.
  unfold sanisizer_create at 1, sanisizer_cast_size at 1.
  case_decide; [|done]. cbn [mbind option_bind]. rewrite Nat2N.id.
  destruct (length inputs) as [|[|k]] eqn:Hlength; [lia..|].
  destruct (foldl (combine_step lt inputs) ([], []) (seq 0 n)) as [m' cs'].
  subst m cs. cbn [fst snd].
  unfold sanisizer_create, sanisizer_cast_size.
  case_decide; [|done]. cbn [mbind option_bind]. rewrite Nat2N.id.
  rewrite (surjective_pairing (combine_remap_loop _ _ _ _ _)).
  rewrite combine_remap_loop_fst, combine_remap_loop_snd
    by (rewrite length_replicate; lia).
  unfold remapping_table. rewrite length_fmap. f_equal.
  unfold combination_table. apply list_eq. intros f.
  rewrite lookup_zip_with, list_lookup_fmap.
  destruct (inputs !! f) as [curf|] eqn:Hf.
  - rewrite lookup_replicate_2; [done|]. apply lookup_lt_Some in Hf. lia.
  - by destruct (replicate _ _ !! f).
Qed.

Lemma remapping_final_code labels cs j c i :
  NoDup labels → labels !! j = Some c →
  (N.to_nat c < length labels)%nat → N.of_nat (length labels) ≤ Code_max + 1 →
  cs !! i = Some c →
  apply_remapping (remapping_table labels) cs !! i = Some (N.of_nat j).
Proof.
  intros Hnd Hj Hc Hcap Hi.
  rewrite (apply_remapping_lookup _ _ _ _ Hi). f_equal.
  apply list_lookup_total_correct. unfold remapping_table.
  rewrite (fill_remapping_lookup 0 _ _ j c); [|done..|by rewrite length_replicate].
  simpl. f_equal. apply to_Code_small. apply lookup_lt_Some in Hj. lia.
Qed.

Section general_case.
Context `{!Countable A}.
Variables (n : nat) (codes : list N) (table : list (list A)) (codes' : list N).
Hypothesis Hk : (2 ≤ length inputs)%nat.
Hypothesis Hrun : combine_to_factor lt n inputs codes = Returned table codes'.

Local Abbreviation m := (foldl (combine_step lt inputs) ([], []) (seq 0 n)).1.
Local Abbreviation cs := (foldl (combine_step lt inputs) ([], []) (seq 0 n)).2.

Lemma combine_to_factor_Returned :
  table = combination_table inputs m
  ∧ codes' = apply_remapping (remapping_table m.*2) cs.
Proof using Hk Hrun.
  rewrite combine_to_factor_run in Hrun by done.
  repeat case_decide; try done. by injection Hrun as <- <-.
Qed.

Lemma combine_to_factor_table_length : table_length table = length m.
Proof using Hk Hrun.
  destruct combine_to_factor_Returned as [-> _].
  apply combination_table_length. lia.
Qed.

Lemma combine_to_factor_final_code j ix c i :
  N.of_nat (table_length table) ≤ Code_max + 1 →
  m !! j = Some (ix, c) → cs !! i = Some c → codes' !! i = Some (N.of_nat j).
Proof using Hk Hrun StrictOrder0 Trichotomy0.
  rewrite combine_to_factor_table_length. intros Hcap Hj Hi.
  destruct combine_to_factor_Returned as [_ ->].
  pose proof (combine_loop_spec n) as Hinv.
  apply (remapping_final_code _ _ j c); [..|done].
  - by apply (ci_distinct lt inputs _ _ _ Hinv).
  - by rewrite list_lookup_fmap, Hj.
  - rewrite length_fmap. eapply (ci_label lt inputs _ _ _ Hinv), list_elem_of_lookup_2, Hj.
  - by rewrite length_fmap.
Qed.

Lemma combine_to_factor_round_trip :
  N.of_nat (table_length table) ≤ Code_max + 1 →
  ∀ i, (i < n)%nat →
       ∃ c, codes' !! i = Some c ∧ table_row table (N.to_nat c) = Some (key i).
Proof using Hk Hrun StrictOrder0 Trichotomy0.
  intros Hcap i Hi. pose proof (combine_loop_spec n) as Hinv.
  destruct (ci_seen lt inputs _ _ _ Hinv i Hi) as (ix & c & Hin & Hkey & Hcs).
  apply list_elem_of_lookup in Hin as [j Hj].
  exists (N.of_nat j). split; [by eapply combine_to_factor_final_code|].
  destruct combine_to_factor_Returned as [-> _].
  rewrite Nat2N.id, <-Hkey. by eapply combination_table_row.
Qed.

Lemma combine_to_factor_dense :
  N.of_nat (table_length table) ≤ Code_max + 1 →
  ∀ j, (j < table_length table)%nat →
       ∃ i, (i < n)%nat ∧ codes' !! i = Some (N.of_nat j).
Proof using Hk Hrun StrictOrder0 Trichotomy0.
  intros Hcap j Hj. rewrite combine_to_factor_table_length in Hj.
  destruct (lookup_lt_is_Some_2 _ _ Hj) as [[ix c] Hjx].
  pose proof (combine_loop_spec n) as Hinv.
  pose proof (ci_entry lt inputs _ _ _ Hinv ix c (list_elem_of_lookup_2 _ _ _ Hjx)) as Hcs.
  exists ix. split; [|by eapply combine_to_factor_final_code].
  apply lookup_lt_Some in Hcs. by rewrite (ci_length lt inputs _ _ _ Hinv) in Hcs.
Qed.

Lemma combine_to_factor_sorted j j' :
  (j < j' < table_length table)%nat →
  ∃ row row', table_row table j = Some row ∧ table_row table j' = Some row'
              ∧ row ≠ row' ∧ key_lt row row'.
Proof using Hk Hrun StrictOrder0 Trichotomy0.
  rewrite combine_to_factor_table_length. intros [Hlt Hj'].
  destruct (lookup_lt_is_Some_2 m j) as [[ix c] Hjx]; [lia|].
  destruct (lookup_lt_is_Some_2 m j') as [[ix' c'] Hjx']; [lia|].
  pose proof (combine_loop_spec n) as Hinv.
  pose proof (StronglySorted_lookup_lt _ _ _ _ _ _ (ci_sorted lt inputs _ _ _ Hinv)
                Hlt Hjx Hjx') as Hrows. simpl in Hrows.
  destruct combine_to_factor_Returned as [-> _].
  exists (key ix), (key ix'). split_and!; [by eapply combination_table_row..| |done].
  by apply (lex_lt_ne lt).
Qed.
End general_case.

Lemma combine_to_factor_returns `{!Countable A} n codes :
  N.of_nat n ≤ size_max → N.of_nat (length inputs) ≤ size_max →
  (2 ≤ length inputs)%nat →
  ∃ table codes', combine_to_factor lt n inputs codes = Returned table codes'.
Proof.
  intros Hn Hksize Hk. rewrite combine_to_factor_run by done.
  pose proof (ci_size lt inputs _ _ _ (combine_loop_spec n)) as Hsize.
  rewrite !decide_True by lia. eauto.
Qed.
End combine_to_factor.

(** ** The states of the loops *)

Section unused_states.
Context `{Platform}.
Implicit Types (inputs : list (list N * N)) (cards : list N) (n f g i j : nat).


Lemma code_loop_reaches_length n inputs f ncombos codes :
  code_loop_reaches n inputs f ncombos codes → (length codes ≤ n)%nat.
Proof.
  induction 1 as [|f ncombos codes next codes' _ IH Hstep].
  - unfold copy_n. rewrite length_fmap, length_take. lia.
  - unfold code_step in Hstep. destruct (sanisizer_product _ _); simplify_eq/=.
    by rewrite length_imap.
Qed.

Lemma code_loop_reaches_spec n inputs f ncombos codes :
  (2 ≤ length inputs)%nat →
  arrays_of_length n inputs.*1 → values_in_range inputs →
  Forall (λ c, 0 < c) inputs.*2 → product inputs.*2 ≤ Code_max →
  code_loop_reaches n inputs f ncombos codes →
  (f < length inputs)%nat
  ∧ ncombos = product (drop f inputs.*2) ∧ codes = suffix_codes n inputs f.
Proof.
  intros Hk Hlen Hrange Hpos Hfit.
  assert (∀ g, product (drop g inputs.*2) ≤ Code_max) as Hfits.
  { intros g. pose proof (product_drop_le _ g Hpos). lia. }
  induction 1 as [|f ncombos codes next codes' _ (Hf & -> & ->) Hstep].
  - destruct (lookup_lt_is_Some_2 inputs (length inputs - 1)) as [finfo Hlast]; [lia|].
    subst last. rewrite (list_lookup_total_correct _ _ _ Hlast).
    assert (inputs.*2 !! (length inputs - 1)%nat = Some finfo.2) as Hc
      by by rewrite list_lookup_fmap, Hlast.
    assert (product (drop (length inputs - 1) inputs.*2) = finfo.2) as HP.
    { rewrite (product_drop_S _ _ _ Hc), drop_ge by (rewrite length_fmap; lia).
      simpl. lia. }
    pose proof (Hfits (length inputs - 1)%nat) as Hlastfit. rewrite HP in Hlastfit.
    split_and!; [lia|by rewrite to_Code_small|].
    apply copy_n_last; try done. lia.
  - destruct (lookup_lt_is_Some_2 inputs f) as [finfo Hfinfo]; [lia|].
    rewrite (list_lookup_total_correct _ _ _ Hfinfo) in Hstep.
    rewrite (code_step_spec n inputs f finfo) in Hstep by done.
    injection Hstep as <- <-. split_and!; [lia|done..].
Qed.

Lemma table_loop_reaches_spec inputs f outer_repeats inner_repeats :
  Forall (λ c, 0 < c) inputs.*2 → product inputs.*2 ≤ Code_max →
  table_loop_reaches inputs (product inputs.*2) f outer_repeats inner_repeats →
  (f ≤ length inputs)%nat
  ∧ outer_repeats = product (take f inputs.*2)
  ∧ inner_repeats = product (drop f inputs.*2).
Proof.
  intros Hpos Hfit.
  induction 1 as [|f outer inner out outer' inner' _ (Hf & -> & ->) Hstep].
  - rewrite take_ge, drop_ge by (rewrite length_fmap; lia). done.
  - destruct (lookup_lt_is_Some_2 inputs f) as [finfo Hfinfo]; [lia|].
    rewrite (list_lookup_total_correct _ _ _ Hfinfo) in Hstep.
    rewrite (table_step_spec _ _ _ Hpos Hfinfo) in Hstep.
    + injection Hstep as <- <- <-. split_and!; [lia|done..].
    + pose proof (product_drop_le _ f Hpos). lia.
Qed.

(** Overflow: when the product of the cardinalities exceeds [Code_],
    one of the checked products throws. *)
Lemma code_loop_throws inputs f codes :
  (f < length inputs)%nat →
  (∀ g, (f ≤ g)%nat → product (drop g inputs.*2) ≤ Code_max) →
  Code_max < product inputs.*2 →
  ∃ codes', code_loop inputs f (product (drop f inputs.*2)) codes = Thrown codes'.
Proof.
  revert codes. induction f as [|f IH]; intros codes Hf Hfit Hover.
  { specialize (Hfit 0%nat). rewrite drop_0 in Hfit. lia. }
  destruct (lookup_lt_is_Some_2 inputs f) as [finfo Hfinfo]; [lia|].
  assert (inputs.*2 !! f = Some finfo.2) as Hc by by rewrite list_lookup_fmap, Hfinfo.
  pose proof (product_drop_S _ _ _ Hc) as HP.
  cbn [code_loop]. rewrite (list_lookup_total_correct _ _ _ Hfinfo).
  unfold code_step, sanisizer_product. case_decide as Hcheck; [|by eexists].
  cbn [mbind option_bind].
  replace (product (drop (S f) inputs.*2) * finfo.2) with (product (drop f inputs.*2)) by lia.
  apply IH; [lia| |done]. intros g Hg.
  destruct (decide (g = f)) as [->|]; [lia|]. apply Hfit. lia.
Qed.

Lemma combine_to_factor_unused_throws n inputs codes :
  (2 ≤ length inputs)%nat →
  (inputs !!! (length inputs - 1)%nat).2 ≤ Code_max →
  Code_max < product inputs.*2 →
  ∃ codes', combine_to_factor_unused n inputs codes = Thrown codes'.
Proof.
  intros Hk Hlast Hover. unfold combine_to_factor_unused.
  destruct (sanisizer_create _ _) as [output|]; [|by eexists].
  destruct (length inputs) as [|[|k]] eqn:Hlength; [lia..|].
  replace (S (S k) - 1)%nat with (S k) in * by lia.
  destruct (lookup_lt_is_Some_2 inputs (S k)) as [last Hfinfo]; [lia|].
  rewrite (list_lookup_total_correct _ _ _ Hfinfo) in *.
  assert (inputs.*2 !! S k = Some last.2) as Hc by by rewrite list_lookup_fmap, Hfinfo.
  assert (product (drop (S k) inputs.*2) = last.2) as HP.
  { rewrite (product_drop_S _ _ _ Hc), drop_ge by (rewrite length_fmap; lia).
    simpl. lia. }
  rewrite to_Code_small by done. rewrite <-HP.
  destruct (code_loop_throws inputs (S k) (copy_n last.1 n)) as [codes' ->];
    [lia| |done|by eexists].
  intros g Hg. destruct (decide (g = S k)) as [->|]; [lia|].
  rewrite drop_ge by (rewrite length_fmap; lia). simpl.
  destruct (decide (Code_max = 0)) as [Hzero|]; [|lia].
  rewrite (product_zero inputs.*2) in Hover; [lia|].
  apply list_elem_of_lookup. exists (S k). rewrite Hc. f_equal. lia.
Qed.


Lemma combine_to_factor_unused_returns n inputs codes :
  (length inputs ≤ 1)%nat ∨ Forall (λ c, 0 < c) inputs.*2 →
  product inputs.*2 ≤ Code_max → product inputs.*2 ≤ size_max →
  N.of_nat (length inputs) ≤ size_max →
  ∃ table codes', combine_to_factor_unused n inputs codes = Returned table codes'.
Proof.
  intros Hcase Hfit Hsize Hksize.
  destruct inputs as [|[ff c] [|finfo inputs']].
  - unfold combine_to_factor_unused. rewrite sanisizer_create_Some by done.
    simpl. eauto.
  - simpl in *. rewrite combine_to_factor_unused_single by lia. eauto.
  - destruct Hcase as [?|Hpos]; [simpl in *; lia|].
    destruct (combine_to_factor_unused_general n ((ff, c) :: finfo :: inputs') codes)
      as (codes' & Hrun & _); [simpl; lia|done..|].
    rewrite decide_True in Hrun by done. eauto.
Qed.

Lemma combine_to_factor_unused_no_variables n codes :
  combine_to_factor_unused n [] codes = Returned [] (replicate n 0).
Proof.
  unfold combine_to_factor_unused, sanisizer_create, sanisizer_cast_size.
  rewrite decide_True; [done|]. simpl. lia.
Qed.
End unused_states.

(** ** The properties, for all three functions *)

Lemma table_row_single {A} (levels : list A) j x :
  levels !! j = Some x → table_row [levels] j = Some [x].
Proof. intros Hx. unfold table_row. simpl. by rewrite Hx. Qed.

Section observed_properties.
Context `{Platform}.
Context {A : Type} `{Countable A} `{Inhabited A}.
Context (lt : relation A) `{!RelDecision lt}.
Implicit Types (input : list A) (inputs : list (list A)) (codes : list N).

Lemma create_factor_round_trip_table n input codes levels codes' :
  length input = n →
  create_factor lt n input codes = Returned levels codes' →
  N.of_nat (length levels) ≤ Code_max + 1 →
  round_trip n [input] [levels] codes'.
Proof.
  intros Hlen Hrun Hcap i Hi.
  destruct (create_factor_round_trip lt _ _ _ _ _ Hrun Hcap i (input !!! i))
    as (c & Hc & Hlevel); [done|by apply list_lookup_lookup_total_lt; lia|].
  exists c. split; [done|]. by apply table_row_single.
Qed.

Lemma create_factor_dense_table n input codes levels codes' :
  create_factor lt n input codes = Returned levels codes' →
  N.of_nat (length levels) ≤ Code_max + 1 →
  dense n [levels] codes'.
Proof. intros Hrun Hcap j Hj. by eapply create_factor_dense. Qed.

Lemma combine_to_factor_no_variables n codes :
  combine_to_factor lt n [] codes = Returned [] (replicate n 0).
Proof.
  unfold combine_to_factor, sanisizer_create, sanisizer_cast_size.
  rewrite decide_True; [done|]. simpl. lia.
Qed.

Lemma combine_to_factor_single n input codes :
  1 ≤ size_max →
  combine_to_factor lt n [input] codes
  = match create_factor lt n input codes with
    | Returned levels codes' => Returned [levels] codes'
    | Thrown codes' => Thrown codes'
    | Undefined => Undefined
    end.
Proof.
  intros Hone. unfold combine_to_factor.
  rewrite sanisizer_create_Some by (simpl; lia). done.
Qed.

Lemma combine_to_factor_single_inv n input codes table codes' :
  combine_to_factor lt n [input] codes = Returned table codes' →
  ∃ levels, table = [levels] ∧ create_factor lt n input codes = Returned levels codes'.
Proof.
  unfold combine_to_factor. destruct (sanisizer_create _ _) as [output|] eqn:Hout; [|done].
  apply sanisizer_create_inv in Hout as ->. simpl.
  destruct (create_factor lt n input codes) as [levels cs| |]; [|done..].
  intros [= <- <-]. eauto.
Qed.

(** The map has at most one entry per observation, whatever [operator<]
    does. *)
Lemma map_insert_length inputs (m : list (nat * N)) current alt :
  (length (map_insert lt inputs m current alt) ≤ S (length m))%nat.
Proof.
  induction m as [|e m IH]; simpl; [lia|].
  repeat case_match; simpl; lia.
Qed.

Lemma combine_loop_size inputs t :
  (length (foldl (combine_step lt inputs) ([], []) (seq 0 t)).1 ≤ t)%nat.
Proof.
  induction t as [|t IH]; [done|].
  rewrite seq_S, foldl_snoc. cbn [plus].
  destruct (foldl (combine_step lt inputs) ([], []) (seq 0 t)) as [m cs].
  unfold combine_step. pose proof (map_insert_length inputs m t
    (to_Code (N.of_nat (length m)))).
  repeat case_match; simpl in *; lia.
Qed.

Lemma combine_to_factor_general_returns n inputs codes :
  N.of_nat n ≤ size_max → N.of_nat (length inputs) ≤ size_max →
  (2 ≤ length inputs)%nat →
  ∃ table codes', combine_to_factor lt n inputs codes = Returned table codes'.
Proof.
  intros Hn Hksize Hk. unfold combine_to_factor.
  rewrite sanisizer_create_Some by done.
  destruct (length inputs) as [|[|k]] eqn:Hlength; [lia..|].
  pose proof (combine_loop_size inputs n) as Hsize.
  destruct (foldl (combine_step lt inputs) ([], []) (seq 0 n)) as [m cs].
  rewrite sanisizer_create_Some by (simpl in *; lia).
  destruct (combine_remap_loop _ _ _ _ _). eauto.
Qed.

Lemma combine_to_factor_returns_all n inputs codes :
  N.of_nat n ≤ size_max → N.of_nat (length inputs) ≤ size_max →
  ∃ table codes', combine_to_factor lt n inputs codes = Returned table codes'.
Proof.
  intros Hn Hk. destruct inputs as [|input [|input' inputs']].
  - rewrite combine_to_factor_no_variables. eauto.
  - rewrite combine_to_factor_single by (simpl in *; lia).
    destruct (create_factor_returns lt n input codes Hn) as (levels & codes' & ->). eauto.
  - apply combine_to_factor_general_returns; [done..|simpl; lia].
Qed.

Section order.
Context `{!StrictOrder lt} `{!Trichotomy lt}.

Lemma create_factor_sorted_table n input codes levels codes' :
  create_factor lt n input codes = Returned levels codes' →
  unique_and_sorted lt [levels].
Proof.
  intros Hrun%create_factor_sorted; [|done..]. intros j j' [Hlt Hj'].
  unfold table_length in Hj'. simpl in Hj'.
  destruct (lookup_lt_is_Some_2 levels j) as [x Hx]; [lia|].
  destruct (lookup_lt_is_Some_2 levels j') as [y Hy]; [lia|].
  pose proof (StronglySorted_lookup_lt _ _ _ _ _ _ Hrun Hlt Hx Hy) as Hxy.
  exists [x], [y]. split_and!; [by apply table_row_single..| |by left].
  intros [= ->]. by apply (irreflexivity lt y).
Qed.

Lemma combine_to_factor_round_trip_all n inputs codes table codes' :
  arrays_of_length n inputs →
  combine_to_factor lt n inputs codes = Returned table codes' →
  N.of_nat (table_length table) ≤ Code_max + 1 →
  round_trip n inputs table codes'.
Proof.
  intros Hlen Hrun Hcap. destruct inputs as [|input [|input' inputs']].
  - rewrite combine_to_factor_no_variables in Hrun. injection Hrun as <- <-.
    intros i Hi. exists 0. by rewrite lookup_replicate_2.
  - apply combine_to_factor_single_inv in Hrun as (levels & -> & Hrun).
    apply Forall_inv in Hlen. by eapply create_factor_round_trip_table.
  - intros i Hi.
    apply (combine_to_factor_round_trip lt (input :: input' :: inputs') n codes table);
      [simpl; lia|done..].
Qed.

Lemma combine_to_factor_dense_all n inputs codes table codes' :
  combine_to_factor lt n inputs codes = Returned table codes' →
  N.of_nat (table_length table) ≤ Code_max + 1 →
  dense n table codes'.
Proof.
  intros Hrun Hcap. destruct inputs as [|input [|input' inputs']].
  - rewrite combine_to_factor_no_variables in Hrun. injection Hrun as <- <-.
    intros j Hj. unfold table_length in Hj. simpl in Hj. lia.
  - apply combine_to_factor_single_inv in Hrun as (levels & -> & Hrun).
    by eapply create_factor_dense_table.
  - intros j Hj.
    apply (combine_to_factor_dense lt (input :: input' :: inputs') n codes table);
      [simpl; lia|done..].
Qed.

Lemma combine_to_factor_sorted_all n inputs codes table codes' :
  combine_to_factor lt n inputs codes = Returned table codes' →
  unique_and_sorted lt table.
Proof.
  intros Hrun. destruct inputs as [|input [|input' inputs']].
  - rewrite combine_to_factor_no_variables in Hrun. injection Hrun as <- <-.
    intros j j' Hj. unfold table_length in Hj. simpl in Hj. lia.
  - apply combine_to_factor_single_inv in Hrun as (levels & -> & Hrun).
    by eapply create_factor_sorted_table.
  - intros j j' Hj.
    apply (combine_to_factor_sorted lt (input :: input' :: inputs') n codes table codes');
      [simpl; lia|done..].
Qed.
End order.
End observed_properties.

Section unused_properties.
Context `{Platform}.
Implicit Types (inputs : list (list N * N)) (cards : list N) (n f g i j : nat).

Lemma cartesian_table_table_length cards :
  table_length (cartesian_table cards) = if cards is [] then 0%nat else N.to_nat (product cards).
Proof.
  destruct cards as [|c cards]; [done|].
  unfold table_length, cartesian_table. simpl.
  by rewrite (column_length (c :: cards) 0 c).
Qed.

Lemma combine_to_factor_unused_round_trip n inputs codes table codes' :
  arrays_of_length n inputs.*1 → values_in_range inputs →
  product inputs.*2 ≤ Code_max →
  combine_to_factor_unused n inputs codes = Returned table codes' →
  round_trip n inputs.*1 table codes'.
Proof.
  intros Hlen Hrange Hfit Hrun. destruct (decide (length inputs = 0%nat)) as [Hk|Hk].
  - destruct inputs; [|done]. rewrite combine_to_factor_unused_no_variables in Hrun.
    injection Hrun as <- <-. intros i Hi. exists 0. by rewrite lookup_replicate_2.
  - destruct (combine_to_factor_unused_Returned n inputs codes table codes')
      as [-> Hcodes]; [lia|done..|].
    rewrite (Hcodes Hlen Hrange). intros i Hi.
    pose proof (observation_in_range _ _ _ Hlen Hrange Hi) as Hobs.
    exists (mixed_radix inputs.*2 (observation inputs.*1 i)).
    split; [by apply suffix_codes_0_lookup|].
    apply cartesian_table_complete; [|done]. rewrite length_fmap. lia.
Qed.

Lemma combine_to_factor_unused_sorted n inputs codes table codes' :
  product inputs.*2 ≤ Code_max →
  combine_to_factor_unused n inputs codes = Returned table codes' →
  unique_and_sorted N.lt table.
Proof.
  intros Hfit Hrun. destruct (decide (length inputs = 0%nat)) as [Hk|Hk].
  - destruct inputs; [|done]. rewrite combine_to_factor_unused_no_variables in Hrun.
    injection Hrun as <- <-. intros j j' Hj. unfold table_length in Hj. simpl in Hj. lia.
  - destruct (combine_to_factor_unused_Returned n inputs codes table codes')
      as [-> _]; [lia|done..|].
    intros j j' [Hlt Hj']. rewrite cartesian_table_table_length in Hj'.
    destruct (inputs.*2) as [|c cards] eqn:Hcards.
    { destruct inputs; simplify_eq/=. }
    rewrite <-Hcards in *.
    exists (digits inputs.*2 (N.of_nat j)), (digits inputs.*2 (N.of_nat j')).
    assert (lex_lt N.lt (digits inputs.*2 (N.of_nat j)) (digits inputs.*2 (N.of_nat j'))).
    { apply digits_lex_lt; [|lia..]. apply product_pos_inv. lia. }
    split_and!; [apply cartesian_table_row; lia..| |done].
    by apply (lex_lt_ne N.lt).
Qed.
End unused_properties.

(** ** Strictly ascending lists *)

Section strictly_ascending.
Context {A : Type} (lt : relation A) `{!StrictOrder lt}.
Implicit Types l : list A.

Lemma StronglySorted_strict_NoDup l : StronglySorted lt l → NoDup l.
Proof.
  induction 1 as [|x l _ IH Hx]; constructor; [|done].
  intros Hin. eapply (proj1 (list.Forall_forall _ _)) in Hx; [|done].
  by apply (irreflexivity lt x).
Qed.

(** Two strictly ascending lists with the same elements are equal. *)
Lemma StronglySorted_strict_unique l1 l2 :
  StronglySorted lt l1 → StronglySorted lt l2 →
  (∀ x, x ∈ l1 ↔ x ∈ l2) → l1 = l2.
Proof.
  intros Hl1 Hl2 Helem. apply (StronglySorted_unique_strong lt); [|done..|].
  - intros x y _ _ Hxy Hyx. destruct (irreflexivity lt x). by etrans.
  - apply NoDup_Permutation; [by apply StronglySorted_strict_NoDup..|done].
Qed.

Lemma StronglySorted_lookup_inv `{!Trichotomy lt} l i j x y :
  StronglySorted lt l → l !! i = Some x → l !! j = Some y → lt x y → (i < j)%nat.
Proof.
  intros Hl Hi Hj Hxy.
  destruct (Nat.lt_trichotomy i j) as [?|[->|Hji]]; [done|..].
  - assert (x = y) as -> by congruence. by destruct (irreflexivity lt y).
  - pose proof (StronglySorted_lookup_lt lt l j i y x Hl Hji Hj Hi) as Hyx.
    destruct (irreflexivity lt x). by etrans.
Qed.
End strictly_ascending.

(** A strictly ascending list of numbers below [P] has at most [P]
    entries. *)
Lemma StronglySorted_N_lookup_le (l : list N) i x :
  StronglySorted N.lt l → l !! i = Some x → N.of_nat i ≤ x.
Proof.
  intros Hl. revert x. induction i as [|i IH]; intros x Hi; [lia|].
  destruct (lookup_lt_is_Some_2 l i) as [y Hy]; [apply lookup_lt_Some in Hi; lia|].
  pose proof (StronglySorted_lookup_lt N.lt l i (S i) y x Hl ltac:(lia) Hy Hi).
  specialize (IH y Hy). lia.
Qed.

Lemma StronglySorted_N_length (l : list N) P :
  StronglySorted N.lt l → Forall (λ x, x < P) l → N.of_nat (length l) ≤ P.
Proof.
  intros Hl HP. destruct (decide (length l = 0%nat)) as [->|Hne]; [lia|].
  destruct (lookup_lt_is_Some_2 l (length l - 1)) as [x Hx]; [lia|].
  pose proof (StronglySorted_N_lookup_le _ _ _ Hl Hx).
  eapply Forall_lookup_1 in HP; [|done]. simpl in HP. lia.
Qed.

(** The numbers [0 .. m-1]. *)
Lemma StronglySorted_seq_N m : StronglySorted N.lt (N.of_nat <$> seq 0 m).
Proof.
  induction m as [|m IH]; [constructor|].
  rewrite seq_S, fmap_app. apply StronglySorted_app_2; [|done|repeat constructor].
  intros x y Hx Hy. apply list_elem_of_fmap in Hx as (i & -> & Hi%elem_of_seq).
  apply list_elem_of_singleton in Hy as ->. simpl. lia.
Qed.

(** ** Codes and the order of the keys

    What follows from the round trip through a strictly ascending table,
    for any of the three functions: [key i] is observation [i], [row j]
    the row of the table at [j], and [M] the number of rows. *)

Section codes_and_order.
Context {K : Type} (ltK : relation K) `{!StrictOrder ltK}.
Variables (n M : nat) (key : nat → K) (row : nat → option K) (codes : list N).
Hypothesis Hround_trip :
  ∀ i, (i < n)%nat →
       ∃ c, codes !! i = Some c ∧ (N.to_nat c < M)%nat ∧ row (N.to_nat c) = Some (key i).
Hypothesis Hascending :
  ∀ j j', (j < j' < M)%nat → ∃ r r', row j = Some r ∧ row j' = Some r' ∧ ltK r r'.

Lemma codes_lt_keys i j c d :
  (i < n)%nat → (j < n)%nat → codes !! i = Some c → codes !! j = Some d →
  c < d → ltK (key i) (key j).
Proof using Hround_trip Hascending.
  intros Hi Hj Hc Hd Hcd.
  destruct (Hround_trip i Hi) as (c' & Hc' & _ & Hrowc).
  destruct (Hround_trip j Hj) as (d' & Hd' & HdM & Hrowd). simplify_eq.
  destruct (Hascending (N.to_nat c) (N.to_nat d)) as (r & r' & Hr & Hr' & Hlt); [lia|].
  by simplify_eq.
Qed.

Lemma codes_order i j c d :
  (i < n)%nat → (j < n)%nat → codes !! i = Some c → codes !! j = Some d →
  (ltK (key i) (key j) ↔ c < d) ∧ (key i = key j ↔ c = d).
Proof using Hround_trip Hascending StrictOrder0.
  intros Hi Hj Hc Hd.
  destruct (N.lt_trichotomy c d) as [Hcd | [-> | Hdc]].
  - pose proof (codes_lt_keys i j c d Hi Hj Hc Hd Hcd) as Hlt.
    split; split; try done; try lia.
    intros Heq. rewrite Heq in Hlt. by destruct (irreflexivity ltK (key j)).
  - destruct (Hround_trip i Hi) as (c' & Hc' & _ & Hrowc).
    destruct (Hround_trip j Hj) as (d' & Hd' & _ & Hrowd). simplify_eq.
    assert (key i = key j) as Heq by congruence.
    split; split; try done; try lia.
    rewrite Heq. intros Hlt. by destruct (irreflexivity ltK (key j)).
  - pose proof (codes_lt_keys j i d c Hj Hi Hd Hc Hdc) as Hlt.
    split; split; try lia.
    + intros Hlt'. destruct (irreflexivity ltK (key i)). by etrans.
    + intros Heq. rewrite Heq in Hlt. by destruct (irreflexivity ltK (key j)).
Qed.
End codes_and_order.

(** Two arrays of codes that are both dense and ordered alike are
    equal. *)
Section codes_unique.
Variables (n M M' : nat) (codes codes' : list N).
Hypothesis Hlength : length codes = n.
Hypothesis Hlength' : length codes' = n.
Hypothesis Hrange : ∀ i c, codes !! i = Some c → (N.to_nat c < M)%nat.
Hypothesis Hrange' : ∀ i c, codes' !! i = Some c → (N.to_nat c < M')%nat.
Hypothesis Hdense : ∀ j, (j < M)%nat → ∃ i, codes !! i = Some (N.of_nat j).
Hypothesis Hdense' : ∀ j, (j < M')%nat → ∃ i, codes' !! i = Some (N.of_nat j).
Hypothesis Halike :
  ∀ i j c d c' d',
    codes !! i = Some c → codes !! j = Some d →
    codes' !! i = Some c' → codes' !! j = Some d' → (c < d ↔ c' < d').

Lemma codes_unique_at v :
  ∀ i c c', codes !! i = Some c → codes' !! i = Some c' → c = v ∨ c' = v → c = c'.
Proof using All.
  induction (N.lt_wf_0 v) as [v _ IH]. intros i c c' Hc Hc' [-> | ->].
  - destruct (N.lt_trichotomy c' v) as [Hlt | [-> | Hgt]]; [|done|].
    + apply (IH c' Hlt i); auto.
    + destruct (Hdense' (N.to_nat v)) as [j Hj]; [apply Hrange' in Hc'; lia|].
      rewrite N2Nat.id in Hj.
      destruct (lookup_lt_is_Some_2 codes j) as [d Hd].
      { apply lookup_lt_Some in Hj. lia. }
      assert (d < v) as Hdv by (apply (Halike j i d v v c'); done).
      assert (d = v) by (apply (IH d Hdv j); auto). lia.
  - destruct (N.lt_trichotomy c v) as [Hlt | [-> | Hgt]]; [|done|].
    + apply (IH c Hlt i); auto.
    + destruct (Hdense (N.to_nat v)) as [j Hj]; [apply Hrange in Hc; lia|].
      rewrite N2Nat.id in Hj.
      destruct (lookup_lt_is_Some_2 codes' j) as [d' Hd'].
      { apply lookup_lt_Some in Hj. lia. }
      assert (d' < v) as Hdv by (apply (Halike j i v c d' v); done).
      assert (v = d') by (apply (IH d' Hdv j); auto). lia.
Qed.

Lemma codes_unique : codes = codes'.
Proof using All.
  apply (list_eq_same_length _ _ n Hlength' Hlength).
  intros i c c' _ Hc Hc'. apply (codes_unique_at c i); auto.
Qed.
End codes_unique.

(** ** The remapping table, without assuming distinct labels *)

(** The cell of a label holds the position of one of the pairs that
    carry it. *)
Lemma fill_remapping_elem `{Platform} u labels remapping c :
  c ∈ labels → (N.to_nat c < length remapping)%nat →
  ∃ j, labels !! j = Some c
       ∧ fill_remapping u labels remapping !! N.to_nat c
         = Some (to_Code (N.of_nat (u + j))).
Proof.
  revert u remapping.
  induction labels as [|c' labels IH]; intros u remapping Hc Hlen; [by apply elem_of_nil in Hc|].
  simpl. destruct (decide (c ∈ labels)) as [Hin|Hnotin].
  - destruct (IH (S u) (<[N.to_nat c' := to_Code (N.of_nat u)]> remapping) Hin)
      as (j & Hj & Hlookup); [by rewrite length_insert|].
    exists (S j). split; [done|]. rewrite Hlookup. do 3 f_equal. lia.
  - apply elem_of_cons in Hc as [->|?]; [|done].
    exists 0%nat. split; [done|].
    rewrite fill_remapping_other by done.
    rewrite list_lookup_insert_eq by done. by rewrite Nat.add_0_r.
Qed.

(** Every cell read through a label holds a position below the number
    of labels. *)
Lemma remapping_table_range `{Platform} labels cs i c :
  (∀ c0, c0 ∈ cs → c0 ∈ labels ∧ (N.to_nat c0 < length labels)%nat) →
  apply_remapping (remapping_table labels) cs !! i = Some c →
  (N.to_nat c < length labels)%nat.
Proof.
  intros Hcs. unfold apply_remapping. rewrite list_lookup_fmap.
  destruct (cs !! i) as [c0|] eqn:Hc0; [|done]. intros [= <-].
  destruct (Hcs c0) as [Hin Hlt]; [by eapply list_elem_of_lookup_2|].
  destruct (fill_remapping_elem 0 labels (replicate (length labels) 0) c0)
    as (j & Hj & Hlookup); [done|by rewrite length_replicate|].
  unfold remapping_table. rewrite (list_lookup_total_correct _ _ _ Hlookup).
  apply lookup_lt_Some in Hj. pose proof (to_Code_le (N.of_nat (0 + j))). lia.
Qed.

(** ** [create_factor]: levels and codes for every input *)

Section create_factor_every_input.
Context `{Platform}.
Context {A : Type} `{Countable A} `{Inhabited A}.
Context (lt : relation A) `{!RelDecision lt}.
Implicit Types (input : list A) (codes : list N).

Lemma create_factor_levels_elem n input codes levels codes' :
  create_factor lt n input codes = Returned levels codes' →
  ∀ x, x ∈ levels ↔ x ∈ take n input.
Proof.
  rewrite create_factor_run. case_decide; [|done]. intros [= <- <-] x.
  pose proof (first_pass_spec (take n input)) as Hinv.
  rewrite list_elem_of_fmap. split.
  - intros ([y c] & -> & Hin). apply elem_of_sorted_unique in Hin.
    destruct (fp_entry _ _ _ Hinv y c Hin) as (i & Hi & _).
    by eapply list_elem_of_lookup_2.
  - intros [i Hi]%list_elem_of_lookup.
    destruct (fp_seen _ _ _ Hinv i x Hi) as (c & Hc & _).
    exists (x, c). split; [done|]. by apply elem_of_sorted_unique.
Qed.

Lemma create_factor_levels_NoDup n input codes levels codes' :
  create_factor lt n input codes = Returned levels codes' → NoDup levels.
Proof.
  rewrite create_factor_run. case_decide; [|done]. intros [= <- <-].
  apply sorted_unique_NoDup_fst.
Qed.

Lemma create_factor_levels_length n input codes levels codes' :
  create_factor lt n input codes = Returned levels codes' →
  (length levels ≤ n)%nat ∧ N.of_nat (length levels) ≤ size_max.
Proof.
  rewrite create_factor_run. case_decide; [|done]. intros [= <- <-].
  rewrite length_fmap, sorted_unique_length.
  pose proof (fp_size _ _ _ (first_pass_spec (take n input))) as Hsize.
  rewrite length_take in Hsize. split; [lia|done].
Qed.

Lemma create_factor_codes_range n input codes levels codes' :
  create_factor lt n input codes = Returned levels codes' →
  ∀ i c, codes' !! i = Some c → (N.to_nat c < length levels)%nat.
Proof.
  rewrite create_factor_run. case_decide; [|done]. intros [= <- <-] i c Hc.
  pose proof (first_pass_spec (take n input)) as Hinv.
  rewrite length_fmap. rewrite <-(length_fmap snd).
  eapply remapping_table_range; [|done].
  intros c0 [i0 Hc0]%list_elem_of_lookup.
  destruct (lookup_lt_is_Some_2 (take n input) i0) as [x Hx].
  { apply lookup_lt_Some in Hc0. by rewrite <-(fp_length _ _ _ Hinv). }
  destruct (fp_seen _ _ _ Hinv i0 x Hx) as (c1 & Hc1 & Hcs). simplify_eq.
  split.
  - apply list_elem_of_fmap. exists (x, c0). split; [done|].
    by apply elem_of_sorted_unique.
  - rewrite length_fmap, sorted_unique_length. by eapply (fp_label _ _ _ Hinv).
Qed.

Lemma create_factor_equal_values n input codes levels codes' i j x :
  create_factor lt n input codes = Returned levels codes' →
  (i < n)%nat → (j < n)%nat → input !! i = Some x → input !! j = Some x →
  codes' !! i = codes' !! j.
Proof.
  rewrite create_factor_run. case_decide; [|done]. intros [= <- <-] Hi Hj Hxi Hxj.
  pose proof (first_pass_spec (take n input)) as Hinv.
  destruct (fp_seen _ _ _ Hinv i x) as (c & Hc & Hci); [by rewrite lookup_take_lt|].
  destruct (fp_seen _ _ _ Hinv j x) as (c' & Hc' & Hcj); [by rewrite lookup_take_lt|].
  simplify_eq.
  by rewrite (apply_remapping_lookup _ _ _ _ Hci), (apply_remapping_lookup _ _ _ _ Hcj).
Qed.
End create_factor_every_input.

(** ** [create_factor]: what the codes say about the values *)

Section create_factor_order.
Context `{Platform}.
Context {A : Type} `{Countable A} `{Inhabited A}.
Context (lt : relation A) `{!RelDecision lt} `{!StrictOrder lt} `{!Trichotomy lt}.
Implicit Types (input : list A) (codes : list N).

Lemma create_factor_order n input codes levels codes' i j x y c d :
  create_factor lt n input codes = Returned levels codes' →
  N.of_nat (length levels) ≤ Code_max + 1 →
  (i < n)%nat → (j < n)%nat → input !! i = Some x → input !! j = Some y →
  codes' !! i = Some c → codes' !! j = Some d →
  (lt x y ↔ c < d) ∧ (x = y ↔ c = d).
Proof.
  intros Hrun Hcap Hi Hj Hx Hy Hc Hd.
  pose proof (create_factor_sorted lt _ _ _ _ _ Hrun) as Hsorted.
  rewrite <-(list_lookup_total_correct _ _ _ Hx), <-(list_lookup_total_correct _ _ _ Hy).
  apply (codes_order lt (n `min` length input) (length levels)
           (λ i, input !!! i) (λ j, levels !! j) codes').
  - intros i' Hi'.
    destruct (create_factor_round_trip lt _ _ _ _ _ Hrun Hcap i' (input !!! i'))
      as (c' & Hc' & Hlevel); [lia|apply list_lookup_lookup_total_lt; lia|].
    exists c'. split_and!; [done| |done]. by eapply lookup_lt_Some.
  - intros j0 j1 [Hlt Hj1].
    destruct (lookup_lt_is_Some_2 levels j0) as [r Hr]; [lia|].
    destruct (lookup_lt_is_Some_2 levels j1) as [r' Hr']; [lia|].
    exists r, r'. split_and!; [done..|].
    apply (StronglySorted_lookup_lt lt levels j0 j1 r r' Hsorted Hlt Hr Hr').
  - apply lookup_lt_Some in Hx. lia.
  - apply lookup_lt_Some in Hy. lia.
  - done.
  - done.
Qed.

(** The levels depend on the set of values only. *)
Lemma create_factor_same_levels n input codes levels codes1 n' input' codes' levels' codes2 :
  create_factor lt n input codes = Returned levels codes1 →
  create_factor lt n' input' codes' = Returned levels' codes2 →
  (∀ x, x ∈ take n input ↔ x ∈ take n' input') →
  levels = levels'.
Proof.
  intros Hrun Hrun' Hset. apply (StronglySorted_strict_unique lt).
  - by eapply create_factor_sorted.
  - by eapply create_factor_sorted.
  - intros x. rewrite (create_factor_levels_elem lt _ _ _ _ _ Hrun).
    by rewrite (create_factor_levels_elem lt _ _ _ _ _ Hrun').
Qed.

(** An input that ascends strictly is its own table of levels. *)
Lemma create_factor_ascending n input codes :
  StronglySorted lt input → length input = n →
  N.of_nat n ≤ Code_max + 1 → N.of_nat n ≤ size_max →
  create_factor lt n input codes = Returned input (N.of_nat <$> seq 0 n).
Proof.
  intros Hsorted Hlen Hcap Hsize.
  destruct (create_factor_returns lt n input codes Hsize) as (levels & codes' & Hrun).
  assert (levels = input) as ->.
  { apply (StronglySorted_strict_unique lt); [by eapply create_factor_sorted|done|].
    intros x. rewrite (create_factor_levels_elem lt _ _ _ _ _ Hrun).
    by rewrite take_ge by lia. }
  rewrite Hrun. f_equal.
  apply (list_eq_same_length _ _ n).
  - by rewrite length_fmap, length_seq.
  - rewrite (create_factor_codes_length lt _ _ _ _ _ Hrun). lia.
  - intros i c c' Hi Hc Hc'.
    rewrite list_lookup_fmap, lookup_seq_lt in Hc' by done. simplify_eq/=.
    destruct (lookup_lt_is_Some_2 input i) as [x Hx]; [lia|].
    destruct (create_factor_round_trip lt _ _ _ _ _ Hrun ltac:(lia) i x Hi Hx)
      as (c' & Hc' & Hlevel). simplify_eq.
    pose proof (NoDup_lookup _ _ _ _ (StronglySorted_strict_NoDup lt _ Hsorted) Hlevel Hx).
    lia.
Qed.
End create_factor_order.

(** ** [combine_to_factor]: the table and the codes for every input *)

Lemma lex_lt_strict_order {A} (lt : relation A) `{!StrictOrder lt} :
  StrictOrder (lex_lt lt).
Proof.
  split.
  - intros r. apply (lex_lt_irrefl lt).
  - intros r1 r2 r3. apply (lex_lt_trans lt).
Qed.

Lemma table_row_lt {B} (table : list (list B)) j row :
  (0 < length table)%nat → table_row table j = Some row → (j < table_length table)%nat.
Proof.
  intros Hk Hrow. unfold table_row in Hrow. apply mapM_Some in Hrow.
  destruct table as [|col table]; simpl in *; [lia|].
  apply Forall2_cons_inv_l in Hrow as (x & row' & Hx & _ & _).
  unfold table_length. simpl. by eapply lookup_lt_Some.
Qed.

Lemma table_row_single_inv {B} (levels : list B) j row :
  table_row [levels] j = Some row → ∃ x, levels !! j = Some x ∧ row = [x].
Proof.
  unfold table_row. simpl. destruct (levels !! j) as [x|]; [|done].
  simpl. intros [= <-]. eauto.
Qed.

Section combine_to_factor_every_input.
Context `{Platform}.
Context {A : Type} `{Countable A} `{Inhabited A}.
Context (lt : relation A) `{!RelDecision lt} `{!StrictOrder lt} `{!Trichotomy lt}.
Implicit Types (inputs : list (list A)) (codes : list N) (m : list (nat * N)).

(** No two entries of the map have the same key. *)
Lemma map_sorted_key_inj inputs m e e' :
  map_sorted lt inputs m → e ∈ m → e' ∈ m →
  observation inputs e.1 = observation inputs e'.1 → e = e'.
Proof.
  intros Hm [a Ha]%list_elem_of_lookup [b Hb]%list_elem_of_lookup Hkey.
  destruct (Nat.lt_trichotomy a b) as [Hab|[->|Hba]]; [|congruence|].
  - pose proof (StronglySorted_lookup_lt _ _ _ _ _ _ Hm Hab Ha Hb) as Hlt.
    simpl in Hlt. rewrite Hkey in Hlt. by destruct (lex_lt_irrefl lt _ Hlt).
  - pose proof (StronglySorted_lookup_lt _ _ _ _ _ _ Hm Hba Hb Ha) as Hlt.
    simpl in Hlt. rewrite Hkey in Hlt. by destruct (lex_lt_irrefl lt _ Hlt).
Qed.

Section general_case.
Variables (n : nat) (inputs : list (list A)) (codes : list N).
Variables (table : list (list A)) (codes' : list N).
Hypothesis Hk : (2 ≤ length inputs)%nat.
Hypothesis Hrun : combine_to_factor lt n inputs codes = Returned table codes'.

Local Abbreviation m := (foldl (combine_step lt inputs) ([], []) (seq 0 n)).1.
Local Abbreviation cs := (foldl (combine_step lt inputs) ([], []) (seq 0 n)).2.

Lemma combine_to_factor_shape :
  length table = length inputs
  ∧ Forall (λ col, length col = table_length table) table
  ∧ (table_length table ≤ n)%nat.
Proof using Hk Hrun StrictOrder0 Trichotomy0.
  rewrite (combine_to_factor_table_length lt inputs n codes table codes' Hk Hrun).
  destruct (combine_to_factor_Returned lt inputs n codes table codes' Hk Hrun) as [-> _].
  unfold combination_table. split_and!.
  - by rewrite length_fmap.
  - apply Forall_fmap, list.Forall_forall. intros curf _. simpl.
    unfold combination_column. by rewrite length_fmap.
  - apply (ci_size lt inputs _ _ _ (combine_loop_spec lt inputs n)).
Qed.

Lemma combine_to_factor_rows row :
  (∃ j, (j < table_length table)%nat ∧ table_row table j = Some row)
  ↔ (∃ i, (i < n)%nat ∧ row = observation inputs i).
Proof using Hk Hrun StrictOrder0 Trichotomy0.
  rewrite (combine_to_factor_table_length lt inputs n codes table codes' Hk Hrun).
  destruct (combine_to_factor_Returned lt inputs n codes table codes' Hk Hrun) as [-> _].
  pose proof (combine_loop_spec lt inputs n) as Hinv. split.
  - intros (j & Hj & Hrow).
    destruct (lookup_lt_is_Some_2 _ _ Hj) as [[ix c] Hjx].
    rewrite (combination_table_row inputs _ _ _ _ Hjx) in Hrow. injection Hrow as <-.
    exists ix. split; [|done].
    pose proof (ci_entry lt inputs _ _ _ Hinv ix c (list_elem_of_lookup_2 _ _ _ Hjx)) as Hcs.
    apply lookup_lt_Some in Hcs. by rewrite (ci_length lt inputs _ _ _ Hinv) in Hcs.
  - intros (i & Hi & ->).
    destruct (ci_seen lt inputs _ _ _ Hinv i Hi) as (ix & c & Hin & Hkey & _).
    apply list_elem_of_lookup in Hin as [j Hj]. exists j. split.
    + by eapply lookup_lt_Some.
    + rewrite <-Hkey. by eapply combination_table_row.
Qed.

Lemma combine_to_factor_codes_range i c :
  codes' !! i = Some c → (N.to_nat c < table_length table)%nat.
Proof using Hk Hrun StrictOrder0 Trichotomy0.
  rewrite (combine_to_factor_table_length lt inputs n codes table codes' Hk Hrun).
  destruct (combine_to_factor_Returned lt inputs n codes table codes' Hk Hrun) as [_ ->].
  pose proof (combine_loop_spec lt inputs n) as Hinv.
  rewrite <-(length_fmap snd). apply remapping_table_range.
  intros c0 [i0 Hc0]%list_elem_of_lookup.
  destruct (ci_seen lt inputs _ _ _ Hinv i0) as (ix & c1 & Hin & _ & Hcs).
  { apply lookup_lt_Some in Hc0. by rewrite (ci_length lt inputs _ _ _ Hinv) in Hc0. }
  simplify_eq. split.
  - apply list_elem_of_fmap. by exists (ix, c0).
  - rewrite length_fmap. by eapply (ci_label lt inputs _ _ _ Hinv).
Qed.

Lemma combine_to_factor_equal_observations i j :
  (i < n)%nat → (j < n)%nat → observation inputs i = observation inputs j →
  codes' !! i = codes' !! j.
Proof using Hk Hrun StrictOrder0 Trichotomy0.
  intros Hi Hj Hkey.
  destruct (combine_to_factor_Returned lt inputs n codes table codes' Hk Hrun) as [_ ->].
  pose proof (combine_loop_spec lt inputs n) as Hinv.
  destruct (ci_seen lt inputs _ _ _ Hinv i Hi) as (ix & c & Hin & Hkeyi & Hci).
  destruct (ci_seen lt inputs _ _ _ Hinv j Hj) as (ix' & c' & Hin' & Hkeyj & Hcj).
  assert ((ix, c) = (ix', c')) as [= -> ->].
  { apply (map_sorted_key_inj inputs m); [apply (ci_sorted lt inputs _ _ _ Hinv)|done..|].
    simpl. congruence. }
  by rewrite (apply_remapping_lookup _ _ _ _ Hci), (apply_remapping_lookup _ _ _ _ Hcj).
Qed.
End general_case.
End combine_to_factor_every_input.

(** ** [combine_to_factor]: any number of variables *)

Section combine_to_factor_all.
Context `{Platform}.
Context {A : Type} `{Countable A} `{Inhabited A}.
Context (lt : relation A) `{!RelDecision lt} `{!StrictOrder lt} `{!Trichotomy lt}.
Implicit Types (inputs : list (list A)) (codes : list N).

Lemma combine_to_factor_shape_all n inputs codes table codes' :
  (1 ≤ length inputs)%nat → arrays_of_length n inputs →
  combine_to_factor lt n inputs codes = Returned table codes' →
  length table = length inputs
  ∧ Forall (λ col, length col = table_length table) table
  ∧ (table_length table ≤ n)%nat
  ∧ (∀ row, (∃ j, (j < table_length table)%nat ∧ table_row table j = Some row)
            ↔ (∃ i, (i < n)%nat ∧ row = observation inputs i)).
Proof.
  intros Hk Hlen Hrun. destruct inputs as [|input [|input' inputs']]; [simpl in Hk; lia|..].
  - apply combine_to_factor_single_inv in Hrun as (levels & -> & Hrun).
    apply Forall_inv in Hlen.
    pose proof (create_factor_levels_elem lt _ _ _ _ _ Hrun) as Helem.
    pose proof (create_factor_levels_length lt _ _ _ _ _ Hrun) as [Hle _].
    rewrite take_ge in Helem by lia.
    split_and!; [done|by repeat constructor|done|].
    intros row. unfold table_length. simpl. split.
    + intros (j & Hj & (x & Hx & ->)%table_row_single_inv).
      apply list_elem_of_lookup_2, Helem, list_elem_of_lookup in Hx as [i Hi].
      exists i. split; [apply lookup_lt_Some in Hi; lia|].
      unfold observation. simpl. by rewrite (list_lookup_total_correct _ _ _ Hi).
    + intros (i & Hi & ->).
      assert (input !!! i ∈ levels) as [j Hj]%list_elem_of_lookup.
      { apply Helem, list_elem_of_lookup_total_2. lia. }
      exists j. split; [by eapply lookup_lt_Some|]. by apply table_row_single.
  - destruct (combine_to_factor_shape lt n (input :: input' :: inputs') codes table codes')
      as (? & ? & ?); [simpl; lia|done|].
    split_and!; [done..|]. intros row.
    apply (combine_to_factor_rows lt n (input :: input' :: inputs') codes table codes');
      [simpl; lia|done].
Qed.

Lemma combine_to_factor_codes_range_all n inputs codes table codes' i c :
  (1 ≤ length inputs)%nat →
  combine_to_factor lt n inputs codes = Returned table codes' →
  codes' !! i = Some c → (N.to_nat c < table_length table)%nat.
Proof.
  intros Hk Hrun Hc. destruct inputs as [|input [|input' inputs']]; [simpl in Hk; lia|..].
  - apply combine_to_factor_single_inv in Hrun as (levels & -> & Hrun).
    by eapply create_factor_codes_range.
  - apply (combine_to_factor_codes_range lt n (input :: input' :: inputs') codes table codes' ltac:(simpl; lia) Hrun i c Hc).
Qed.

Lemma combine_to_factor_equal_observations_all n inputs codes table codes' i j :
  arrays_of_length n inputs →
  combine_to_factor lt n inputs codes = Returned table codes' →
  (i < n)%nat → (j < n)%nat → observation inputs i = observation inputs j →
  codes' !! i = codes' !! j.
Proof.
  intros Hlen Hrun Hi Hj Hkey. destruct inputs as [|input [|input' inputs']].
  - rewrite combine_to_factor_no_variables in Hrun. injection Hrun as <- <-.
    by rewrite !lookup_replicate_2.
  - apply combine_to_factor_single_inv in Hrun as (levels & -> & Hrun).
    apply Forall_inv in Hlen. injection Hkey as Hkey.
    apply (create_factor_equal_values lt n input codes levels codes' i j (input !!! i));
      [done..| |].
    + apply list_lookup_lookup_total_lt. lia.
    + rewrite Hkey. apply list_lookup_lookup_total_lt. lia.
  - apply (combine_to_factor_equal_observations lt n (input :: input' :: inputs')
             codes table codes'); [simpl; lia|done..].
Qed.

Lemma combine_to_factor_order_all n inputs codes table codes' i j c d :
  arrays_of_length n inputs →
  combine_to_factor lt n inputs codes = Returned table codes' →
  N.of_nat (table_length table) ≤ Code_max + 1 →
  (i < n)%nat → (j < n)%nat → codes' !! i = Some c → codes' !! j = Some d →
  (lex_lt lt (observation inputs i) (observation inputs j) ↔ c < d)
  ∧ (observation inputs i = observation inputs j ↔ c = d).
Proof.
  intros Hlen Hrun Hcap Hi Hj Hc Hd.
  destruct (decide (length inputs = 0%nat)) as [Hzero|Hk].
  { destruct inputs; [|done]. rewrite combine_to_factor_no_variables in Hrun.
    injection Hrun as <- <-. rewrite lookup_replicate_2 in Hc, Hd by done.
    simplify_eq. simpl. split; split; try done; lia. }
  pose proof (combine_to_factor_round_trip_all lt n inputs codes table codes'
                Hlen Hrun Hcap) as Hrt.
  pose proof (combine_to_factor_sorted_all lt n inputs codes table codes' Hrun) as Hsorted.
  apply (codes_order (lex_lt lt) (StrictOrder0 := lex_lt_strict_order lt)
           n (table_length table) (observation inputs) (table_row table) codes');
    [| |done..].
  - intros i' Hi'. destruct (Hrt i' Hi') as (c' & Hc' & Hrow).
    exists c'. split_and!; [done| |done].
    apply (combine_to_factor_codes_range_all n inputs codes table codes' i'); [lia|done..].
  - intros j0 j1 Hj01. destruct (Hsorted j0 j1 Hj01) as (r & r' & ? & ? & _ & ?).
    by exists r, r'.
Qed.
End combine_to_factor_all.

(** ** Labels and codes as values of [Code_] *)

(** Every cell read through a label holds a value of [Code_]. *)
Lemma remapping_table_Code `{Platform} labels cs i c :
  (∀ c0, c0 ∈ cs → c0 ∈ labels ∧ (N.to_nat c0 < length labels)%nat) →
  apply_remapping (remapping_table labels) cs !! i = Some c → c ≤ Code_max.
Proof.
  intros Hcs. unfold apply_remapping. rewrite list_lookup_fmap.
  destruct (cs !! i) as [c0|] eqn:Hc0; [|done]. intros [= <-].
  destruct (Hcs c0) as [Hin Hlt]; [by eapply list_elem_of_lookup_2|].
  destruct (fill_remapping_elem 0 labels (replicate (length labels) 0) c0)
    as (j & Hj & Hlookup); [done|by rewrite length_replicate|].
  unfold remapping_table. rewrite (list_lookup_total_correct _ _ _ Hlookup).
  apply to_Code_bound.
Qed.

Section codes_are_Code_values.
Context `{Platform}.
Context {A : Type} `{Countable A} `{Inhabited A}.
Context (lt : relation A) `{!RelDecision lt} `{!StrictOrder lt} `{!Trichotomy lt}.
Implicit Types (inputs : list (list A)) (codes : list N) (m : list (nat * N)).

Lemma create_factor_codes_Code n input codes levels codes' i c :
  create_factor lt n input codes = Returned levels codes' →
  codes' !! i = Some c → c ≤ Code_max.
Proof.
  rewrite create_factor_run. case_decide; [|done]. intros [= <- <-] Hc.
  pose proof (first_pass_spec (take n input)) as Hinv.
  eapply remapping_table_Code; [|done].
  intros c0 [i0 Hc0]%list_elem_of_lookup.
  destruct (lookup_lt_is_Some_2 (take n input) i0) as [x Hx].
  { apply lookup_lt_Some in Hc0. by rewrite <-(fp_length _ _ _ Hinv). }
  destruct (fp_seen _ _ _ Hinv i0 x Hx) as (c1 & Hc1 & Hcs). simplify_eq.
  split.
  - apply list_elem_of_fmap. exists (x, c0). split; [done|].
    by apply elem_of_sorted_unique.
  - rewrite length_fmap, sorted_unique_length. by eapply (fp_label _ _ _ Hinv).
Qed.

Lemma combine_to_factor_codes_Code n inputs codes table codes' i c :
  combine_to_factor lt n inputs codes = Returned table codes' →
  codes' !! i = Some c → c ≤ Code_max.
Proof.
  intros Hrun Hc. destruct inputs as [|input [|input' inputs']].
  - rewrite combine_to_factor_no_variables in Hrun. injection Hrun as <- <-.
    apply lookup_replicate in Hc as [-> _]. lia.
  - apply combine_to_factor_single_inv in Hrun as (levels & -> & Hrun).
    by eapply create_factor_codes_Code.
  - destruct (combine_to_factor_Returned lt (input :: input' :: inputs') n codes
                table codes') as [_ ->]; [simpl; lia|done|].
    pose proof (combine_loop_spec lt (input :: input' :: inputs') n) as Hinv.
    eapply remapping_table_Code; [|done].
    intros c0 [i0 Hc0]%list_elem_of_lookup.
    destruct (ci_seen lt _ _ _ _ Hinv i0) as (ix & c1 & Hin & _ & Hcs).
    { apply lookup_lt_Some in Hc0. by rewrite (ci_length lt _ _ _ _ Hinv) in Hc0. }
    simplify_eq. split.
    + apply list_elem_of_fmap. by exists (ix, c0).
    + rewrite length_fmap. by eapply (ci_label lt _ _ _ _ Hinv).
Qed.

(** The labels of the map are the sizes the map went through, each
    converted to [Code_]. *)
Lemma combine_loop_labels inputs t :
  let m := (foldl (combine_step lt inputs) ([], []) (seq 0 t)).1 in
  m.*2 ≡ₚ (λ j, to_Code (N.of_nat j)) <$> seq 0 (length m).
Proof.
  induction t as [|t IH]; [done|].
  pose proof (combine_loop_spec lt inputs t) as Hinv.
  rewrite seq_S, foldl_snoc. cbn [plus].
  destruct (foldl (combine_step lt inputs) ([], []) (seq 0 t)) as [m cs].
  cbn [fst snd] in *. rewrite (combine_step_spec lt).
  destruct (map_find lt inputs m t) as [mIt|] eqn:Hfind; [done|]. cbn [fst].
  pose proof (map_find_None lt inputs _ _ (ci_sorted lt inputs _ _ _ Hinv) Hfind) as Hfresh.
  rewrite (map_insert_Permutation lt inputs m t _ Hfresh). cbn [length fmap list_fmap snd].
  rewrite seq_S, fmap_app, IH. cbn [plus fmap list_fmap].
  apply Permutation_cons_append.
Qed.

(** More rows than [Code_] has values: a row that no code refers to. *)
Lemma combine_to_factor_unreferenced_row n inputs codes table codes' :
  combine_to_factor lt n inputs codes = Returned table codes' →
  Code_max + 1 < N.of_nat (table_length table) →
  ∃ j, (j < table_length table)%nat ∧ ∀ i, codes' !! i ≠ Some (N.of_nat j).
Proof.
  intros Hrun Hmore. exists (N.to_nat (Code_max + 1)). split; [lia|].
  intros i Hi. apply (combine_to_factor_codes_Code n inputs codes table codes') in Hi; [|done].
  lia.
Qed.
End codes_are_Code_values.

(** * The claims *)

(** C1, as the claim states it, fails.  With [uint8_t] codes,
    [create_factor] on 257 distinct values returns, and the level at the
    code of the last observation is not its value; and
    [combine_to_factor_unused] on one variable of 300 levels returns code
    43 for the raw value 299, and row 43 of the table is not 299. *)
Lemma round_trip_counterexample :
  (∃ levels codes',
     @create_factor uint8_codes N _ _ _ N.lt _ 257 distinct_257 (replicate 257 0)
     = Returned levels codes'
     ∧ ¬ round_trip 257 [distinct_257] [levels] codes')
  ∧ (values_in_range wide_variable
     ∧ ∃ table codes',
         @combine_to_factor_unused uint8_codes 1 wide_variable [0]
         = Returned table codes'
         ∧ ¬ round_trip 1 wide_variable.*1 table codes').
Proof.
  split.
  - eexists _, _. split; [vm_compute; reflexivity|].
    intros Hrt. destruct (Hrt 256%nat) as (c & Hc & Hrow); [lia|].
    vm_compute in Hc. injection Hc as <-. vm_compute in Hrow. discriminate.
  - split; [repeat constructor|].
    eexists _, _. split; [vm_compute; reflexivity|].
    intros Hrt. destruct (Hrt 0%nat) as (c & Hc & Hrow); [lia|].
    vm_compute in Hc. injection Hc as <-. vm_compute in Hrow. discriminate.
Qed.

(** C1, amended.  Round trip, provided the code type has a code for every
    row of the table.  For [n] observations ([n] a [size_t]):
    [create_factor] and [combine_to_factor] return, and when the returned
    table has at most [2 ^ Code_bits] rows, the row at [codes[i]] is
    observation [i] for every [i < n]; [combine_to_factor_unused], on raw
    values below the declared cardinalities whose product [Code_] can
    represent, returns only tables and codes with that property, and it
    does return when no cardinality is zero (or there is at most one
    variable) and the product fits the size type. *)
Theorem round_trip_when_codes_fit `{Platform} {A : Type} `{Countable A} `{Inhabited A}
    (lt : relation A) `{!RelDecision lt} `{!StrictOrder lt} `{!Trichotomy lt}
    (n : nat) :
  N.of_nat n ≤ size_max →
  (∀ input codes,
     length input = n →
     ∃ levels codes',
       create_factor lt n input codes = Returned levels codes'
       ∧ (N.of_nat (length levels) ≤ Code_max + 1 →
          round_trip n [input] [levels] codes'))
  ∧ (∀ inputs codes,
       arrays_of_length n inputs → N.of_nat (length inputs) ≤ size_max →
       ∃ table codes',
         combine_to_factor lt n inputs codes = Returned table codes'
         ∧ (N.of_nat (table_length table) ≤ Code_max + 1 →
            round_trip n inputs table codes'))
  ∧ (∀ inputs codes,
       arrays_of_length n inputs.*1 → values_in_range inputs →
       product inputs.*2 ≤ Code_max →
       (∀ table codes',
          combine_to_factor_unused n inputs codes = Returned table codes' →
          round_trip n inputs.*1 table codes')
       ∧ ((length inputs ≤ 1)%nat ∨ Forall (λ c, 0 < c) inputs.*2 →
          product inputs.*2 ≤ size_max → N.of_nat (length inputs) ≤ size_max →
          ∃ table codes',
            combine_to_factor_unused n inputs codes = Returned table codes')).
Proof.
  intros Hn. split_and!.
  - intros input codes Hlen.
    destruct (create_factor_returns lt n input codes Hn) as (levels & codes' & Hrun).
    exists levels, codes'. split; [done|].
    by apply (create_factor_round_trip_table lt n input codes).
  - intros inputs codes Hlen Hk.
    destruct (combine_to_factor_returns_all lt n inputs codes Hn Hk)
      as (table & codes' & Hrun).
    exists table, codes'. split; [done|].
    by apply (combine_to_factor_round_trip_all lt n inputs codes).
  - intros inputs codes Hlen Hrange Hfit. split.
    + intros table codes'. by apply (combine_to_factor_unused_round_trip n inputs codes).
    + intros. by apply combine_to_factor_unused_returns.
Qed.

Lemma round_trip_when_codes_fit_witness :
  N.of_nat 4 ≤ @size_max uint8_codes
  ∧ (∃ levels codes',
       @create_factor uint8_codes N _ _ _ N.lt _ 4 scenario_B_input [0; 0; 0; 0]
       = Returned levels codes'
       ∧ round_trip 4 [scenario_B_input] [levels] codes')
  ∧ (∃ table codes',
       @combine_to_factor uint8_codes N _ _ _ N.lt _ 4 scenario_A_inputs [0; 0; 0; 0]
       = Returned table codes'
       ∧ round_trip 4 scenario_A_inputs table codes').
Proof.
  assert (N.of_nat 4 ≤ @size_max uint8_codes) as Hn by (vm_compute; discriminate).
  split; [exact Hn|].
  destruct (@round_trip_when_codes_fit uint8_codes N _ _ _ N.lt _ _ _ 4 Hn)
    as (Hcreate & Hcombine & _).
  split.
  - destruct (Hcreate scenario_B_input [0; 0; 0; 0] eq_refl)
      as (levels & codes' & Hrun & Hrt).
    exists levels, codes'. split; [exact Hrun|]. apply Hrt.
    vm_compute in Hrun. injection Hrun as <- <-. vm_compute. discriminate.
  - destruct (Hcombine scenario_A_inputs [0; 0; 0; 0])
      as (table & codes' & Hrun & Hrt).
    + repeat constructor.
    + vm_compute. discriminate.
    + exists table, codes'. split; [exact Hrun|]. apply Hrt.
      vm_compute in Hrun. injection Hrun as <- <-. vm_compute. discriminate.
Defined.

(** C2. Mixed-radix code formula. With at least two variables, raw values
    below the declared cardinalities and a product of the cardinalities
    that [Code_] can represent, the codes that [combine_to_factor_unused]
    returns are [codes[i] = sum over f of value_f[i] * (product of the
    cardinalities after f)], the first variable varying slowest; and the
    call does return when no cardinality is zero (as is the case when
    there is an observation) and the product fits the size type. *)
Theorem combine_to_factor_unused_mixed_radix `{Platform} n inputs codes :
  (2 ≤ length inputs)%nat →
  arrays_of_length n inputs.*1 → values_in_range inputs →
  product inputs.*2 ≤ Code_max →
  (∀ table codes',
     combine_to_factor_unused n inputs codes = Returned table codes' →
     length codes' = n ∧
     ∀ i, (i < n)%nat →
          codes' !! i = Some (mixed_radix inputs.*2 (observation inputs.*1 i)))
  ∧ ((0 < n)%nat ∨ Forall (λ c, 0 < c) inputs.*2 →
     product inputs.*2 ≤ size_max → N.of_nat (length inputs) ≤ size_max →
     ∃ table codes', combine_to_factor_unused n inputs codes = Returned table codes').
Proof.
  intros Hk Hlen Hrange Hfit. split.
  - intros table codes' Hret.
    destruct (combine_to_factor_unused_Returned n inputs codes table codes')
      as [_ Hcodes]; [lia|done..|].
    rewrite (Hcodes Hlen Hrange). split; [apply suffix_codes_length|].
    intros i Hi. by apply suffix_codes_0_lookup.
  - intros Hpos Hsize Hksize.
    assert (Forall (λ c, 0 < c) inputs.*2) as Hpos'.
    { destruct Hpos; [by eapply values_in_range_pos|done]. }
    destruct (combine_to_factor_unused_general n inputs codes)
      as (codes' & Hrun & _); [done..|].
    rewrite decide_True in Hrun by done. eauto.
Qed.

Lemma combine_to_factor_unused_mixed_radix_witness :
  (2 ≤ length scenario_C_inputs)%nat
  ∧ arrays_of_length 3 scenario_C_inputs.*1
  ∧ values_in_range scenario_C_inputs
  ∧ product scenario_C_inputs.*2 ≤ @Code_max uint8_codes
  ∧ ∃ table, @combine_to_factor_unused uint8_codes 3 scenario_C_inputs [0; 0; 0]
             = Returned table [2; 3; 1].
Proof.
  assert (2 ≤ length scenario_C_inputs)%nat as H1 by (simpl; lia).
  assert (arrays_of_length 3 scenario_C_inputs.*1) as H2
    by (repeat constructor).
  assert (values_in_range scenario_C_inputs) as H3
    by (repeat constructor).
  assert (product scenario_C_inputs.*2 ≤ @Code_max uint8_codes) as H4
    by (vm_compute; discriminate).
  do 4 (split; [assumption|]).
  destruct (@combine_to_factor_unused_mixed_radix uint8_codes 3 scenario_C_inputs
              [0; 0; 0] H1 H2 H3 H4) as [Hcodes Hreturns].
  destruct Hreturns as (table & codes' & Hrun).
  - left. lia.
  - vm_compute. discriminate.
  - vm_compute. discriminate.
  - exists table. rewrite Hrun. f_equal.
    destruct (Hcodes _ _ Hrun) as [Hlen Hi].
    pose proof (Hi 0%nat ltac:(lia)) as H0.
    pose proof (Hi 1%nat ltac:(lia)) as H1'.
    pose proof (Hi 2%nat ltac:(lia)) as H2'.
    destruct codes' as [|c0 [|c1 [|c2 [|? ?]]]]; try discriminate Hlen.
    vm_compute in H0, H1', H2'. congruence.
Defined.




(** C4, as the claim states it, fails.  With [uint8_t] codes,
    [combine_to_factor_unused] on one variable of 300 levels returns a
    level column in which the [iota] counter has wrapped: rows 0 and 256
    are both the level 0. *)
Lemma unique_and_sorted_counterexample :
  ∃ table codes',
    @combine_to_factor_unused uint8_codes 1 wide_variable [0] = Returned table codes'
    ∧ table_row table 0 = table_row table 256
    ∧ ¬ unique_and_sorted N.lt table.
Proof.
  eexists _, _. split; [vm_compute; reflexivity|]. split; [vm_compute; reflexivity|].
  intros Hsorted. destruct (Hsorted 0%nat 256%nat) as (row & row' & H0 & H256 & Hne & _).
  - split; [lia|]. vm_compute. lia.
  - vm_compute in H0, H256. congruence.
Qed.

(** C4, amended.  Uniqueness and sortedness: the table that
    [create_factor] and [combine_to_factor] return, for every input of
    [n] observations ([n] a [size_t]), has no two equal rows and ascends
    lexicographically; so does every table that
    [combine_to_factor_unused] returns when [Code_] can represent the
    product of the cardinalities, and it does return when no cardinality
    is zero (or there is at most one variable) and the product fits the
    size type. *)
Theorem tables_unique_and_sorted `{Platform} {A : Type} `{Countable A} `{Inhabited A}
    (lt : relation A) `{!RelDecision lt} `{!StrictOrder lt} `{!Trichotomy lt}
    (n : nat) :
  N.of_nat n ≤ size_max →
  (∀ input codes,
     ∃ levels codes',
       create_factor lt n input codes = Returned levels codes'
       ∧ unique_and_sorted lt [levels])
  ∧ (∀ inputs codes,
       N.of_nat (length inputs) ≤ size_max →
       ∃ table codes',
         combine_to_factor lt n inputs codes = Returned table codes'
         ∧ unique_and_sorted lt table)
  ∧ (∀ inputs codes,
       product inputs.*2 ≤ Code_max →
       (∀ table codes',
          combine_to_factor_unused n inputs codes = Returned table codes' →
          unique_and_sorted N.lt table)
       ∧ ((length inputs ≤ 1)%nat ∨ Forall (λ c, 0 < c) inputs.*2 →
          product inputs.*2 ≤ size_max → N.of_nat (length inputs) ≤ size_max →
          ∃ table codes',
            combine_to_factor_unused n inputs codes = Returned table codes')).
Proof.
  intros Hn. split_and!.
  - intros input codes.
    destruct (create_factor_returns lt n input codes Hn) as (levels & codes' & Hrun).
    exists levels, codes'. split; [done|].
    by apply (create_factor_sorted_table lt n input codes levels codes').
  - intros inputs codes Hk.
    destruct (combine_to_factor_returns_all lt n inputs codes Hn Hk)
      as (table & codes' & Hrun).
    exists table, codes'. split; [done|].
    by apply (combine_to_factor_sorted_all lt n inputs codes table codes').
  - intros inputs codes Hfit. split.
    + intros table codes'. by apply (combine_to_factor_unused_sorted n inputs codes).
    + intros. by apply combine_to_factor_unused_returns.
Qed.

Lemma tables_unique_and_sorted_witness :
  N.of_nat 4 ≤ @size_max uint8_codes
  ∧ (∃ levels codes',
       @create_factor uint8_codes N _ _ _ N.lt _ 4 scenario_B_input [0; 0; 0; 0]
       = Returned levels codes'
       ∧ unique_and_sorted N.lt [levels])
  ∧ (∃ table codes',
       @combine_to_factor uint8_codes N _ _ _ N.lt _ 4 scenario_A_inputs [0; 0; 0; 0]
       = Returned table codes'
       ∧ unique_and_sorted N.lt table)
  ∧ (∀ table codes',
       @combine_to_factor_unused uint8_codes 3 scenario_C_inputs [0; 0; 0]
       = Returned table codes' →
       unique_and_sorted N.lt table).
Proof.
  assert (N.of_nat 4 ≤ @size_max uint8_codes) as Hn by (vm_compute; discriminate).
  split; [exact Hn|].
  destruct (@tables_unique_and_sorted uint8_codes N _ _ _ N.lt _ _ _ 4 Hn)
    as (Hcreate & Hcombine & _).
  split; [exact (Hcreate scenario_B_input [0; 0; 0; 0])|].
  split.
  - apply (Hcombine scenario_A_inputs [0; 0; 0; 0]). vm_compute. discriminate.
  - assert (N.of_nat 3 ≤ @size_max uint8_codes) as Hn3 by (vm_compute; discriminate).
    destruct (@tables_unique_and_sorted uint8_codes N _ _ _ N.lt _ _ _ 3 Hn3)
      as (_ & _ & Hunused).
    apply (Hunused scenario_C_inputs [0; 0; 0]). vm_compute. discriminate.
Defined.

(** C5, as the claim states it, fails.  With [uint8_t] codes and two
    variables of 16 levels each, the call throws after line 166 has
    overwritten the codes array [[0; 0]] with the values of the last
    variable.  And a product beyond the range of [Code_] does not always
    make the call fail: with one variable of 300 levels, and with two
    variables of 1 and 300 levels (line 167 converts the last cardinality
    to [Code_] unchecked), the call returns. *)
Lemma overflow_atomicity_counterexample :
  (@Code_max uint8_codes < product sixteen_by_sixteen.*2
   ∧ @combine_to_factor_unused uint8_codes 2 sixteen_by_sixteen [0; 0]
     = Thrown [2; 3])
  ∧ (@Code_max uint8_codes < product wide_variable.*2
     ∧ ∃ table codes',
         @combine_to_factor_unused uint8_codes 1 wide_variable [0]
         = Returned table codes')
  ∧ (@Code_max uint8_codes < product wide_last_variable.*2
     ∧ ∃ table codes',
         @combine_to_factor_unused uint8_codes 0 wide_last_variable []
         = Returned table codes').
Proof.
  split_and!; try (vm_compute; reflexivity);
    eexists _, _; vm_compute; reflexivity.
Qed.

(** C5, amended.  Overflow.  With two or more variables, the last
    cardinality a [Code_] value and a product of the cardinalities beyond
    the range of [Code_], [combine_to_factor_unused] throws: no table is
    returned.  (What the codes array holds at that point is not promised:
    line 166 has overwritten it.) *)
Theorem overflow_throws `{Platform} (n : nat) (inputs : list (list N * N))
    (codes : list N) :
  (2 ≤ length inputs)%nat →
  (inputs !!! (length inputs - 1)%nat).2 ≤ Code_max →
  Code_max < product inputs.*2 →
  ∃ codes', combine_to_factor_unused n inputs codes = Thrown codes'.
Proof. apply combine_to_factor_unused_throws. Qed.

Lemma overflow_throws_witness :
  (2 ≤ length sixteen_by_sixteen)%nat
  ∧ (sixteen_by_sixteen !!! (length sixteen_by_sixteen - 1)%nat).2 ≤ @Code_max uint8_codes
  ∧ @Code_max uint8_codes < product sixteen_by_sixteen.*2
  ∧ ∃ codes', @combine_to_factor_unused uint8_codes 2 sixteen_by_sixteen [0; 0]
              = Thrown codes'.
Proof.
  assert (2 ≤ length sixteen_by_sixteen)%nat as Hk by (simpl; lia).
  assert ((sixteen_by_sixteen !!! (length sixteen_by_sixteen - 1)%nat).2
          ≤ @Code_max uint8_codes) as Hlast by (vm_compute; discriminate).
  assert (@Code_max uint8_codes < product sixteen_by_sixteen.*2) as Hover
    by (vm_compute; reflexivity).
  do 3 (split; [assumption|]).
  exact (@overflow_throws uint8_codes 2 sixteen_by_sixteen [0; 0] Hk Hlast Hover).
Defined.

(** C6.  The zero-cardinality edge case with two variables, on the
    failing input: no observation, cardinalities 0 and 3.  The call does
    not complete with empty columns: line 202 divides by the zero
    cardinality. *)
Theorem zero_cardinality_divides_by_zero :
  @combine_to_factor_unused uint8_codes 0 no_levels_then_three [] = Undefined.
Proof. vm_compute. reflexivity. Qed.

(** C7, as the claim states it, fails.  With [uint8_t] codes,
    [combine_to_factor] on two variables with 257 distinct combinations
    raises nothing: it returns a table of 257 rows, more than [Code_]
    has values, and codes. *)
Lemma code_exhaustion_counterexample :
  ∃ table codes',
    @combine_to_factor uint8_codes N _ _ _ N.lt _ 257
      [distinct_257; replicate 257 0] (replicate 257 0)
    = Returned table codes'
    ∧ @Code_max uint8_codes < N.of_nat (table_length table).
Proof.
  eexists _, _. split; [vm_compute; reflexivity|]. vm_compute. reflexivity.
Qed.

(** C7, amended.  For an unsigned [Code_] and a strict total
    [operator<], [combine_to_factor] does not check the number of unique
    combinations against [Code_]: the sizing of the remapping table
    checks it against the size type only.  Whenever the number of
    observations and the number of variables are [size_t] values the
    call returns, whatever the number of unique combinations.  For one
    or more variables the table has one row per distinct combination
    observed, ascending; every code returned is a value of [Code_] and
    the index of a row; so when there are more rows than [Code_] has
    values, some row is the code of no observation.  In the loop of
    lines 89-99 the labels are the sizes of the map converted to
    [Code_], that is, reduced modulo [2 ^ Code_bits]: labels and codes
    wrap around silently. *)
Theorem combine_to_factor_checks_size_type_only `{Platform} {A : Type}
    `{Countable A} `{Inhabited A} (lt : relation A) `{!RelDecision lt}
    `{!StrictOrder lt} `{!Trichotomy lt}
    (n : nat) (inputs : list (list A)) (codes : list N) :
  N.of_nat n ≤ size_max → N.of_nat (length inputs) ≤ size_max →
  ∃ table codes',
    combine_to_factor lt n inputs codes = Returned table codes'
    ∧ ((1 ≤ length inputs)%nat → arrays_of_length n inputs →
       (∀ row, (∃ j, (j < table_length table)%nat ∧ table_row table j = Some row)
               ↔ (∃ i, (i < n)%nat ∧ row = observation inputs i))
       ∧ unique_and_sorted lt table
       ∧ (∀ i c, codes' !! i = Some c →
                 c ≤ Code_max ∧ (N.to_nat c < table_length table)%nat)
       ∧ (Code_max + 1 < N.of_nat (table_length table) →
          ∃ j, (j < table_length table)%nat
               ∧ ∀ i, codes' !! i ≠ Some (N.of_nat j)))
    ∧ ((2 ≤ length inputs)%nat →
       let mapping := (foldl (combine_step lt inputs) ([], []) (seq 0 n)).1 in
       length mapping = table_length table
       ∧ mapping.*2 ≡ₚ (λ j, to_Code (N.of_nat j)) <$> seq 0 (length mapping)).
Proof.
  intros Hn Hksize.
  destruct (combine_to_factor_returns_all lt n inputs codes Hn Hksize)
    as (table & codes' & Hrun).
  exists table, codes'. split; [done|]. split.
  - intros Hk Hlen.
    destruct (combine_to_factor_shape_all lt n inputs codes table codes' Hk Hlen Hrun)
      as (_ & _ & _ & Hrows).
    split_and!.
    + done.
    + by apply (combine_to_factor_sorted_all lt n inputs codes table codes').
    + intros i c Hc. split.
      * by apply (combine_to_factor_codes_Code lt n inputs codes table codes' i).
      * by apply (combine_to_factor_codes_range_all lt n inputs codes table codes' i).
    + by apply (combine_to_factor_unreferenced_row lt n inputs codes table codes').
  - intros Hk mapping. split.
    + symmetry. by apply (combine_to_factor_table_length lt inputs n codes table codes').
    + apply (combine_loop_labels lt).
Qed.

Lemma combine_to_factor_checks_size_type_only_witness :
  N.of_nat 257 ≤ @size_max uint8_codes
  ∧ N.of_nat (length [distinct_257; replicate 257 0]) ≤ @size_max uint8_codes
  ∧ ∃ table codes',
      @combine_to_factor uint8_codes N _ _ _ N.lt _ 257
        [distinct_257; replicate 257 0] (replicate 257 0)
      = Returned table codes'
      ∧ table_length table = 257%nat
      ∧ (∀ i c, codes' !! i = Some c →
                c ≤ @Code_max uint8_codes ∧ (N.to_nat c < table_length table)%nat)
      ∧ ∃ j, (j < table_length table)%nat ∧ ∀ i, codes' !! i ≠ Some (N.of_nat j).
Proof.
  assert (N.of_nat 257 ≤ @size_max uint8_codes) as Hn by (vm_compute; discriminate).
  assert (N.of_nat (length [distinct_257; replicate 257 0]) ≤ @size_max uint8_codes)
    as Hk by (vm_compute; discriminate).
  split; [exact Hn|]. split; [exact Hk|].
  destruct (@combine_to_factor_checks_size_type_only uint8_codes N _ _ _ N.lt _ _ _ 257
              [distinct_257; replicate 257 0] (replicate 257 0) Hn Hk)
    as (table & codes' & Hrun & Hgeneral & _).
  assert (table_length table = 257%nat) as Hrows.
  { vm_compute in Hrun. injection Hrun as <- _. reflexivity. }
  exists table, codes'. split; [exact Hrun|]. split; [exact Hrows|].
  destruct Hgeneral as (_ & _ & Hcodes & Hunreferenced).
  - vm_compute. lia.
  - repeat constructor.
  - split; [exact Hcodes|]. apply Hunreferenced. rewrite Hrows. vm_compute. reflexivity.
Defined.

(** C8, as the claim states it, fails.  With [uint8_t] codes,
    [create_factor] on 257 distinct values returns 257 levels, and no
    observation has the code 256. *)
Lemma density_counterexample :
  ∃ levels codes',
    @create_factor uint8_codes N _ _ _ N.lt _ 257 distinct_257 (replicate 257 0)
    = Returned levels codes'
    ∧ length levels = 257%nat
    ∧ ¬ dense 257 [levels] codes'.
Proof.
  eexists _, _. split; [vm_compute; reflexivity|]. split; [vm_compute; reflexivity|].
  intros Hdense. destruct (Hdense 256%nat) as (i & _ & Hi).
  { vm_compute. lia. }
  apply list_elem_of_lookup_2 in Hi. revert Hi.
  apply (bool_decide_eq_false_1 (N.of_nat 256 ∈ _)). vm_compute. reflexivity.
Qed.

(** C8, amended.  Density, provided the code type has a code for every
    row: for [n] observations ([n] a [size_t]), [create_factor] and
    [combine_to_factor] return, and when the returned table has at most
    [2 ^ Code_bits] rows, every code below the number of rows is the
    code of at least one observation. *)
Theorem dense_when_codes_fit `{Platform} {A : Type} `{Countable A} `{Inhabited A}
    (lt : relation A) `{!RelDecision lt} `{!StrictOrder lt} `{!Trichotomy lt}
    (n : nat) :
  N.of_nat n ≤ size_max →
  (∀ input codes,
     ∃ levels codes',
       create_factor lt n input codes = Returned levels codes'
       ∧ (N.of_nat (length levels) ≤ Code_max + 1 → dense n [levels] codes'))
  ∧ (∀ inputs codes,
       N.of_nat (length inputs) ≤ size_max →
       ∃ table codes',
         combine_to_factor lt n inputs codes = Returned table codes'
         ∧ (N.of_nat (table_length table) ≤ Code_max + 1 → dense n table codes')).
Proof.
  intros Hn. split.
  - intros input codes.
    destruct (create_factor_returns lt n input codes Hn) as (levels & codes' & Hrun).
    exists levels, codes'. split; [done|].
    by apply (create_factor_dense_table lt n input codes).
  - intros inputs codes Hk.
    destruct (combine_to_factor_returns_all lt n inputs codes Hn Hk)
      as (table & codes' & Hrun).
    exists table, codes'. split; [done|].
    by apply (combine_to_factor_dense_all lt n inputs codes).
Qed.

Lemma dense_when_codes_fit_witness :
  N.of_nat 4 ≤ @size_max uint8_codes
  ∧ (∃ levels codes',
       @create_factor uint8_codes N _ _ _ N.lt _ 4 scenario_B_input [0; 0; 0; 0]
       = Returned levels codes'
       ∧ dense 4 [levels] codes')
  ∧ (∃ table codes',
       @combine_to_factor uint8_codes N _ _ _ N.lt _ 4 scenario_A_inputs [0; 0; 0; 0]
       = Returned table codes'
       ∧ dense 4 table codes').
Proof.
  assert (N.of_nat 4 ≤ @size_max uint8_codes) as Hn by (vm_compute; discriminate).
  split; [exact Hn|].
  destruct (@dense_when_codes_fit uint8_codes N _ _ _ N.lt _ _ _ 4 Hn)
    as (Hcreate & Hcombine).
  split.
  - destruct (Hcreate scenario_B_input [0; 0; 0; 0]) as (levels & codes' & Hrun & Hd).
    exists levels, codes'. split; [exact Hrun|]. apply Hd.
    vm_compute in Hrun. injection Hrun as <- <-. vm_compute. discriminate.
  - destruct (Hcombine scenario_A_inputs [0; 0; 0; 0])
      as (table & codes' & Hrun & Hd).
    + vm_compute. discriminate.
    + exists table, codes'. split; [exact Hrun|]. apply Hd.
      vm_compute in Hrun. injection Hrun as <- <-. vm_compute. discriminate.
Defined.




(** C10, as the claim states it, fails.  With [uint8_t] codes, no
    observation and the cardinalities 0 and 200, the preconditions of the
    claim hold, the code loop ends with 0 combinations, and the first
    iteration of the table loop computes [inner_repeats * 200 = 200]. *)
Lemma unchecked_arithmetic_counterexample :
  (2 ≤ length empty_first_variable)%nat
  ∧ arrays_of_length 0 empty_first_variable.*1
  ∧ values_in_range empty_first_variable
  ∧ product empty_first_variable.*2 ≤ @Code_max uint8_codes
  ∧ ¬ @blocks_within_total uint8_codes 0 empty_first_variable.
Proof.
  split_and!; [simpl; lia|repeat constructor..|vm_compute; discriminate|].
  intros Hblocks.
  assert (@code_loop_reaches uint8_codes 0 empty_first_variable 0 0 []) as Hcodes.
  { apply (code_loop_iteration 0 empty_first_variable 0 200 []); [|done].
    exact (@code_loop_entry uint8_codes 0 empty_first_variable). }
  specialize (Hblocks 0 [] Hcodes 1%nat 0 1
                (@table_loop_entry uint8_codes empty_first_variable 0)).
  vm_compute in Hblocks. by destruct Hblocks.
Qed.

(** C10, amended.  The unchecked arithmetic of the full combiner stays in
    range.  With two or more variables, raw values below the declared
    cardinalities and a product of the cardinalities that [Code_] can
    represent: in every state of the code loop each code is below
    [ncombos], and in the next iteration the exact value of
    [codes[i] + ncombos * ff[i]] is below the next base, a [Code_] value;
    and, when moreover no cardinality is zero, [inner_repeats *
    finfo.second] never exceeds the number of combinations in the table
    loop. *)
Theorem unchecked_arithmetic_in_range `{Platform} (n : nat)
    (inputs : list (list N * N)) :
  (2 ≤ length inputs)%nat →
  arrays_of_length n inputs.*1 → values_in_range inputs →
  product inputs.*2 ≤ Code_max →
  codes_below_base n inputs
  ∧ (Forall (λ c, 0 < c) inputs.*2 → blocks_within_total n inputs).
Proof.
  intros Hk Hlen Hrange Hfit. split.
  - intros f ncombos codes Hreach.
    destruct (decide (n = 0%nat)) as [->|Hn].
    { pose proof (code_loop_reaches_length _ _ _ _ _ Hreach) as Hcodes.
      destruct codes; [|simpl in Hcodes; lia]. split.
      - by intros c ?%elem_of_nil.
      - intros f' next codes' -> Hstep. unfold code_step in Hstep.
        destruct (sanisizer_product _ _) as [p|] eqn:Hp; simplify_eq/=.
        apply sanisizer_product_inv in Hp as [-> ?]. done. }
    assert (Forall (λ c, 0 < c) inputs.*2) as Hpos
      by (eapply values_in_range_pos; [done..|lia]).
    destruct (code_loop_reaches_spec _ _ _ _ _ Hk Hlen Hrange Hpos Hfit Hreach)
      as (Hf & -> & ->).
    assert (∀ i c, suffix_codes n inputs f !! i = Some c →
                   (i < n)%nat ∧ c < product (drop f inputs.*2)) as Hbelow.
    { intros i c Hc. assert (i < n)%nat as Hi.
      { apply lookup_lt_Some in Hc. by rewrite suffix_codes_length in Hc. }
      rewrite suffix_codes_lookup in Hc by done. injection Hc as <-.
      split; [done|]. apply mixed_radix_lt, Forall2_drop.
      by apply (observation_in_range n). }
    split.
    + intros c [i Hc]%list_elem_of_lookup. by apply (Hbelow i).
    + intros f' next codes' -> Hstep. unfold code_step in Hstep.
      destruct (sanisizer_product _ _) as [p|] eqn:Hp; simplify_eq/=.
      apply sanisizer_product_inv in Hp as [-> ?]. split; [done|].
      intros i c Hc. destruct (Hbelow i c Hc) as [Hi Hlt].
      destruct (lookup_lt_is_Some_2 inputs f') as [finfo Hfinfo]; [lia|].
      rewrite (list_lookup_total_correct _ _ _ Hfinfo).
      pose proof (observation_in_range _ _ _ Hlen Hrange Hi) as Hobs.
      eapply Forall2_lookup_lr in Hobs;
        [|by apply observation_lookup|by rewrite list_lookup_fmap, Hfinfo].
      simpl in Hobs. nia.
  - intros Hpos ncombos codes Hcodes f outer inner Htable.
    destruct (code_loop_reaches_spec _ _ _ _ _ Hk Hlen Hrange Hpos Hfit Hcodes)
      as (_ & -> & _). rewrite drop_0 in *.
    destruct (table_loop_reaches_spec _ _ _ _ Hpos Hfit Htable) as (Hf & _ & ->).
    destruct (lookup_lt_is_Some_2 inputs f) as [finfo Hfinfo]; [lia|].
    rewrite (list_lookup_total_correct _ _ _ Hfinfo).
    assert (inputs.*2 !! f = Some finfo.2) as Hc by by rewrite list_lookup_fmap, Hfinfo.
    pose proof (product_drop_S _ _ _ Hc). pose proof (product_drop_le _ f Hpos). lia.
Qed.

Lemma unchecked_arithmetic_in_range_witness :
  (2 ≤ length scenario_C_inputs)%nat
  ∧ arrays_of_length 3 scenario_C_inputs.*1
  ∧ values_in_range scenario_C_inputs
  ∧ product scenario_C_inputs.*2 ≤ @Code_max uint8_codes
  ∧ @codes_below_base uint8_codes 3 scenario_C_inputs
  ∧ @blocks_within_total uint8_codes 3 scenario_C_inputs.
Proof.
  assert (2 ≤ length scenario_C_inputs)%nat as H1 by (simpl; lia).
  assert (arrays_of_length 3 scenario_C_inputs.*1) as H2 by (repeat constructor).
  assert (values_in_range scenario_C_inputs) as H3 by (repeat constructor).
  assert (product scenario_C_inputs.*2 ≤ @Code_max uint8_codes) as H4
    by (vm_compute; discriminate).
  do 4 (split; [assumption|]).
  destruct (@unchecked_arithmetic_in_range uint8_codes 3 scenario_C_inputs H1 H2 H3 H4)
    as [Hcodes Hblocks].
  split; [exact Hcodes|]. apply Hblocks. repeat constructor.
Defined.


(** * Further properties of the code *)

(** ** Properties of [create_factor] *)

(** X1. For a strict total [operator<] and an unsigned [Code_] of any
    width (also one too narrow for the number of levels), the levels
    that [create_factor] returns are the values of the [n] observations,
    each of them once, and there are at most [n] of them. *)
Theorem create_factor_levels_are_the_values `{Platform} {A : Type} `{Countable A}
    `{Inhabited A} (lt : relation A) `{!RelDecision lt} `{!StrictOrder lt}
    `{!Trichotomy lt}
    (n : nat) (input : list A) (codes : list N) (levels : list A) (codes' : list N) :
  create_factor lt n input codes = Returned levels codes' →
  NoDup levels
  ∧ (∀ x, x ∈ levels ↔ x ∈ take n input)
  ∧ (length levels ≤ n)%nat.
Proof.
  intros Hrun. split_and!.
  - by eapply create_factor_levels_NoDup.
  - by eapply create_factor_levels_elem.
  - by eapply create_factor_levels_length.
Qed.

Lemma create_factor_levels_are_the_values_witness :
  @create_factor uint8_codes N _ _ _ N.lt _ 4 scenario_B_input [0; 0; 0; 0]
  = Returned [10; 20; 30] [0; 2; 1; 0]
  ∧ NoDup [10; 20; 30]
  ∧ (∀ x, x ∈ [10; 20; 30] ↔ x ∈ take 4 scenario_B_input)
  ∧ (length [10; 20; 30] ≤ 4)%nat.
Proof.
  assert (@create_factor uint8_codes N _ _ _ N.lt _ 4 scenario_B_input [0; 0; 0; 0]
          = Returned [10; 20; 30] [0; 2; 1; 0]) as Hrun by (vm_compute; reflexivity).
  split; [exact Hrun|].
  exact (@create_factor_levels_are_the_values uint8_codes N _ _ _ N.lt _ _ _ 4
           scenario_B_input [0; 0; 0; 0] [10; 20; 30] [0; 2; 1; 0] Hrun).
Defined.

(** X2. For a strict total [operator<] and an unsigned [Code_] of any
    width, every code that [create_factor] returns is a valid index into
    the returned levels, and two observations with the same value get
    the same code; this holds also when the unsigned [Code_] is too
    narrow for the number of levels and the labels have wrapped
    around. *)
Theorem create_factor_codes_index_the_levels `{Platform} {A : Type} `{Countable A}
    `{Inhabited A} (lt : relation A) `{!RelDecision lt} `{!StrictOrder lt}
    `{!Trichotomy lt}
    (n : nat) (input : list A) (codes : list N) (levels : list A) (codes' : list N) :
  create_factor lt n input codes = Returned levels codes' →
  (∀ i c, codes' !! i = Some c → (N.to_nat c < length levels)%nat)
  ∧ (∀ i j x, (i < n)%nat → (j < n)%nat →
              input !! i = Some x → input !! j = Some x → codes' !! i = codes' !! j).
Proof.
  intros Hrun. split.
  - by eapply create_factor_codes_range.
  - intros i j x. by eapply create_factor_equal_values.
Qed.

Lemma create_factor_codes_index_the_levels_witness :
  ∃ levels codes',
    @create_factor uint8_codes N _ _ _ N.lt _ 257 distinct_257 [] = Returned levels codes'
    ∧ length levels = 257%nat
    ∧ (∀ i c, codes' !! i = Some c → (N.to_nat c < length levels)%nat)
    ∧ (∀ i j x, (i < 257)%nat → (j < 257)%nat →
                distinct_257 !! i = Some x → distinct_257 !! j = Some x →
                codes' !! i = codes' !! j).
Proof.
  assert (∃ levels codes',
            @create_factor uint8_codes N _ _ _ N.lt _ 257 distinct_257 [] = Returned levels codes'
            ∧ length levels = 257%nat) as (levels & codes' & Hrun & Hlen).
  { eexists _, _. split; vm_compute; reflexivity. }
  exists levels, codes'. split; [exact Hrun|]. split; [exact Hlen|].
  exact (@create_factor_codes_index_the_levels uint8_codes N _ _ _ N.lt _ _ _ 257
           distinct_257 [] levels codes' Hrun).
Defined.

(** X3. When the levels fit [Code_], the codes of [create_factor] order
    the observations as their values do: one value is below another
    exactly when its code is, and two values are equal exactly when
    their codes are. *)
Theorem create_factor_codes_follow_the_order `{Platform} {A : Type} `{Countable A}
    `{Inhabited A} (lt : relation A) `{!RelDecision lt} `{!StrictOrder lt}
    `{!Trichotomy lt}
    (n : nat) (input : list A) (codes : list N) (levels : list A) (codes' : list N) :
  create_factor lt n input codes = Returned levels codes' →
  N.of_nat (length levels) ≤ Code_max + 1 →
  ∀ i j x y c d,
    (i < n)%nat → (j < n)%nat → input !! i = Some x → input !! j = Some y →
    codes' !! i = Some c → codes' !! j = Some d →
    (lt x y ↔ c < d) ∧ (x = y ↔ c = d).
Proof. intros Hrun Hcap i j x y c d. by apply (create_factor_order lt n input codes levels). Qed.

Lemma create_factor_codes_follow_the_order_witness :
  (N.lt 10 30 ↔ 0 < 2) ∧ (10 = 30 ↔ 0 = 2).
Proof.
  apply (@create_factor_codes_follow_the_order uint8_codes N _ _ _ N.lt _ _ _ 4
           scenario_B_input [0; 0; 0; 0] [10; 20; 30] [0; 2; 1; 0]) with 0%nat 1%nat;
    try (vm_compute; reflexivity); try (vm_compute; discriminate); lia.
Defined.

(** X4. The result of [create_factor] depends on the set of observed
    values only: two inputs with the same values, in any order and any
    multiplicity, get the same levels, and (when the levels fit [Code_])
    a value has the same code wherever it occurs in either input. *)
Theorem create_factor_depends_on_the_value_set `{Platform} {A : Type} `{Countable A}
    `{Inhabited A} (lt : relation A) `{!RelDecision lt} `{!StrictOrder lt}
    `{!Trichotomy lt}
    (n : nat) (input : list A) (codes : list N) (levels : list A) (codes1 : list N)
    (n' : nat) (input' : list A) (codes0 : list N) (levels' : list A) (codes2 : list N) :
  create_factor lt n input codes = Returned levels codes1 →
  create_factor lt n' input' codes0 = Returned levels' codes2 →
  (∀ x, x ∈ take n input ↔ x ∈ take n' input') →
  levels = levels'
  ∧ (N.of_nat (length levels) ≤ Code_max + 1 →
     ∀ i j x, (i < n)%nat → (j < n')%nat →
              input !! i = Some x → input' !! j = Some x →
              codes1 !! i = codes2 !! j).
Proof.
  intros Hrun Hrun' Hset.
  assert (levels = levels') as <- by by eapply (create_factor_same_levels lt).
  split; [done|]. intros Hcap i j x Hi Hj Hx Hx'.
  destruct (create_factor_round_trip lt _ _ _ _ _ Hrun Hcap i x Hi Hx)
    as (c & -> & Hc).
  destruct (create_factor_round_trip lt _ _ _ _ _ Hrun' Hcap j x Hj Hx')
    as (c' & -> & Hc').
  pose proof (NoDup_lookup _ _ _ _ (create_factor_levels_NoDup lt _ _ _ _ _ Hrun) Hc Hc').
  f_equal. lia.
Qed.

Lemma create_factor_depends_on_the_value_set_witness :
  [10; 20; 30] = [10; 20; 30]
  ∧ (N.of_nat (length [10; 20; 30]) ≤ @Code_max uint8_codes + 1 →
     ∀ i j x, (i < 4)%nat → (j < 3)%nat →
              scenario_B_input !! i = Some x → [30; 20; 10] !! j = Some x →
              [0; 2; 1; 0] !! i = [2; 1; 0] !! j).
Proof.
  apply (@create_factor_depends_on_the_value_set uint8_codes N _ _ _ N.lt _ _ _
           4 scenario_B_input [0; 0; 0; 0] [10; 20; 30] [0; 2; 1; 0]
           3 [30; 20; 10] [0; 0; 0] [10; 20; 30] [2; 1; 0]).
  - vm_compute; reflexivity.
  - vm_compute; reflexivity.
  - intros x. unfold scenario_B_input. simpl.
    rewrite !elem_of_cons, !elem_of_nil. tauto.
Defined.

(** X5. On an input that already ascends strictly, [create_factor] is
    the identity: the levels are the input and the codes are
    0, 1, ..., n-1 (for [n] that fits [Code_] and the size type). *)
Theorem create_factor_of_ascending_input `{Platform} {A : Type} `{Countable A}
    `{Inhabited A} (lt : relation A) `{!RelDecision lt} `{!StrictOrder lt}
    `{!Trichotomy lt} (n : nat) (input : list A) (codes : list N) :
  StronglySorted lt input → length input = n →
  N.of_nat n ≤ Code_max + 1 → N.of_nat n ≤ size_max →
  create_factor lt n input codes = Returned input (N.of_nat <$> seq 0 n).
Proof. intros. by apply create_factor_ascending. Qed.

Lemma create_factor_of_ascending_input_witness :
  StronglySorted N.lt [10; 20; 30]
  ∧ @create_factor uint8_codes N _ _ _ N.lt _ 3 [10; 20; 30] [0; 0; 0]
    = Returned [10; 20; 30] (N.of_nat <$> seq 0 3).
Proof.
  assert (StronglySorted N.lt [10; 20; 30]) as Hsorted
    by (repeat constructor; vm_compute; reflexivity).
  split; [exact Hsorted|].
  apply (@create_factor_of_ascending_input uint8_codes N _ _ _ N.lt _ _ _ 3
           [10; 20; 30] [0; 0; 0] Hsorted); [reflexivity|vm_compute; discriminate..].
Defined.

(** X6. [create_factor] is idempotent on its levels: applied to the
    levels it has returned (when they fit [Code_]) it returns them
    unchanged, with the codes 0, 1, ..., M-1. *)
Theorem create_factor_of_its_levels `{Platform} {A : Type} `{Countable A}
    `{Inhabited A} (lt : relation A) `{!RelDecision lt} `{!StrictOrder lt}
    `{!Trichotomy lt}
    (n : nat) (input : list A) (codes : list N) (levels : list A) (codes' : list N)
    (codes0 : list N) :
  create_factor lt n input codes = Returned levels codes' →
  N.of_nat (length levels) ≤ Code_max + 1 →
  create_factor lt (length levels) levels codes0
  = Returned levels (N.of_nat <$> seq 0 (length levels)).
Proof.
  intros Hrun Hcap.
  pose proof (create_factor_sorted lt _ _ _ _ _ Hrun) as Hsorted.
  pose proof (create_factor_levels_length lt _ _ _ _ _ Hrun) as [_ Hsize].
  by apply create_factor_ascending.
Qed.

Lemma create_factor_of_its_levels_witness :
  @create_factor uint8_codes N _ _ _ N.lt _ 4 scenario_B_input [0; 0; 0; 0]
  = Returned [10; 20; 30] [0; 2; 1; 0]
  ∧ @create_factor uint8_codes N _ _ _ N.lt _ 3 [10; 20; 30] []
    = Returned [10; 20; 30] [0; 1; 2].
Proof.
  assert (@create_factor uint8_codes N _ _ _ N.lt _ 4 scenario_B_input [0; 0; 0; 0]
          = Returned [10; 20; 30] [0; 2; 1; 0]) as Hrun by (vm_compute; reflexivity).
  split; [exact Hrun|].
  apply (@create_factor_of_its_levels uint8_codes N _ _ _ N.lt _ _ _ 4
           scenario_B_input [0; 0; 0; 0] [10; 20; 30] [0; 2; 1; 0] [] Hrun).
  vm_compute; discriminate.
Defined.

(** X7. Factorising the codes of a factor changes nothing: applied to
    the codes that [create_factor] has returned (when the levels fit
    [Code_]), [create_factor] returns the same codes, with the levels
    0, 1, ..., M-1. *)
Theorem create_factor_of_its_codes `{Platform} {A : Type} `{Countable A}
    `{Inhabited A} (lt : relation A) `{!RelDecision lt} `{!StrictOrder lt}
    `{!Trichotomy lt}
    (n : nat) (input : list A) (codes : list N) (levels : list A) (codes' : list N)
    (codes0 : list N) :
  create_factor lt n input codes = Returned levels codes' →
  (n ≤ length input)%nat → N.of_nat n ≤ size_max →
  N.of_nat (length levels) ≤ Code_max + 1 →
  create_factor N.lt n codes' codes0
  = Returned (N.of_nat <$> seq 0 (length levels)) codes'.
Proof.
  intros Hrun Hlen Hsize Hcap.
  pose proof (create_factor_codes_length lt _ _ _ _ _ Hrun) as Hcodes.
  destruct (create_factor_returns N.lt n codes' codes0 Hsize) as (levels2 & codes2 & Hrun2).
  assert (levels2 = N.of_nat <$> seq 0 (length levels)) as ->.
  { apply (StronglySorted_strict_unique N.lt).
    - apply (create_factor_sorted N.lt _ _ _ _ _ Hrun2).
    - apply StronglySorted_seq_N.
    - intros c. rewrite (create_factor_levels_elem N.lt _ _ _ _ _ Hrun2).
      rewrite take_ge by lia. rewrite list_elem_of_fmap. split.
      + intros [i Hi]%list_elem_of_lookup.
        pose proof (create_factor_codes_range lt _ _ _ _ _ Hrun i c Hi).
        exists (N.to_nat c). split; [lia|]. apply elem_of_seq. lia.
      + intros (j & -> & Hj%elem_of_seq).
        destruct (create_factor_dense lt _ _ _ _ _ Hrun Hcap j) as (i & _ & Hi); [lia|].
        by eapply list_elem_of_lookup_2. }
  rewrite Hrun2. f_equal.
  apply (list_eq_same_length _ _ n); [lia| |].
  - rewrite (create_factor_codes_length N.lt _ _ _ _ _ Hrun2). lia.
  - intros i c2 c Hi Hc2 Hc.
    destruct (create_factor_round_trip N.lt _ _ _ _ _ Hrun2) with i c
      as (c2' & Hc2' & Hlevel); [|done..|].
    { rewrite length_fmap, length_seq. done. }
    simplify_eq. rewrite list_lookup_fmap in Hlevel.
    destruct (seq 0 (length levels) !! N.to_nat c2) as [k|] eqn:Hk; simplify_eq/=.
    apply lookup_seq in Hk as [-> _]. simpl. lia.
Qed.

Lemma create_factor_of_its_codes_witness :
  @create_factor uint8_codes N _ _ _ N.lt _ 4 scenario_B_input [0; 0; 0; 0]
  = Returned [10; 20; 30] [0; 2; 1; 0]
  ∧ @create_factor uint8_codes N _ _ _ N.lt _ 4 [0; 2; 1; 0] []
    = Returned [0; 1; 2] [0; 2; 1; 0].
Proof.
  assert (@create_factor uint8_codes N _ _ _ N.lt _ 4 scenario_B_input [0; 0; 0; 0]
          = Returned [10; 20; 30] [0; 2; 1; 0]) as Hrun by (vm_compute; reflexivity).
  split; [exact Hrun|].
  apply (@create_factor_of_its_codes uint8_codes N _ _ _ N.lt _ _ _ 4
           scenario_B_input [0; 0; 0; 0] [10; 20; 30] [0; 2; 1; 0] [] Hrun).
  - vm_compute. lia.
  - vm_compute; discriminate.
  - vm_compute; discriminate.
Defined.

(** X8. The order in which the pairs of the [std::unordered_map] are
    copied into the vector [unique] (line 53) has no influence on the
    result: whatever that order is, [std::sort] (line 57) leaves the
    same vector. *)
Theorem unordered_map_order_is_irrelevant {A : Type} `{Countable A}
    (lt : relation A) `{!RelDecision lt} `{!StrictOrder lt} `{!Trichotomy lt}
    (mapping : gmap A N) (unique : list (A * N)) :
  unique ≡ₚ map_to_list mapping →
  std_sort lt unique = std_sort lt (map_to_list mapping).
Proof. apply std_sort_order_irrelevant; apply _. Qed.

Lemma unordered_map_order_is_irrelevant_witness :
  std_sort N.lt (reverse (map_to_list ({[10 := 0; 30 := 1; 20 := 2]} : gmap N N)))
  = std_sort N.lt (map_to_list ({[10 := 0; 30 := 1; 20 := 2]} : gmap N N)).
Proof.
  apply (@unordered_map_order_is_irrelevant N _ _ N.lt _ _ _).
  apply reverse_Permutation.
Defined.

(** The labels of the map are the sizes the map went through, each
    converted to [Code_]. *)
Lemma first_pass_labels `{Platform} {A : Type} `{Countable A} (xs : list A) :
  let mapping := (foldl label_step (∅, []) xs).1 in
  (map_to_list mapping).*2 ≡ₚ (λ j, to_Code (N.of_nat j)) <$> seq 0 (size mapping).
Proof.
  induction xs as [|x xs IH] using rev_ind.
  { simpl. by rewrite map_to_list_empty, map_size_empty. }
  rewrite foldl_snoc. destruct (foldl label_step (∅, []) xs) as [mapping cs].
  cbn [fst] in *. unfold label_step.
  destruct (mapping !! x) as [c|] eqn:Hx; [done|]. cbn [fst].
  rewrite map_to_list_insert, map_size_insert_None by done.
  rewrite seq_S, fmap_app. cbn [plus fmap list_fmap snd]. rewrite IH.
  apply Permutation_cons_append.
Qed.

(** X9. The first pass of [create_factor] (lines 42-52), for an unsigned
    [Code_] of any width, keeps every label below the number of entries
    of the map: the labels are the sizes the map went through, converted
    to [Code_] (reduced modulo [2 ^ Code_bits]), so the labels stored in
    the map and the provisional codes written to [codes] are all below
    [mapping.size()], which is at most the number of values seen.  So
    the writes [remapping[unique[u].second]] (line 62) and the reads
    [remapping[codes[i]]] (line 68) stay inside [remapping]. *)
Theorem create_factor_labels_in_bounds `{Platform} {A : Type} `{Countable A}
    (xs : list A) :
  let mapping := (foldl label_step (∅, []) xs).1 in
  let cs := (foldl label_step (∅, []) xs).2 in
  (map_to_list mapping).*2 ≡ₚ (λ j, to_Code (N.of_nat j)) <$> seq 0 (size mapping)
  ∧ (∀ x c, mapping !! x = Some c → (N.to_nat c < size mapping)%nat)
  ∧ (∀ c, c ∈ cs → (N.to_nat c < size mapping)%nat)
  ∧ (size mapping ≤ length xs)%nat.
Proof.
  intros mapping cs. pose proof (first_pass_spec xs) as Hinv.
  fold mapping cs in Hinv. split_and!.
  - apply first_pass_labels.
  - apply (fp_label _ _ _ Hinv).
  - intros c [i Hi]%list_elem_of_lookup.
    destruct (lookup_lt_is_Some_2 xs i) as [x Hx].
    { apply lookup_lt_Some in Hi. by rewrite <-(fp_length _ _ _ Hinv). }
    destruct (fp_seen _ _ _ Hinv i x Hx) as (c' & Hc' & Hcs). simplify_eq.
    by eapply (fp_label _ _ _ Hinv).
  - apply (fp_size _ _ _ Hinv).
Qed.

(** ** Properties of [combine_to_factor] *)

(** X10. The comparator [cmp] of lines 68-77, which the [std::map] is
    ordered by, is a strict weak ordering of the observations whenever
    [operator<] is a strict total order of [Input_]: it is irreflexive
    and transitive, and being equivalent under it (neither below the
    other) is transitive. *)
Theorem cmp_is_a_strict_weak_ordering {A : Type} `{Inhabited A}
    (lt : relation A) `{!RelDecision lt} `{!StrictOrder lt} `{!Trichotomy lt}
    (inputs : list (list A)) :
  (∀ i, cmp lt inputs i i = false)
  ∧ (∀ i j k, cmp lt inputs i j = true → cmp lt inputs j k = true →
              cmp lt inputs i k = true)
  ∧ (∀ i j k, cmp lt inputs i j = false → cmp lt inputs j i = false →
              cmp lt inputs j k = false → cmp lt inputs k j = false →
              cmp lt inputs i k = false ∧ cmp lt inputs k i = false).
Proof.
  assert (∀ i k, observation inputs i = observation inputs k →
                 cmp lt inputs i k = false) as Hequal.
  { intros i k Hkey. apply not_true_iff_false. rewrite (cmp_spec lt), Hkey.
    apply (lex_lt_irrefl lt). }
  split_and!.
  - intros i. by apply Hequal.
  - intros i j k. rewrite !(cmp_spec lt). apply (lex_lt_trans lt).
  - intros i j k Hij Hji Hjk Hkj.
    pose proof (cmp_false_false lt inputs i j Hij Hji).
    pose proof (cmp_false_false lt inputs j k Hjk Hkj).
    split; apply Hequal; congruence.
Qed.

Lemma cmp_is_a_strict_weak_ordering_witness :
  (∀ i, cmp N.lt scenario_A_inputs i i = false)
  ∧ (∀ i j k, cmp N.lt scenario_A_inputs i j = true →
              cmp N.lt scenario_A_inputs j k = true →
              cmp N.lt scenario_A_inputs i k = true)
  ∧ (∀ i j k, cmp N.lt scenario_A_inputs i j = false →
              cmp N.lt scenario_A_inputs j i = false →
              cmp N.lt scenario_A_inputs j k = false →
              cmp N.lt scenario_A_inputs k j = false →
              cmp N.lt scenario_A_inputs i k = false
              ∧ cmp N.lt scenario_A_inputs k i = false).
Proof. exact (@cmp_is_a_strict_weak_ordering N _ N.lt _ _ _ scenario_A_inputs). Defined.

(** X11. The predicate [eq] of lines 80-87 holds exactly of the pairs
    of observations that [cmp] leaves equivalent, when [operator<] is a
    strict total order.  So whenever [mapping.find(current)] returns an
    entry, [eq] holds of it, and the test [!eq(mIt->first, current)] of
    line 92 never sends a found entry to the branch that inserts. *)
Theorem eq_agrees_with_cmp {A : Type} `{Inhabited A} `{!EqDecision A}
    (lt : relation A) `{!RelDecision lt} `{!StrictOrder lt} `{!Trichotomy lt}
    (inputs : list (list A)) :
  (∀ i j, eq_ inputs i j = true
          ↔ cmp lt inputs i j = false ∧ cmp lt inputs j i = false)
  ∧ (∀ mapping current mIt,
       map_find lt inputs mapping current = Some mIt →
       eq_ inputs mIt.1 current = true).
Proof.
  split.
  - intros i j. rewrite eq_spec. split.
    + intros Hkey. split; apply not_true_iff_false; rewrite (cmp_spec lt), Hkey;
        apply (lex_lt_irrefl lt).
    + intros [Hij Hji]. by apply (cmp_false_false lt).
  - intros mapping current mIt [_ Hkey]%(map_find_Some lt). by apply eq_spec.
Qed.

Lemma eq_agrees_with_cmp_witness :
  (∀ i j, eq_ scenario_A_inputs i j = true
          ↔ cmp N.lt scenario_A_inputs i j = false
            ∧ cmp N.lt scenario_A_inputs j i = false)
  ∧ (∀ mapping current mIt,
       map_find N.lt scenario_A_inputs mapping current = Some mIt →
       eq_ scenario_A_inputs mIt.1 current = true).
Proof. exact (@eq_agrees_with_cmp N _ _ N.lt _ _ _ scenario_A_inputs). Defined.

(** X12. The table that [combine_to_factor] returns for one or more
    variables has one column per variable, all of the same length, at
    most [n] rows, and its rows are exactly the combinations observed:
    every row is the combination of some observation, and the
    combination of every observation is a row.  This holds for a strict
    total [operator<] and an unsigned [Code_] of any width, also one too
    narrow for the number of combinations. *)
Theorem combine_to_factor_rows_are_the_observations `{Platform} {A : Type}
    `{Countable A} `{Inhabited A} (lt : relation A) `{!RelDecision lt}
    `{!StrictOrder lt} `{!Trichotomy lt}
    (n : nat) (inputs : list (list A)) (codes : list N)
    (table : list (list A)) (codes' : list N) :
  (1 ≤ length inputs)%nat → arrays_of_length n inputs →
  combine_to_factor lt n inputs codes = Returned table codes' →
  length table = length inputs
  ∧ Forall (λ col, length col = table_length table) table
  ∧ (table_length table ≤ n)%nat
  ∧ (∀ row, (∃ j, (j < table_length table)%nat ∧ table_row table j = Some row)
            ↔ (∃ i, (i < n)%nat ∧ row = observation inputs i)).
Proof. intros. by apply (combine_to_factor_shape_all lt n inputs codes table codes'). Qed.

Lemma combine_to_factor_rows_are_the_observations_witness :
  arrays_of_length 4 scenario_A_inputs
  ∧ ∃ table codes',
      @combine_to_factor uint8_codes N _ _ _ N.lt _ 4 scenario_A_inputs [0; 0; 0; 0]
      = Returned table codes'
      ∧ length table = length scenario_A_inputs
      ∧ Forall (λ col, length col = table_length table) table
      ∧ (table_length table ≤ 4)%nat
      ∧ (∀ row, (∃ j, (j < table_length table)%nat ∧ table_row table j = Some row)
                ↔ (∃ i, (i < 4)%nat ∧ row = observation scenario_A_inputs i)).
Proof.
  assert (arrays_of_length 4 scenario_A_inputs) as Hlen by (repeat constructor).
  split; [exact Hlen|].
  assert (∃ table codes',
            @combine_to_factor uint8_codes N _ _ _ N.lt _ 4 scenario_A_inputs [0; 0; 0; 0]
            = Returned table codes') as (table & codes' & Hrun).
  { eexists _, _. vm_compute. reflexivity. }
  exists table, codes'. split; [exact Hrun|].
  apply (@combine_to_factor_rows_are_the_observations uint8_codes N _ _ _ N.lt _ _ _
           4 scenario_A_inputs [0; 0; 0; 0] table codes'); [|exact Hlen|exact Hrun].
  vm_compute. lia.
Defined.

(** X13. For a strict total [operator<] and an unsigned [Code_] of any
    width, every code that [combine_to_factor] returns for one or more
    variables is a valid row index of the returned table, and (for any
    number of variables) two observations with the same combination of
    values get the same code; this holds also when the unsigned [Code_]
    is too narrow for the number of combinations and the labels have
    wrapped around. *)
Theorem combine_to_factor_codes_index_the_table `{Platform} {A : Type}
    `{Countable A} `{Inhabited A} (lt : relation A) `{!RelDecision lt}
    `{!StrictOrder lt} `{!Trichotomy lt}
    (n : nat) (inputs : list (list A)) (codes : list N)
    (table : list (list A)) (codes' : list N) :
  arrays_of_length n inputs →
  combine_to_factor lt n inputs codes = Returned table codes' →
  ((1 ≤ length inputs)%nat →
   ∀ i c, codes' !! i = Some c → (N.to_nat c < table_length table)%nat)
  ∧ (∀ i j, (i < n)%nat → (j < n)%nat →
            observation inputs i = observation inputs j → codes' !! i = codes' !! j).
Proof.
  intros Hlen Hrun. split.
  - intros Hk i c. by apply (combine_to_factor_codes_range_all lt n inputs codes).
  - intros i j. by apply (combine_to_factor_equal_observations_all lt n inputs codes table).
Qed.

Lemma combine_to_factor_codes_index_the_table_witness :
  arrays_of_length 257 [distinct_257; replicate 257 0]
  ∧ ∃ table codes',
      @combine_to_factor uint8_codes N _ _ _ N.lt _ 257
        [distinct_257; replicate 257 0] (replicate 257 0)
      = Returned table codes'
      ∧ table_length table = 257%nat
      ∧ ((1 ≤ length [distinct_257; replicate 257 0%N])%nat →
         ∀ i c, codes' !! i = Some c → (N.to_nat c < table_length table)%nat)
      ∧ (∀ i j, (i < 257)%nat → (j < 257)%nat →
                observation [distinct_257; replicate 257 0] i
                = observation [distinct_257; replicate 257 0] j →
                codes' !! i = codes' !! j).
Proof.
  assert (arrays_of_length 257 [distinct_257; replicate 257 0]) as Hlen
    by (repeat constructor).
  split; [exact Hlen|].
  assert (∃ table codes',
            @combine_to_factor uint8_codes N _ _ _ N.lt _ 257
              [distinct_257; replicate 257 0] (replicate 257 0)
            = Returned table codes'
            ∧ table_length table = 257%nat) as (table & codes' & Hrun & Hrows).
  { eexists _, _. split; vm_compute; reflexivity. }
  exists table, codes'. split; [exact Hrun|]. split; [exact Hrows|].
  exact (@combine_to_factor_codes_index_the_table uint8_codes N _ _ _ N.lt _ _ _
           257 [distinct_257; replicate 257 0] (replicate 257 0) table codes' Hlen Hrun).
Defined.

(** X14. When the table fits [Code_], the codes of [combine_to_factor]
    order the observations as their combinations of values do,
    lexicographically from the first variable on: one combination is
    below another exactly when its code is, and two combinations are
    equal exactly when their codes are. *)
Theorem combine_to_factor_codes_follow_the_order `{Platform} {A : Type}
    `{Countable A} `{Inhabited A} (lt : relation A) `{!RelDecision lt}
    `{!StrictOrder lt} `{!Trichotomy lt}
    (n : nat) (inputs : list (list A)) (codes : list N)
    (table : list (list A)) (codes' : list N) :
  arrays_of_length n inputs →
  combine_to_factor lt n inputs codes = Returned table codes' →
  N.of_nat (table_length table) ≤ Code_max + 1 →
  ∀ i j c d,
    (i < n)%nat → (j < n)%nat → codes' !! i = Some c → codes' !! j = Some d →
    (lex_lt lt (observation inputs i) (observation inputs j) ↔ c < d)
    ∧ (observation inputs i = observation inputs j ↔ c = d).
Proof.
  intros Hlen Hrun Hcap i j c d.
  by apply (combine_to_factor_order_all lt n inputs codes table).
Qed.

Lemma combine_to_factor_codes_follow_the_order_witness :
  (lex_lt N.lt (observation scenario_A_inputs 1) (observation scenario_A_inputs 2)
   ↔ 0 < 2)
  ∧ (observation scenario_A_inputs 1 = observation scenario_A_inputs 2 ↔ 0 = 2).
Proof.
  apply (@combine_to_factor_codes_follow_the_order uint8_codes N _ _ _ N.lt _ _ _
           4 scenario_A_inputs [0; 0; 0; 0] [[1; 2; 2; 3]; [1; 1; 2; 1]] [1; 0; 2; 3]);
    try (vm_compute; reflexivity); try (vm_compute; discriminate);
    try lia; repeat constructor.
Defined.

(** ** [combine_to_factor_unused]: what depends on the cardinalities only *)

Section unused_cardinalities.
Context `{Platform}.
Implicit Types (inputs : list (list N * N)) (cards : list N) (n f g i j : nat).

Lemma lookup_total_cardinality inputs inputs' f :
  inputs.*2 = inputs'.*2 → (f < length inputs)%nat →
  (inputs !!! f).2 = (inputs' !!! f).2.
Proof.
  intros Hcards Hf.
  assert (f < length inputs')%nat as Hf'.
  { apply (f_equal length) in Hcards. rewrite !length_fmap in Hcards. lia. }
  rewrite <-(list_lookup_total_fmap snd inputs f Hf).
  rewrite <-(list_lookup_total_fmap snd inputs' f Hf'). by rewrite Hcards.
Qed.

Lemma table_step_cardinality finfo finfo' outer_repeats inner_repeats :
  finfo.2 = finfo'.2 →
  table_step finfo outer_repeats inner_repeats
  = table_step finfo' outer_repeats inner_repeats.
Proof. intros Hc. unfold table_step. by rewrite Hc. Qed.

Lemma table_loop_cardinalities inputs inputs' f output outer_repeats inner_repeats :
  inputs.*2 = inputs'.*2 → (f ≤ length inputs)%nat →
  table_loop inputs f output outer_repeats inner_repeats
  = table_loop inputs' f output outer_repeats inner_repeats.
Proof.
  intros Hcards. revert output outer_repeats inner_repeats.
  induction f as [|f IH]; intros output outer inner Hf; [done|].
  cbn [table_loop].
  rewrite (table_step_cardinality (inputs !!! f) (inputs' !!! f))
    by (apply lookup_total_cardinality; [done|lia]).
  destruct (table_step (inputs' !!! f) outer inner) as [[[out outer'] inner']|]; [|done].
  cbn [mbind option_bind]. apply IH. lia.
Qed.


Lemma code_loop_cardinalities inputs inputs' f ncombos codes codes0 next codes1 :
  inputs.*2 = inputs'.*2 → (f ≤ length inputs)%nat →
  code_loop inputs f ncombos codes = Returned next codes1 →
  ∃ codes2, code_loop inputs' f ncombos codes0 = Returned next codes2.
Proof.
  intros Hcards. revert ncombos codes codes0.
  induction f as [|f IH]; intros ncombos codes codes0 Hf; cbn [code_loop].
  { intros [= <- <-]. eauto. }
  unfold code_step.
  rewrite <-(lookup_total_cardinality inputs inputs' f) by (done || lia).
  destruct (sanisizer_product ncombos (inputs !!! f).2) as [next_ncombos|]; [|done].
  cbn [mbind option_bind]. apply IH. lia.
Qed.

Lemma combine_to_factor_unused_cardinalities n inputs codes n' inputs' codes0 table codes1 :
  inputs.*2 = inputs'.*2 →
  combine_to_factor_unused n inputs codes = Returned table codes1 →
  ∃ codes2, combine_to_factor_unused n' inputs' codes0 = Returned table codes2.
Proof.
  intros Hcards.
  assert (length inputs' = length inputs) as Hlength.
  { apply (f_equal length) in Hcards. by rewrite !length_fmap in Hcards. }
  unfold combine_to_factor_unused. rewrite Hlength.
  destruct (sanisizer_create (N.of_nat (length inputs)) []) as [output|]; [|done].
  destruct (length inputs) as [|[|k]] eqn:Hk.
  - intros [= <- <-]. eauto.
  - rewrite <-(lookup_total_cardinality inputs inputs' 0) by (done || lia).
    destruct (sanisizer_resize (inputs !!! 0%nat).2 0) as [out0|]; [|done].
    intros [= <- <-]. eauto.
  - replace (S (S k) - 1)%nat with (S k) by lia.
    rewrite <-(lookup_total_cardinality inputs inputs' (S k)) by (done || lia).
    destruct (code_loop inputs (S k) _ _) as [next codes2| |] eqn:Hloop; [|done..].
    destruct (code_loop_cardinalities inputs inputs' (S k) _ _
                (copy_n (inputs' !!! S k).1 n') _ _ Hcards ltac:(lia) Hloop)
      as [codes3 ->].
    destruct (sanisizer_cast_size next); [|done].
    rewrite <-(table_loop_cardinalities inputs inputs') by (done || lia).
    destruct (table_loop inputs _ _ _ _) as [table'|]; [|done].
    intros [= <- <-]. eauto.
Qed.
End unused_cardinalities.

(** ** [combine_to_factor_unused]: the table loop after the code loop *)

Section table_after_code.
Context `{Platform}.
Implicit Types (inputs : list (list N * N)) (cards : list N) (n f g i : nat).






Section run.
Variables (n : nat) (inputs : list (list N * N)) (ncombos : N) (codes : list N).
Hypothesis Hk : (2 ≤ length inputs)%nat.
Hypothesis Hend : code_loop_reaches n inputs 0 ncombos codes.


End run.





End table_after_code.

(** ** [combine_to_factor_unused]: digits and order *)

(** Tuples below the cardinalities are ordered as their mixed-radix
    codes are. *)
Lemma mixed_radix_lex_lt cards vals vals' :
  Forall2 (λ v c, v < c) vals cards → Forall2 (λ v c, v < c) vals' cards →
  lex_lt N.lt vals vals' ↔ mixed_radix cards vals < mixed_radix cards vals'.
Proof.
  intros Hvals Hvals'. pose proof (in_range_pos _ _ Hvals) as Hpos.
  pose proof (mixed_radix_lt _ _ Hvals) as Hlt.
  pose proof (mixed_radix_lt _ _ Hvals') as Hlt'.
  pose proof (digits_mixed_radix _ _ Hvals) as Hd.
  pose proof (digits_mixed_radix _ _ Hvals') as Hd'.
  split.
  - intros Hlex.
    destruct (N.lt_trichotomy (mixed_radix cards vals) (mixed_radix cards vals'))
      as [?|[Heq|Hgt]]; [done|..].
    + rewrite Heq, Hd' in Hd. subst vals'. by destruct (lex_lt_irrefl N.lt vals).
    + pose proof (digits_lex_lt cards _ _ Hpos Hgt Hlt) as Hlex'.
      rewrite Hd, Hd' in Hlex'.
      destruct (lex_lt_irrefl N.lt vals). by eapply (lex_lt_trans N.lt).
  - intros Hm. pose proof (digits_lex_lt cards _ _ Hpos Hm Hlt') as Hlex.
    by rewrite Hd, Hd' in Hlex.
Qed.

Section unused_digits.
Context `{Platform}.
Implicit Types (inputs : list (list N * N)) (cards : list N) (n f g i j : nat).

Lemma combine_to_factor_unused_codes_lookup n inputs codes table codes' i code :
  (1 ≤ length inputs)%nat →
  arrays_of_length n inputs.*1 → values_in_range inputs →
  product inputs.*2 ≤ Code_max →
  combine_to_factor_unused n inputs codes = Returned table codes' →
  codes' !! i = Some code →
  (i < n)%nat ∧ code = mixed_radix inputs.*2 (observation inputs.*1 i).
Proof.
  intros Hk Hlen Hrange Hfit Hrun Hcode.
  destruct (combine_to_factor_unused_Returned n inputs codes table codes' Hk Hfit Hrun)
    as [_ Hcodes].
  rewrite (Hcodes Hlen Hrange) in Hcode.
  assert (i < n)%nat as Hi.
  { apply lookup_lt_Some in Hcode. by rewrite suffix_codes_length in Hcode. }
  rewrite suffix_codes_0_lookup in Hcode by done. split; [done|congruence].
Qed.

Lemma combine_to_factor_unused_column n inputs codes table codes' g c :
  product inputs.*2 ≤ Code_max →
  combine_to_factor_unused n inputs codes = Returned table codes' →
  inputs.*2 !! g = Some c →
  ∃ col, table !! g = Some col
         ∧ length col = N.to_nat (product inputs.*2)
         ∧ ∀ r : N, r < product inputs.*2 →
                col !! N.to_nat r = Some ((r / product (drop (S g) inputs.*2)) mod c).
Proof.
  intros Hfit Hrun Hc.
  assert (g < length inputs)%nat as Hg.
  { apply lookup_lt_Some in Hc. by rewrite length_fmap in Hc. }
  destruct (combine_to_factor_unused_Returned n inputs codes table codes')
    as [-> _]; [lia|done..|].
  exists (column inputs.*2 g). split_and!.
  - unfold cartesian_table. rewrite list_lookup_fmap, length_fmap.
    by rewrite lookup_seq_lt.
  - by apply (column_length _ _ c).
  - intros r Hr. rewrite (column_lookup _ _ c) by (done || lia).
    by rewrite N2Nat.id.
Qed.

Lemma combine_to_factor_unused_digit n inputs codes table codes' i code g finfo :
  arrays_of_length n inputs.*1 → values_in_range inputs →
  product inputs.*2 ≤ Code_max →
  combine_to_factor_unused n inputs codes = Returned table codes' →
  codes' !! i = Some code → inputs !! g = Some finfo →
  (code / product (drop (S g) inputs.*2)) mod finfo.2 = finfo.1 !!! i.
Proof.
  intros Hlen Hrange Hfit Hrun Hcode Hfinfo.
  assert (1 ≤ length inputs)%nat as Hk by (apply lookup_lt_Some in Hfinfo; lia).
  destruct (combine_to_factor_unused_codes_lookup n inputs codes table codes' i code)
    as [Hi ->]; [done..|].
  pose proof (observation_in_range _ _ _ Hlen Hrange Hi) as Hobs.
  pose proof (digits_mixed_radix _ _ Hobs) as Hd.
  assert (inputs.*2 !! g = Some finfo.2) as Hc by by rewrite list_lookup_fmap, Hfinfo.
  pose proof (digits_lookup inputs.*2
                (mixed_radix inputs.*2 (observation inputs.*1 i)) g _ Hc) as Hg.
  rewrite Hd, (observation_lookup _ i _ _ Hfinfo) in Hg. congruence.
Qed.

Lemma combine_to_factor_unused_order n inputs codes table codes' i j c d :
  arrays_of_length n inputs.*1 → values_in_range inputs →
  product inputs.*2 ≤ Code_max →
  combine_to_factor_unused n inputs codes = Returned table codes' →
  codes' !! i = Some c → codes' !! j = Some d →
  (lex_lt N.lt (observation inputs.*1 i) (observation inputs.*1 j) ↔ c < d)
  ∧ (observation inputs.*1 i = observation inputs.*1 j ↔ c = d).
Proof.
  intros Hlen Hrange Hfit Hrun Hc Hd.
  destruct (decide (length inputs = 0%nat)) as [Hzero|Hk].
  { destruct inputs; [|done]. rewrite combine_to_factor_unused_no_variables in Hrun.
    injection Hrun as <- <-.
    apply lookup_replicate in Hc as [-> _]. apply lookup_replicate in Hd as [-> _].
    simpl. split; split; try done; lia. }
  destruct (combine_to_factor_unused_codes_lookup n inputs codes table codes' i c)
    as [Hi ->]; [lia|done..|].
  destruct (combine_to_factor_unused_codes_lookup n inputs codes table codes' j d)
    as [Hj ->]; [lia|done..|].
  pose proof (observation_in_range _ _ _ Hlen Hrange Hi) as Hobs.
  pose proof (observation_in_range _ _ _ Hlen Hrange Hj) as Hobs'.
  split; [by apply mixed_radix_lex_lt|]. split; [by intros ->|].
  intros Heq. by rewrite <-(digits_mixed_radix _ _ Hobs), Heq, digits_mixed_radix.
Qed.

Lemma combine_to_factor_unused_returns_or_throws n inputs codes :
  (2 ≤ length inputs)%nat → N.of_nat (length inputs) ≤ size_max →
  Forall (λ c, 0 < c) inputs.*2 →
  (inputs !!! (length inputs - 1)%nat).2 ≤ Code_max →
  (product inputs.*2 ≤ Code_max → product inputs.*2 ≤ size_max →
   ∃ codes', combine_to_factor_unused n inputs codes
             = Returned (cartesian_table inputs.*2) codes')
  ∧ (Code_max < product inputs.*2 ∨ size_max < product inputs.*2 →
     ∃ codes', combine_to_factor_unused n inputs codes = Thrown codes').
Proof.
  intros Hk Hksize Hpos Hlast. split.
  - intros Hfit Hsize.
    destruct (combine_to_factor_unused_general n inputs codes Hk Hpos Hfit Hksize)
      as (codes' & Hrun & _).
    rewrite decide_True in Hrun by done. eauto.
  - intros Hover.
    destruct (decide (Code_max < product inputs.*2)) as [Hcode|Hfit].
    { by apply combine_to_factor_unused_throws. }
    destruct Hover as [?|Hsize]; [done|].
    destruct (combine_to_factor_unused_general n inputs codes Hk Hpos ltac:(lia) Hksize)
      as (codes' & Hrun & _).
    rewrite decide_False in Hrun by lia. eauto.
Qed.
End unused_digits.

(** ** Properties of [combine_to_factor_unused] *)

(** X15. The table that [combine_to_factor_unused] returns depends on
    the declared cardinalities only, not on the observations: a call
    with the same cardinalities and any other observations, any other
    [n] and any other content of the codes array also returns, and
    returns the same table. *)
Theorem combine_to_factor_unused_table_ignores_observations `{Platform}
    (n : nat) (inputs : list (list N * N)) (codes : list N)
    (n' : nat) (inputs' : list (list N * N)) (codes0 : list N)
    (table : list (list N)) (codes1 : list N) :
  inputs.*2 = inputs'.*2 →
  combine_to_factor_unused n inputs codes = Returned table codes1 →
  ∃ codes2, combine_to_factor_unused n' inputs' codes0 = Returned table codes2.
Proof. apply combine_to_factor_unused_cardinalities. Qed.

Lemma combine_to_factor_unused_table_ignores_observations_witness :
  ∃ codes2,
    @combine_to_factor_unused uint8_codes 0 [([], 2); ([], 3)] []
    = Returned [[0; 0; 0; 1; 1; 1]; [0; 1; 2; 0; 1; 2]] codes2.
Proof.
  apply (@combine_to_factor_unused_table_ignores_observations uint8_codes
           3 scenario_C_inputs [0; 0; 0] 0 [([], 2); ([], 3)] []
           [[0; 0; 0; 1; 1; 1]; [0; 1; 2; 0; 1; 2]] [2; 3; 1]).
  - reflexivity.
  - vm_compute. reflexivity.
Defined.

(** X16. With two or more variables, no cardinality of zero and a last
    cardinality that [Code_] can represent, [combine_to_factor_unused]
    returns the full table exactly when the product of the cardinalities
    fits both [Code_] and the size type, and leaves through an exception
    otherwise; it executes no undefined operation. *)
Theorem combine_to_factor_unused_returns_or_throws_exactly `{Platform}
    (n : nat) (inputs : list (list N * N)) (codes : list N) :
  (2 ≤ length inputs)%nat → N.of_nat (length inputs) ≤ size_max →
  Forall (λ c, 0 < c) inputs.*2 →
  (inputs !!! (length inputs - 1)%nat).2 ≤ Code_max →
  (product inputs.*2 ≤ Code_max → product inputs.*2 ≤ size_max →
   ∃ codes', combine_to_factor_unused n inputs codes
             = Returned (cartesian_table inputs.*2) codes')
  ∧ (Code_max < product inputs.*2 ∨ size_max < product inputs.*2 →
     ∃ codes', combine_to_factor_unused n inputs codes = Thrown codes').
Proof. apply combine_to_factor_unused_returns_or_throws. Qed.

Lemma combine_to_factor_unused_returns_or_throws_exactly_witness :
  (∃ codes', @combine_to_factor_unused uint8_codes 3 scenario_C_inputs [0; 0; 0]
             = Returned (cartesian_table scenario_C_inputs.*2) codes')
  ∧ (∃ codes', @combine_to_factor_unused uint8_codes 2 sixteen_by_sixteen [0; 0]
               = Thrown codes').
Proof.
  split.
  - apply (@combine_to_factor_unused_returns_or_throws_exactly uint8_codes
             3 scenario_C_inputs [0; 0; 0]);
      try (vm_compute; discriminate); try (vm_compute; lia).
    repeat constructor.
  - apply (@combine_to_factor_unused_returns_or_throws_exactly uint8_codes
             2 sixteen_by_sixteen [0; 0]);
      try (vm_compute; discriminate); try (vm_compute; lia).
    + repeat constructor.
    + left. vm_compute. reflexivity.
Defined.



(** X18. The table and the codes of [combine_to_factor_unused] are made
    of mixed-radix digits (when [Code_] can represent the product of the
    cardinalities): column [g] of the table has one entry per
    combination, entry [r] being [(r / P) mod c] for the cardinality [c]
    of variable [g] and the product [P] of the cardinalities after it;
    and for raw values below the cardinalities, the same digit of
    [codes[i]] is the raw value of variable [g] in observation [i]. *)
Theorem combine_to_factor_unused_digits `{Platform}
    (n : nat) (inputs : list (list N * N)) (codes : list N)
    (table : list (list N)) (codes' : list N) :
  product inputs.*2 ≤ Code_max →
  combine_to_factor_unused n inputs codes = Returned table codes' →
  ∀ g finfo,
    inputs !! g = Some finfo →
    (∃ col, table !! g = Some col
            ∧ length col = N.to_nat (product inputs.*2)
            ∧ ∀ r : N, r < product inputs.*2 →
                col !! N.to_nat r
                = Some ((r / product (drop (S g) inputs.*2)) mod finfo.2))
    ∧ (arrays_of_length n inputs.*1 → values_in_range inputs →
       ∀ i code, codes' !! i = Some code →
                 (code / product (drop (S g) inputs.*2)) mod finfo.2 = finfo.1 !!! i).
Proof.
  intros Hfit Hrun g finfo Hfinfo. split.
  - apply (combine_to_factor_unused_column n inputs codes table codes'); [done..|].
    by rewrite list_lookup_fmap, Hfinfo.
  - intros Hlen Hrange i code Hcode.
    by apply (combine_to_factor_unused_digit n inputs codes table codes' i code g).
Qed.

Lemma combine_to_factor_unused_digits_witness :
  (∃ col, [[0; 0; 0; 1; 1; 1]; [0; 1; 2; 0; 1; 2]] !! 0%nat = Some col
          ∧ length col = N.to_nat (product scenario_C_inputs.*2)
          ∧ ∀ r : N, r < product scenario_C_inputs.*2 →
              col !! N.to_nat r
              = Some ((r / product (drop 1 scenario_C_inputs.*2)) mod 2))
  ∧ (arrays_of_length 3 scenario_C_inputs.*1 → values_in_range scenario_C_inputs →
     ∀ i code, [2; 3; 1] !! i = Some code →
               (code / product (drop 1 scenario_C_inputs.*2)) mod 2
               = [0; 1; 0] !!! i).
Proof.
  apply (@combine_to_factor_unused_digits uint8_codes 3 scenario_C_inputs [0; 0; 0]
           [[0; 0; 0; 1; 1; 1]; [0; 1; 2; 0; 1; 2]] [2; 3; 1]
           ltac:(vm_compute; discriminate) ltac:(vm_compute; reflexivity)
           0%nat ([0; 1; 0], 2)).
  reflexivity.
Defined.

(** X19. For raw values below the cardinalities whose product [Code_]
    can represent, the codes of [combine_to_factor_unused] order the
    observations as their combinations of values do, lexicographically
    from the first variable on, and two observations have the same code
    exactly when they have the same combination. *)
Theorem combine_to_factor_unused_codes_follow_the_order `{Platform}
    (n : nat) (inputs : list (list N * N)) (codes : list N)
    (table : list (list N)) (codes' : list N) :
  arrays_of_length n inputs.*1 → values_in_range inputs →
  product inputs.*2 ≤ Code_max →
  combine_to_factor_unused n inputs codes = Returned table codes' →
  ∀ i j c d,
    codes' !! i = Some c → codes' !! j = Some d →
    (lex_lt N.lt (observation inputs.*1 i) (observation inputs.*1 j) ↔ c < d)
    ∧ (observation inputs.*1 i = observation inputs.*1 j ↔ c = d).
Proof.
  intros Hlen Hrange Hfit Hrun i j c d.
  by apply (combine_to_factor_unused_order n inputs codes table).
Qed.

Lemma combine_to_factor_unused_codes_follow_the_order_witness :
  (lex_lt N.lt (observation scenario_C_inputs.*1 2) (observation scenario_C_inputs.*1 0)
   ↔ 1 < 2)
  ∧ (observation scenario_C_inputs.*1 2 = observation scenario_C_inputs.*1 0 ↔ 1 = 2).
Proof.
  apply (@combine_to_factor_unused_codes_follow_the_order uint8_codes
           3 scenario_C_inputs [0; 0; 0]
           [[0; 0; 0; 1; 1; 1]; [0; 1; 2; 0; 1; 2]] [2; 3; 1]);
    try (vm_compute; reflexivity); try (vm_compute; discriminate).
  - repeat constructor.
  - repeat constructor; vm_compute; reflexivity.
Defined.

(** ** The three functions together *)

(** A table whose rows ascend and stay below the cardinalities has at
    most as many rows as there are combinations. *)
Lemma ascending_rows_bound (table : list (list N)) (cards : list N) (M : nat) :
  (∀ j, (j < M)%nat →
        ∃ row, table_row table j = Some row ∧ Forall2 (λ v c, v < c) row cards) →
  (∀ j j', (j < j' < M)%nat →
           ∃ row row', table_row table j = Some row ∧ table_row table j' = Some row'
                       ∧ lex_lt N.lt row row') →
  N.of_nat M ≤ product cards.
Proof.
  intros Hrange Hascending.
  assert (∀ j, (j < M)%nat →
               ∃ row, table_row table j = Some row
                      ∧ N.of_nat j ≤ mixed_radix cards row) as Hgrow.
  { induction j as [|j IH]; intros Hj.
    - destruct (Hrange 0%nat Hj) as (row & Hrow & _). exists row. split; [done|lia].
    - destruct (IH ltac:(lia)) as (row & Hrow & Hle).
      destruct (Hascending j (S j) ltac:(lia)) as (r & row' & Hr & Hrow' & Hlex).
      assert (r = row) as -> by congruence.
      destruct (Hrange j ltac:(lia)) as (r & Hr' & Hin).
      assert (r = row) as -> by congruence.
      destruct (Hrange (S j) Hj) as (r' & Hr'' & Hin').
      assert (r' = row') as -> by congruence.
      exists row'. split; [done|].
      apply (mixed_radix_lex_lt cards) in Hlex; [lia|done..]. }
  destruct M as [|M]; [lia|].
  destruct (Hgrow M ltac:(lia)) as (row & Hrow & Hle).
  destruct (Hrange M ltac:(lia)) as (r & Hr & Hin).
  assert (r = row) as -> by congruence.
  pose proof (mixed_radix_lt _ _ Hin). lia.
Qed.

Lemma table_row_is_Some {B} (table : list (list B)) (M j : nat) :
  Forall (λ col, length col = M) table → (j < M)%nat → is_Some (table_row table j).
Proof.
  intros Hcols Hj. unfold table_row. apply mapM_is_Some.
  eapply List.Forall_impl; [|exact Hcols]. simpl.
  intros col Hcol. apply lookup_lt_is_Some_2. lia.
Qed.

Section together.
Context `{Platform}.
Implicit Types (inputs : list (list N * N)) (codes : list N).

Lemma combine_to_factor_codes_length_all {A : Type} `{Countable A} `{Inhabited A}
    (lt : relation A) `{!RelDecision lt} `{!StrictOrder lt} `{!Trichotomy lt}
    n (columns : list (list A)) codes table codes' :
  arrays_of_length n columns →
  combine_to_factor lt n columns codes = Returned table codes' →
  length codes' = n.
Proof.
  intros Hlen Hrun. destruct columns as [|input [|input' columns']].
  - rewrite combine_to_factor_no_variables in Hrun. injection Hrun as <- <-.
    apply length_replicate.
  - apply combine_to_factor_single_inv in Hrun as (levels & -> & Hrun).
    apply Forall_inv in Hlen.
    rewrite (create_factor_codes_length lt _ _ _ _ _ Hrun). lia.
  - destruct (combine_to_factor_Returned lt (input :: input' :: columns') n codes
                table codes') as [_ ->]; [simpl; lia|done|].
    rewrite apply_remapping_length.
    apply (ci_length lt _ _ _ _ (combine_loop_spec lt (input :: input' :: columns') n)).
Qed.

Section composition.
Variables (n : nat) (inputs : list (list N * N)) (codes1 codes2 codes3 : list N).
Variables (full : list (list N)) (codes_u : list N).
Variables (table : list (list N)) (codes_o : list N).
Variables (levels : list N) (codes_c : list N).
Hypothesis Hk : (1 ≤ length inputs)%nat.
Hypothesis Hlen : arrays_of_length n inputs.*1.
Hypothesis Hrange : values_in_range inputs.
Hypothesis Hfit : product inputs.*2 ≤ Code_max.
Hypothesis Hunused : combine_to_factor_unused n inputs codes1 = Returned full codes_u.
Hypothesis Hobserved : combine_to_factor N.lt n inputs.*1 codes2 = Returned table codes_o.
Hypothesis Hcreate : create_factor N.lt n codes_u codes3 = Returned levels codes_c.

Lemma unused_codes_lookup i :
  (i < n)%nat →
  codes_u !! i = Some (mixed_radix inputs.*2 (observation inputs.*1 i))
  ∧ mixed_radix inputs.*2 (observation inputs.*1 i) < product inputs.*2.
Proof using Hk Hlen Hrange Hfit Hunused.
  intros Hi.
  destruct (combine_to_factor_unused_Returned n inputs codes1 full codes_u Hk Hfit Hunused)
    as [_ Hcodes].
  rewrite (Hcodes Hlen Hrange), suffix_codes_0_lookup by done. split; [done|].
  apply mixed_radix_lt. by apply (observation_in_range n).
Qed.

Lemma unused_codes_length : length codes_u = n.
Proof using Hk Hlen Hrange Hfit Hunused.
  destruct (combine_to_factor_unused_Returned n inputs codes1 full codes_u Hk Hfit Hunused)
    as [_ Hcodes].
  rewrite (Hcodes Hlen Hrange). apply suffix_codes_length.
Qed.

Lemma composition_levels_fit : N.of_nat (length levels) ≤ Code_max + 1.
Proof using All.
  pose proof (StronglySorted_N_length levels (product inputs.*2)) as Hbound.
  etrans; [apply Hbound|lia].
  - by eapply (create_factor_sorted N.lt).
  - apply list.Forall_forall. intros level Hlevel.
    apply (create_factor_levels_elem N.lt _ _ _ _ _ Hcreate) in Hlevel.
    apply list_elem_of_lookup in Hlevel as [i Hi].
    assert (i < n)%nat as Hin.
    { apply lookup_lt_Some in Hi. rewrite length_take in Hi. lia. }
    rewrite lookup_take_lt in Hi by done.
    destruct (unused_codes_lookup i Hin) as [Hu Hlt]. congruence.
Qed.

Lemma composition_table_fit : N.of_nat (table_length table) ≤ Code_max + 1.
Proof using All.
  assert (1 ≤ length inputs.*1)%nat as Hk' by by rewrite length_fmap.
  destruct (combine_to_factor_shape_all N.lt n inputs.*1 codes2 table codes_o
              Hk' Hlen Hobserved) as (_ & Hcols & _ & Hrows).
  pose proof (ascending_rows_bound table inputs.*2 (table_length table)) as Hbound.
  etrans; [apply Hbound|lia].
  - intros j Hj.
    destruct (table_row_is_Some table (table_length table) j Hcols Hj) as [row Hrow].
    exists row. split; [done|].
    destruct (proj1 (Hrows row)) as (i & Hi & ->); [by eauto|].
    by apply (observation_in_range n).
  - intros j j' Hj.
    destruct (combine_to_factor_sorted_all N.lt n inputs.*1 codes2 table codes_o
                Hobserved j j' Hj) as (row & row' & ? & ? & _ & ?).
    by exists row, row'.
Qed.

Lemma composition_codes : codes_c = codes_o.
Proof using All.
  pose proof composition_levels_fit as Hlevels.
  pose proof composition_table_fit as Htable.
  pose proof unused_codes_length as Hu.
  assert (1 ≤ length inputs.*1)%nat as Hk' by by rewrite length_fmap.
  apply (codes_unique n (length levels) (table_length table)).
  - rewrite (create_factor_codes_length N.lt _ _ _ _ _ Hcreate). lia.
  - by apply (combine_to_factor_codes_length_all N.lt n inputs.*1 codes2 table).
  - apply (create_factor_codes_range N.lt _ _ _ _ _ Hcreate).
  - intros i c. by apply (combine_to_factor_codes_range_all N.lt n inputs.*1 codes2 table).
  - intros j Hj.
    destruct (create_factor_dense N.lt _ _ _ _ _ Hcreate Hlevels j Hj) as (i & _ & Hi).
    eauto.
  - intros j Hj.
    destruct (combine_to_factor_dense_all N.lt n inputs.*1 codes2 table codes_o
                Hobserved Htable j Hj) as (i & _ & Hi).
    eauto.
  - intros i j c d c' d' Hc Hd Hc' Hd'.
    assert (i < n)%nat as Hi.
    { apply lookup_lt_Some in Hc.
      rewrite (create_factor_codes_length N.lt _ _ _ _ _ Hcreate) in Hc. lia. }
    assert (j < n)%nat as Hj.
    { apply lookup_lt_Some in Hd.
      rewrite (create_factor_codes_length N.lt _ _ _ _ _ Hcreate) in Hd. lia. }
    destruct (unused_codes_lookup i Hi) as [Hui _].
    destruct (unused_codes_lookup j Hj) as [Huj _].
    destruct (create_factor_order N.lt n codes_u codes3 levels codes_c i j _ _ c d
                Hcreate Hlevels Hi Hj Hui Huj Hc Hd) as [<- _].
    destruct (combine_to_factor_order_all N.lt n inputs.*1 codes2 table codes_o i j c' d'
                Hlen Hobserved Htable Hi Hj Hc' Hd') as [<- _].
    symmetry. apply mixed_radix_lex_lt; by apply (observation_in_range n).
Qed.

Lemma composition_rows :
  length levels = table_length table
  ∧ ∀ j level, levels !! j = Some level →
               table_row table j = table_row full (N.to_nat level).
Proof using All.
  pose proof composition_levels_fit as Hlevels.
  pose proof composition_table_fit as Htable.
  pose proof composition_codes as Hcodes.
  assert (1 ≤ length inputs.*1)%nat as Hk' by by rewrite length_fmap.
  split.
  - destruct (Nat.lt_trichotomy (length levels) (table_length table)) as [Hlt|[?|Hgt]];
      [|done|].
    + destruct (combine_to_factor_dense_all N.lt n inputs.*1 codes2 table codes_o
                  Hobserved Htable (length levels) Hlt) as (i & _ & Hi).
      rewrite <-Hcodes in Hi.
      apply (create_factor_codes_range N.lt _ _ _ _ _ Hcreate) in Hi. lia.
    + destruct (create_factor_dense N.lt _ _ _ _ _ Hcreate Hlevels (table_length table) Hgt)
        as (i & _ & Hi).
      rewrite Hcodes in Hi.
      apply (combine_to_factor_codes_range_all N.lt n inputs.*1 codes2 table codes_o)
        in Hi; [lia|done..].
  - intros j level Hlevel.
    destruct (create_factor_dense N.lt _ _ _ _ _ Hcreate Hlevels j) as (i & Hi & Hc).
    { by eapply lookup_lt_Some. }
    destruct (unused_codes_lookup i Hi) as [Hui _].
    destruct (create_factor_round_trip N.lt _ _ _ _ _ Hcreate Hlevels i _ Hi Hui)
      as (c & Hc' & Hlevel').
    assert (c = N.of_nat j) as -> by congruence.
    rewrite Nat2N.id in Hlevel'.
    assert (level = mixed_radix inputs.*2 (observation inputs.*1 i)) as -> by congruence.
    destruct (combine_to_factor_round_trip_all N.lt n inputs.*1 codes2 table codes_o
                Hlen Hobserved Htable i Hi) as (co & Hco & Hrow_o).
    rewrite <-Hcodes in Hco. assert (co = N.of_nat j) as -> by congruence.
    rewrite Nat2N.id in Hrow_o.
    destruct (combine_to_factor_unused_round_trip n inputs codes1 full codes_u
                Hlen Hrange Hfit Hunused i Hi) as (cu & Hcu & Hrow_u).
    assert (cu = mixed_radix inputs.*2 (observation inputs.*1 i)) as -> by congruence.
    by rewrite Hrow_o, Hrow_u.
Qed.
End composition.
End together.

(** X20. [combine_to_factor] is [create_factor] after
    [combine_to_factor_unused]: for raw values below the cardinalities
    whose product [Code_] can represent, factorising the codes of
    [combine_to_factor_unused] with [create_factor] gives the codes of
    [combine_to_factor] on the same variables, and the levels found are
    the indices of the rows of the full table that make up the table of
    [combine_to_factor], in the same order. *)
Theorem combine_to_factor_is_create_factor_of_unused_codes `{Platform}
    (n : nat) (inputs : list (list N * N)) (codes1 codes2 codes3 : list N)
    (full : list (list N)) (codes_u : list N)
    (table : list (list N)) (codes_o : list N)
    (levels : list N) (codes_c : list N) :
  (1 ≤ length inputs)%nat →
  arrays_of_length n inputs.*1 → values_in_range inputs →
  product inputs.*2 ≤ Code_max →
  combine_to_factor_unused n inputs codes1 = Returned full codes_u →
  combine_to_factor N.lt n inputs.*1 codes2 = Returned table codes_o →
  create_factor N.lt n codes_u codes3 = Returned levels codes_c →
  codes_c = codes_o
  ∧ length levels = table_length table
  ∧ ∀ j level, levels !! j = Some level →
               table_row table j = table_row full (N.to_nat level).
Proof.
  intros Hk Hlen Hrange Hfit Hunused Hobserved Hcreate. split.
  - by apply (composition_codes n inputs codes1 codes2 codes3 full codes_u table codes_o
                levels codes_c).
  - by apply (composition_rows n inputs codes1 codes2 codes3 full codes_u table codes_o
                levels codes_c).
Qed.

Lemma combine_to_factor_is_create_factor_of_unused_codes_witness :
  ∃ full codes_u table codes_o levels codes_c,
    @combine_to_factor_unused uint8_codes 3 scenario_C_inputs [] = Returned full codes_u
    ∧ @combine_to_factor uint8_codes N _ _ _ N.lt _ 3 scenario_C_inputs.*1 []
      = Returned table codes_o
    ∧ @create_factor uint8_codes N _ _ _ N.lt _ 3 codes_u [] = Returned levels codes_c
    ∧ codes_c = codes_o
    ∧ length levels = table_length table
    ∧ ∀ j level, levels !! j = Some level →
                 table_row table j = table_row full (N.to_nat level).
Proof.
  assert (@combine_to_factor_unused uint8_codes 3 scenario_C_inputs []
          = Returned [[0; 0; 0; 1; 1; 1]; [0; 1; 2; 0; 1; 2]] [2; 3; 1]) as Hunused
    by (vm_compute; reflexivity).
  assert (@combine_to_factor uint8_codes N _ _ _ N.lt _ 3 scenario_C_inputs.*1 []
          = Returned [[0; 0; 1]; [1; 2; 0]] [1; 2; 0]) as Hobserved
    by (vm_compute; reflexivity).
  assert (@create_factor uint8_codes N _ _ _ N.lt _ 3 [2; 3; 1] []
          = Returned [1; 2; 3] [1; 2; 0]) as Hcreate
    by (vm_compute; reflexivity).
  exists [[0; 0; 0; 1; 1; 1]; [0; 1; 2; 0; 1; 2]], [2; 3; 1],
         [[0; 0; 1]; [1; 2; 0]], [1; 2; 0], [1; 2; 3], [1; 2; 0].
  split; [exact Hunused|]. split; [exact Hobserved|]. split; [exact Hcreate|].
  apply (@combine_to_factor_is_create_factor_of_unused_codes uint8_codes
           3 scenario_C_inputs [] [] []
           [[0; 0; 0; 1; 1; 1]; [0; 1; 2; 0; 1; 2]] [2; 3; 1]
           [[0; 0; 1]; [1; 2; 0]] [1; 2; 0] [1; 2; 3] [1; 2; 0]);
    [..|exact Hunused|exact Hobserved|exact Hcreate].
  - vm_compute. lia.
  - repeat constructor.
  - repeat constructor; vm_compute; reflexivity.
  - vm_compute. discriminate.
Defined.

(** ** [combine_to_factor] on observations that ascend already *)

Lemma table_row_lookup {B} (table : list (list B)) j row f col :
  table_row table j = Some row → table !! f = Some col → col !! j = row !! f.
Proof.
  intros Hrow Hcol. unfold table_row in Hrow. apply mapM_Some in Hrow.
  destruct (Forall2_lookup_l _ _ _ _ _ Hrow Hcol) as (x & -> & ->). done.
Qed.

Lemma table_row_observation {B} `{Inhabited B} (table : list (list B)) (M j : nat) :
  Forall (λ col, length col = M) table → (j < M)%nat →
  table_row table j = Some (observation table j).
Proof.
  intros Hcols Hj. unfold table_row, observation. apply mapM_Some.
  apply Forall2_fmap_r, Forall_Forall2_diag.
  eapply List.Forall_impl; [|exact Hcols]. simpl.
  intros col Hcol. apply list_lookup_lookup_total_lt. lia.
Qed.

Section combine_to_factor_ascending.
Context `{Platform}.
Context {A : Type} `{Countable A} `{Inhabited A}.
Context (lt : relation A) `{!RelDecision lt} `{!StrictOrder lt} `{!Trichotomy lt}.
Implicit Types (inputs : list (list A)) (codes : list N).

Lemma combine_to_factor_ascending n inputs codes :
  arrays_of_length n inputs →
  (∀ i j, (i < j < n)%nat → lex_lt lt (observation inputs i) (observation inputs j)) →
  N.of_nat n ≤ Code_max + 1 → N.of_nat n ≤ size_max →
  N.of_nat (length inputs) ≤ size_max →
  combine_to_factor lt n inputs codes = Returned inputs (N.of_nat <$> seq 0 n).
Proof.
  intros Hlen Hascending Hcap Hsize Hksize.
  destruct (decide (length inputs = 0%nat)) as [Hzero|Hk].
  { destruct inputs; [|done]. rewrite combine_to_factor_no_variables. f_equal.
    destruct n as [|[|n]]; [done..|].
    by destruct (Hascending 0%nat 1%nat ltac:(lia)). }
  destruct (combine_to_factor_returns_all lt n inputs codes Hsize Hksize)
    as (table & codes' & Hrun).
  destruct (combine_to_factor_shape_all lt n inputs codes table codes')
    as (Hcols & Hrows & Hle & _); [lia|done..|].
  assert (N.of_nat (table_length table) ≤ Code_max + 1) as Hfit by lia.
  pose proof (combine_to_factor_codes_length_all lt n inputs codes table codes'
                Hlen Hrun) as Hcodes.
  assert (codes' = N.of_nat <$> seq 0 n) as ->.
  { apply (codes_unique n (table_length table) n).
    - done.
    - by rewrite length_fmap, length_seq.
    - intros i c. apply (combine_to_factor_codes_range_all lt n inputs codes table codes');
        [lia|done].
    - intros i c Hc. rewrite list_lookup_fmap in Hc.
      destruct (seq 0 n !! i) as [i'|] eqn:Hi; [|done].
      apply lookup_seq in Hi as [-> Hi]. injection Hc as <-. lia.
    - intros j Hj.
      destruct (combine_to_factor_dense_all lt n inputs codes table codes' Hrun Hfit j Hj)
        as (i & _ & Hi). eauto.
    - intros j Hj. exists j. by rewrite list_lookup_fmap, lookup_seq_lt.
    - intros i j c d c' d' Hc Hd Hc' Hd'.
      rewrite list_lookup_fmap in Hc', Hd'.
      destruct (seq 0 n !! i) as [i'|] eqn:Hi; [|done].
      destruct (seq 0 n !! j) as [j'|] eqn:Hj; [|done].
      apply lookup_seq in Hi as [-> Hi]. apply lookup_seq in Hj as [-> Hj].
      injection Hc' as <-. injection Hd' as <-. simpl.
      destruct (combine_to_factor_order_all lt n inputs codes table codes' i j c d
                  Hlen Hrun Hfit Hi Hj Hc Hd) as [<- _].
      split.
      + intros Hlex. destruct (Nat.lt_trichotomy i j) as [?|[->|Hji]]; [lia|..].
        * by destruct (lex_lt_irrefl lt _ Hlex).
        * destruct (lex_lt_irrefl lt (observation inputs i)).
          eapply (lex_lt_trans lt); [done|]. apply Hascending. lia.
      + intros Hij. apply Hascending. lia. }
  rewrite Hrun. f_equal.
  assert (table_length table = n) as Hn.
  { destruct (decide (table_length table < n)%nat) as [Hlt|]; [|lia].
    assert ((N.of_nat <$> seq 0 n) !! table_length table
            = Some (N.of_nat (table_length table))) as Hc
      by by rewrite list_lookup_fmap, lookup_seq_lt.
    apply (combine_to_factor_codes_range_all lt n inputs codes table _ _ _ ltac:(lia) Hrun)
      in Hc. lia. }
  apply list_eq. intros f.
  destruct (table !! f) as [col|] eqn:Hcol; last first.
  { symmetry. apply lookup_ge_None_2. apply lookup_ge_None_1 in Hcol. lia. }
  destruct (lookup_lt_is_Some_2 inputs f) as [input Hinput].
  { apply lookup_lt_Some in Hcol. lia. }
  rewrite Hinput. f_equal. apply (list_eq_same_length _ _ n).
  - by eapply (Forall_lookup_1 _ _ _ _ Hlen).
  - eapply (Forall_lookup_1 _ _ _ _ Hrows) in Hcol as Hcollen. simpl in Hcollen. lia.
  - intros j x y Hj Hx Hy.
    destruct (combine_to_factor_round_trip_all lt n inputs codes table _ Hlen Hrun Hfit j Hj)
      as (c & Hc & Hrow).
    rewrite list_lookup_fmap, lookup_seq_lt in Hc by done. injection Hc as <-.
    rewrite Nat2N.id in Hrow.
    rewrite (table_row_lookup _ _ _ _ _ Hrow Hcol) in Hx.
    unfold observation in Hx. rewrite list_lookup_fmap, Hinput in Hx. simpl in Hx.
    rewrite (list_lookup_total_correct _ _ _ Hy) in Hx. congruence.
Qed.

Lemma combine_to_factor_idempotent n inputs codes table codes' codes0 :
  arrays_of_length n inputs → N.of_nat (length inputs) ≤ size_max →
  combine_to_factor lt n inputs codes = Returned table codes' →
  N.of_nat (table_length table) ≤ Code_max + 1 →
  N.of_nat (table_length table) ≤ size_max →
  combine_to_factor lt (table_length table) table codes0
  = Returned table (N.of_nat <$> seq 0 (table_length table)).
Proof.
  intros Hlen Hksize Hrun Hfit Hsize.
  destruct (decide (length inputs = 0%nat)) as [Hzero|Hk].
  { destruct inputs; [|done]. rewrite combine_to_factor_no_variables in Hrun.
    injection Hrun as <- <-. by rewrite combine_to_factor_no_variables. }
  destruct (combine_to_factor_shape_all lt n inputs codes table codes')
    as (Hcols & Hrows & Hle & _); [lia|done..|].
  apply combine_to_factor_ascending; [done| |done..|by rewrite Hcols].
  intros i j Hij.
  destruct (combine_to_factor_sorted_all lt n inputs codes table codes' Hrun i j Hij)
    as (row & row' & Hrow & Hrow' & _ & Hlex).
  rewrite (table_row_observation table (table_length table)) in Hrow, Hrow' by (done || lia).
  by simplify_eq.
Qed.
End combine_to_factor_ascending.

(** X21. On observations whose combinations already ascend strictly
    (lexicographically, from the first variable on), [combine_to_factor]
    is the identity: the table is the input and the codes are
    0, 1, ..., n-1 (for [n] that fits [Code_] and the size type). *)
Theorem combine_to_factor_of_ascending_observations `{Platform} {A : Type}
    `{Countable A} `{Inhabited A} (lt : relation A) `{!RelDecision lt}
    `{!StrictOrder lt} `{!Trichotomy lt}
    (n : nat) (inputs : list (list A)) (codes : list N) :
  arrays_of_length n inputs →
  (∀ i j, (i < j < n)%nat → lex_lt lt (observation inputs i) (observation inputs j)) →
  N.of_nat n ≤ Code_max + 1 → N.of_nat n ≤ size_max →
  N.of_nat (length inputs) ≤ size_max →
  combine_to_factor lt n inputs codes = Returned inputs (N.of_nat <$> seq 0 n).
Proof. intros. by apply combine_to_factor_ascending. Qed.

Lemma combine_to_factor_of_ascending_observations_witness :
  @combine_to_factor uint8_codes N _ _ _ N.lt _ 4 [[1; 2; 2; 3]; [1; 1; 2; 1]] []
  = Returned [[1; 2; 2; 3]; [1; 1; 2; 1]] (N.of_nat <$> seq 0 4).
Proof.
  apply (@combine_to_factor_of_ascending_observations uint8_codes N _ _ _ N.lt _ _ _
           4 [[1; 2; 2; 3]; [1; 1; 2; 1]] []);
    try (vm_compute; discriminate).
  - repeat constructor.
  - intros i j Hij.
    assert (i = 0 ∧ j = 1 ∨ i = 0 ∧ j = 2 ∨ i = 0 ∧ j = 3
            ∨ i = 1 ∧ j = 2 ∨ i = 1 ∧ j = 3 ∨ i = 2 ∧ j = 3)%nat
      as [[-> ->]|[[-> ->]|[[-> ->]|[[-> ->]|[[-> ->]|[-> ->]]]]]] by lia;
      vm_compute; auto.
Defined.

(** X22. [combine_to_factor] is idempotent on its table: applied to the
    columns of the table it has returned (when the table fits [Code_]
    and the size type), it returns the table unchanged, with the codes
    0, 1, ..., M-1. *)
Theorem combine_to_factor_of_its_table `{Platform} {A : Type}
    `{Countable A} `{Inhabited A} (lt : relation A) `{!RelDecision lt}
    `{!StrictOrder lt} `{!Trichotomy lt}
    (n : nat) (inputs : list (list A)) (codes : list N)
    (table : list (list A)) (codes' : list N) (codes0 : list N) :
  arrays_of_length n inputs → N.of_nat (length inputs) ≤ size_max →
  combine_to_factor lt n inputs codes = Returned table codes' →
  N.of_nat (table_length table) ≤ Code_max + 1 →
  N.of_nat (table_length table) ≤ size_max →
  combine_to_factor lt (table_length table) table codes0
  = Returned table (N.of_nat <$> seq 0 (table_length table)).
Proof. intros. by apply (combine_to_factor_idempotent lt n inputs codes table codes'). Qed.

Lemma combine_to_factor_of_its_table_witness :
  @combine_to_factor uint8_codes N _ _ _ N.lt _ 4 scenario_A_inputs [0; 0; 0; 0]
  = Returned [[1; 2; 2; 3]; [1; 1; 2; 1]] [1; 0; 2; 3]
  ∧ @combine_to_factor uint8_codes N _ _ _ N.lt _ 4 [[1; 2; 2; 3]; [1; 1; 2; 1]] []
    = Returned [[1; 2; 2; 3]; [1; 1; 2; 1]] [0; 1; 2; 3].
Proof.
  assert (@combine_to_factor uint8_codes N _ _ _ N.lt _ 4 scenario_A_inputs [0; 0; 0; 0]
          = Returned [[1; 2; 2; 3]; [1; 1; 2; 1]] [1; 0; 2; 3]) as Hrun
    by (vm_compute; reflexivity).
  split; [exact Hrun|].
  apply (@combine_to_factor_of_its_table uint8_codes N _ _ _ N.lt _ _ _
           4 scenario_A_inputs [0; 0; 0; 0] [[1; 2; 2; 3]; [1; 1; 2; 1]] [1; 0; 2; 3] []);
    [repeat constructor|vm_compute; discriminate|exact Hrun|vm_compute; discriminate..].
Defined.

(** ** The full table as input of [combine_to_factor] *)

Section full_table.
Context `{Platform}.
Implicit Types (inputs : list (list N * N)) (cards : list N).

(** A call that returns has passed the checks against the size type. *)
Lemma combine_to_factor_unused_Returned_sizes n inputs codes table codes' :
  (1 ≤ length inputs)%nat → product inputs.*2 ≤ Code_max →
  combine_to_factor_unused n inputs codes = Returned table codes' →
  N.of_nat (length inputs) ≤ size_max ∧ product inputs.*2 ≤ size_max.
Proof.
  intros Hk Hfit Hrun. destruct (decide (length inputs = 1%nat)) as [Hone|Hmore].
  - destruct inputs as [|[ff c] [|? ?]]; simplify_eq/=.
    unfold combine_to_factor_unused, sanisizer_resize, sanisizer_create,
      sanisizer_cast_size in Hrun. simpl in Hrun.
    repeat case_decide; simplify_eq/=. split; [done|lia].
  - assert (2 ≤ length inputs)%nat as Hk2 by lia.
    destruct (combine_to_factor_unused_Returned_pos _ _ _ _ _ Hk2 Hrun) as [Hpos Hksize].
    destruct (combine_to_factor_unused_general n inputs codes Hk2 Hpos Hfit Hksize)
      as (codes'' & Hrun' & _).
    rewrite Hrun' in Hrun. by case_decide.
Qed.

Lemma combine_to_factor_full_table n inputs codes full codes' codes0 :
  (1 ≤ length inputs)%nat → product inputs.*2 ≤ Code_max →
  combine_to_factor_unused n inputs codes = Returned full codes' →
  combine_to_factor N.lt (table_length full) full codes0
  = Returned full (N.of_nat <$> seq 0 (table_length full)).
Proof.
  intros Hk Hfit Hrun.
  destruct (combine_to_factor_unused_Returned_sizes n inputs codes full codes' Hk Hfit Hrun)
    as [Hksize Hsize].
  destruct (combine_to_factor_unused_Returned n inputs codes full codes' Hk Hfit Hrun)
    as [-> _].
  assert (length inputs.*2 = length inputs) as Hcards by by rewrite length_fmap.
  assert (table_length (cartesian_table inputs.*2) = N.to_nat (product inputs.*2)) as HM.
  { rewrite cartesian_table_table_length. destruct inputs.*2; [simpl in *; lia|done]. }
  pose proof (cartesian_table_columns inputs.*2) as Hcols.
  rewrite HM. apply (combine_to_factor_ascending N.lt).
  - exact Hcols.
  - intros i j Hij.
    apply (cartesian_table_sorted inputs.*2 i j); [lia|lia|..];
      by apply (table_row_observation _ (N.to_nat (product inputs.*2))); [|lia].
  - lia.
  - lia.
  - rewrite cartesian_table_length. lia.
Qed.
End full_table.

(** X23. The full table of [combine_to_factor_unused] is a fixed point
    of [combine_to_factor]: applied to the columns of the table that
    [combine_to_factor_unused] has returned (when [Code_] can represent
    the product of the cardinalities), [combine_to_factor] returns that
    table unchanged, with the codes 0, 1, ..., P-1. *)
Theorem combine_to_factor_of_the_full_table `{Platform}
    (n : nat) (inputs : list (list N * N)) (codes : list N)
    (full : list (list N)) (codes' : list N) (codes0 : list N) :
  (1 ≤ length inputs)%nat → product inputs.*2 ≤ Code_max →
  combine_to_factor_unused n inputs codes = Returned full codes' →
  combine_to_factor N.lt (table_length full) full codes0
  = Returned full (N.of_nat <$> seq 0 (table_length full)).
Proof. apply combine_to_factor_full_table. Qed.

Lemma combine_to_factor_of_the_full_table_witness :
  @combine_to_factor_unused uint8_codes 3 scenario_C_inputs [0; 0; 0]
  = Returned [[0; 0; 0; 1; 1; 1]; [0; 1; 2; 0; 1; 2]] [2; 3; 1]
  ∧ @combine_to_factor uint8_codes N _ _ _ N.lt _ 6
      [[0; 0; 0; 1; 1; 1]; [0; 1; 2; 0; 1; 2]] []
    = Returned [[0; 0; 0; 1; 1; 1]; [0; 1; 2; 0; 1; 2]] [0; 1; 2; 3; 4; 5].
Proof.
  assert (@combine_to_factor_unused uint8_codes 3 scenario_C_inputs [0; 0; 0]
          = Returned [[0; 0; 0; 1; 1; 1]; [0; 1; 2; 0; 1; 2]] [2; 3; 1]) as Hrun
    by (vm_compute; reflexivity).
  split; [exact Hrun|].
  apply (@combine_to_factor_of_the_full_table uint8_codes 3 scenario_C_inputs [0; 0; 0]
           [[0; 0; 0; 1; 1; 1]; [0; 1; 2; 0; 1; 2]] [2; 3; 1] []);
    [vm_compute; lia|vm_compute; discriminate|exact Hrun].
Defined.

(** ** The first loop of [combine_to_factor] *)

(** X24. For a strict total [operator<] and an unsigned [Code_] of any
    width, the loop of lines 89-99 keeps the [std::map] of
    [combine_to_factor] well formed and its labels in bounds: after any
    number of iterations the entries ascend strictly under [cmp], the
    labels are the sizes the map went through, converted to [Code_]
    (reduced modulo [2 ^ Code_bits]), every label stored in the map and
    every provisional code written to [codes] is below [mapping.size()],
    and the map has at most one entry per observation seen.  So the
    writes [remapping[unique[u].second]] (line 115) and the reads
    [remapping[codes[i]]] (line 120) stay inside [remapping]. *)
Theorem combine_to_factor_map_invariant `{Platform} {A : Type} `{Inhabited A}
    `{!EqDecision A} (lt : relation A) `{!RelDecision lt} `{!StrictOrder lt}
    `{!Trichotomy lt} (inputs : list (list A)) (t : nat) :
  let mapping := (foldl (combine_step lt inputs) ([], []) (seq 0 t)).1 in
  let cs := (foldl (combine_step lt inputs) ([], []) (seq 0 t)).2 in
  (∀ a b e e', (a < b)%nat → mapping !! a = Some e → mapping !! b = Some e' →
               cmp lt inputs e.1 e'.1 = true)
  ∧ mapping.*2 ≡ₚ (λ j, to_Code (N.of_nat j)) <$> seq 0 (length mapping)
  ∧ (∀ e, e ∈ mapping → (N.to_nat e.2 < length mapping)%nat)
  ∧ (∀ c, c ∈ cs → (N.to_nat c < length mapping)%nat)
  ∧ (length mapping ≤ t)%nat.
Proof.
  intros mapping cs. pose proof (combine_loop_spec lt inputs t) as Hinv.
  fold mapping cs in Hinv. split_and!.
  - intros a b e e' Hab He He'. apply (cmp_spec lt).
    apply (StronglySorted_lookup_lt _ _ _ _ _ _ (ci_sorted lt inputs _ _ _ Hinv) Hab He He').
  - apply (combine_loop_labels lt).
  - intros [ix c] He. by apply (ci_label lt inputs _ _ _ Hinv ix).
  - intros c [i Hi]%list_elem_of_lookup.
    destruct (ci_seen lt inputs _ _ _ Hinv i) as (ix & c' & Hin & _ & Hcs).
    { apply lookup_lt_Some in Hi. by rewrite (ci_length lt inputs _ _ _ Hinv) in Hi. }
    assert (c' = c) as -> by congruence.
    by apply (ci_label lt inputs _ _ _ Hinv ix).
  - apply (ci_size lt inputs _ _ _ Hinv).
Qed.

Lemma combine_to_factor_map_invariant_witness :
  let mapping :=
    (foldl (@combine_step uint8_codes N _ _ N.lt _ scenario_A_inputs) ([], []) (seq 0 4)).1 in
  let cs :=
    (foldl (@combine_step uint8_codes N _ _ N.lt _ scenario_A_inputs) ([], []) (seq 0 4)).2 in
  (∀ a b e e', (a < b)%nat → mapping !! a = Some e → mapping !! b = Some e' →
               cmp N.lt scenario_A_inputs e.1 e'.1 = true)
  ∧ mapping.*2 ≡ₚ (λ j, @to_Code uint8_codes (N.of_nat j)) <$> seq 0 (length mapping)
  ∧ (∀ e, e ∈ mapping → (N.to_nat e.2 < length mapping)%nat)
  ∧ (∀ c, c ∈ cs → (N.to_nat c < length mapping)%nat)
  ∧ (length mapping ≤ 4)%nat.
Proof. exact (@combine_to_factor_map_invariant uint8_codes N _ _ N.lt _ _ _ scenario_A_inputs 4). Defined.

(** ** What the codes array holds when [combine_to_factor_unused] throws *)

Section unused_thrown.
Context `{Platform}.
Implicit Types (inputs : list (list N * N)) (cards : list N) (n f g i : nat).

Lemma code_loop_Thrown n inputs f codes' :
  arrays_of_length n inputs.*1 → values_in_range inputs →
  (f < length inputs)%nat → product (drop f inputs.*2) ≤ Code_max →
  code_loop inputs f (product (drop f inputs.*2)) (suffix_codes n inputs f) = Thrown codes' →
  ∃ g, (g < f)%nat ∧ codes' = suffix_codes n inputs (S g)
       ∧ product (drop (S g) inputs.*2) ≤ Code_max < product (drop g inputs.*2).
Proof.
  intros Hlen Hrange. induction f as [|f IH]; intros Hf Hfit; [done|].
  destruct (lookup_lt_is_Some_2 inputs f) as [finfo Hfinfo]; [lia|].
  assert (inputs.*2 !! f = Some finfo.2) as Hc by by rewrite list_lookup_fmap, Hfinfo.
  pose proof (product_drop_S _ _ _ Hc) as HP.
  cbn [code_loop]. rewrite (list_lookup_total_correct _ _ _ Hfinfo).
  destruct (decide (product (drop f inputs.*2) ≤ Code_max)) as [Hfit'|Hover].
  - rewrite (code_step_spec n inputs f finfo) by done.
    intros Hloop. destruct (IH ltac:(lia) Hfit' Hloop) as (g & Hg & ? & ?).
    exists g. split; [lia|done].
  - unfold code_step, sanisizer_product. rewrite decide_False by lia.
    cbn [mbind option_bind]. intros [= <-]. exists f. split; [lia|]. split; [done|lia].
Qed.

Lemma code_loop_Returned n inputs f next codes' :
  arrays_of_length n inputs.*1 → values_in_range inputs →
  (f < length inputs)%nat → product (drop f inputs.*2) ≤ Code_max →
  code_loop inputs f (product (drop f inputs.*2)) (suffix_codes n inputs f)
  = Returned next codes' →
  next = product inputs.*2 ∧ codes' = suffix_codes n inputs 0
  ∧ product inputs.*2 ≤ Code_max.
Proof.
  intros Hlen Hrange. induction f as [|f IH]; intros Hf Hfit.
  { cbn [code_loop]. rewrite drop_0 in *. by intros [= <- <-]. }
  destruct (lookup_lt_is_Some_2 inputs f) as [finfo Hfinfo]; [lia|].
  assert (inputs.*2 !! f = Some finfo.2) as Hc by by rewrite list_lookup_fmap, Hfinfo.
  pose proof (product_drop_S _ _ _ Hc) as HP.
  cbn [code_loop]. rewrite (list_lookup_total_correct _ _ _ Hfinfo).
  destruct (decide (product (drop f inputs.*2) ≤ Code_max)) as [Hfit'|Hover].
  - rewrite (code_step_spec n inputs f finfo) by done. apply IH; [lia|done].
  - unfold code_step, sanisizer_product. by rewrite decide_False by lia.
Qed.

Lemma combine_to_factor_unused_Thrown n inputs codes codes' :
  (2 ≤ length inputs)%nat → N.of_nat (length inputs) ≤ size_max →
  arrays_of_length n inputs.*1 → values_in_range inputs →
  (inputs !!! (length inputs - 1)%nat).2 ≤ Code_max →
  combine_to_factor_unused n inputs codes = Thrown codes' →
  ∃ f, (f < length inputs)%nat ∧ codes' = suffix_codes n inputs f
       ∧ product (drop f inputs.*2) ≤ Code_max
       ∧ (f = 0%nat ∧ size_max < product inputs.*2
          ∨ (0 < f)%nat ∧ Code_max < product (drop (f - 1) inputs.*2)).
Proof.
  intros Hk Hksize Hlen Hrange Hlast. unfold combine_to_factor_unused.
  rewrite sanisizer_create_Some by done.
  destruct (length inputs) as [|[|k]] eqn:Hlength; [lia..|].
  replace (S (S k) - 1)%nat with (S k) in * by lia.
  destruct (lookup_lt_is_Some_2 inputs (S k)) as [last Hfinfo]; [lia|].
  rewrite (list_lookup_total_correct _ _ _ Hfinfo) in *.
  assert (inputs.*2 !! S k = Some last.2) as Hc by by rewrite list_lookup_fmap, Hfinfo.
  assert (product (drop (S k) inputs.*2) = last.2) as HP.
  { rewrite (product_drop_S _ _ _ Hc), drop_ge by (rewrite length_fmap; lia).
    simpl. lia. }
  rewrite to_Code_small by done. rewrite <-HP.
  rewrite (copy_n_last n inputs (S k) last) by done.
  destruct (code_loop inputs (S k) _ _) as [next codes1|codes1|] eqn:Hloop.
  - apply code_loop_Returned in Hloop as (-> & -> & Hfit); [|done|done|lia|lia].
    unfold sanisizer_cast_size. case_decide as Hsize.
    { by destruct (table_loop _ _ _ _ _). }
    intros [= <-]. exists 0%nat. rewrite drop_0.
    split_and!; [lia|done|done|left; split; [done|lia]].
  - apply code_loop_Thrown in Hloop as (g & Hg & -> & Hfit & Hover); [|done|done|lia|lia].
    intros [= <-]. exists (S g). split_and!; [lia|done|done|right].
    split; [lia|]. by replace (S g - 1)%nat with g by lia.
  - done.
Qed.
End unused_thrown.

(** X25. What the codes array holds when [combine_to_factor_unused]
    throws (two or more variables, raw values below the cardinalities, a
    last cardinality that [Code_] can represent): the mixed-radix codes
    of the variables from some position [f] on, those that the loop of
    lines 168-178 had folded in when the check failed.  Either [f] is
    positive and the product of the cardinalities from [f - 1] on is the
    first that [Code_] cannot represent, or [f] is 0, the codes are
    complete, and the number of combinations does not fit the size type
    (line 180). *)
Theorem combine_to_factor_unused_codes_when_thrown `{Platform}
    (n : nat) (inputs : list (list N * N)) (codes codes' : list N) :
  (2 ≤ length inputs)%nat → N.of_nat (length inputs) ≤ size_max →
  arrays_of_length n inputs.*1 → values_in_range inputs →
  (inputs !!! (length inputs - 1)%nat).2 ≤ Code_max →
  combine_to_factor_unused n inputs codes = Thrown codes' →
  ∃ f, (f < length inputs)%nat
       ∧ codes' = suffix_codes n inputs f
       ∧ product (drop f inputs.*2) ≤ Code_max
       ∧ (f = 0%nat ∧ size_max < product inputs.*2
          ∨ (0 < f)%nat ∧ Code_max < product (drop (f - 1) inputs.*2)).
Proof. apply combine_to_factor_unused_Thrown. Qed.

Lemma combine_to_factor_unused_codes_when_thrown_witness :
  @combine_to_factor_unused uint8_codes 2 sixteen_by_sixteen [0; 0] = Thrown [2; 3]
  ∧ ∃ f, (f < length sixteen_by_sixteen)%nat
         ∧ [2; 3] = suffix_codes 2 sixteen_by_sixteen f
         ∧ product (drop f sixteen_by_sixteen.*2) ≤ @Code_max uint8_codes
         ∧ (f = 0%nat ∧ @size_max uint8_codes < product sixteen_by_sixteen.*2
            ∨ (0 < f)%nat
              ∧ @Code_max uint8_codes < product (drop (f - 1) sixteen_by_sixteen.*2)).
Proof.
  assert (@combine_to_factor_unused uint8_codes 2 sixteen_by_sixteen [0; 0]
          = Thrown [2; 3]) as Hrun by (vm_compute; reflexivity).
  split; [exact Hrun|].
  apply (@combine_to_factor_unused_codes_when_thrown uint8_codes 2 sixteen_by_sixteen
           [0; 0] [2; 3]); [..|exact Hrun].
  - vm_compute. lia.
  - vm_compute. discriminate.
  - repeat constructor.
  - repeat constructor; vm_compute; reflexivity.
  - vm_compute. discriminate.
Defined.
